(** * goog.html.SafeUrl and goog.structs.StringSet: a shallow embedding

    The development follows [closure/goog/html/safeurl.js] and the
    string-set file of the Closure Library.  JavaScript strings are
    sequences of UTF-16 code units, regular-expression literals are kept
    as syntax trees and run by a backtracking matcher written after the
    ECMAScript pattern semantics, and the functions of the two files are
    translated one by one on top of that. *)

From Stdlib Require Import NArith List String Ascii Lia Bool.
From stdpp Require Import base gmap list strings.

Set Default Proof Using "Type".
Open Scope N_scope.

(** ** JavaScript strings *)

(** A string value is a finite sequence of 16-bit code units. *)
Abbreviation jsstring := (list N).

(** The code unit of an ASCII character, and the string of an ASCII
    literal. *)
Definition ch (a : ascii) : N := N_of_ascii a.

Definition str (s : string) : jsstring := map ch (list_ascii_of_string s).

Module JsString.

(** [String.prototype.charCodeAt]: [None] stands for [NaN]. *)
Definition charCodeAt (s : jsstring) (i : nat) : option N := s !! i.

(** [String.prototype.substr(start)] for a start within bounds or
    beyond. *)
Definition substr (s : jsstring) (start : nat) : jsstring := drop start s.

(** [String.prototype.substring(lo, hi)] for [lo <= hi]. *)
Definition substring (s : jsstring) (lo hi : nat) : jsstring :=
  take (hi - lo) (drop lo s).

(** [String.prototype.indexOf] for a one-unit needle: [None] stands
    for [-1]. *)
Fixpoint indexOf (s : jsstring) (c : N) : option nat :=
  match s with
  | [] => None
  | d :: t => if d =? c then Some O else S <$> indexOf t c
  end.

Definition isUpper (c : N) : bool := (65 <=? c) && (c <=? 90).
Definition isLower (c : N) : bool := (97 <=? c) && (c <=? 122).
Definition isDigit (c : N) : bool := (48 <=? c) && (c <=? 57).

(** Case mapping of one code unit.  Only the ASCII letters are mapped.
    Every prefix and pattern of the two files is ASCII; the prefixes
    compared in lower case contain neither [k] nor [i], the two ASCII
    letters that are lower-case forms of units outside ASCII, and the
    patterns never equate a unit outside ASCII with an ASCII one (see
    [Canonicalize]). *)
Definition toLower (c : N) : N := if isUpper c then c + 32 else c.
Definition toUpper (c : N) : N := if isLower c then c - 32 else c.

Definition toLowerCase (s : jsstring) : jsstring := map toLower s.

Definition eqb (s t : jsstring) : bool := bool_decide (s = t).

End JsString.

(** ** Regular expressions *)

Module RegExp.

(** *** Syntax *)

Inductive ClassAtom :=
| CChar (c : N)               (* a single character *)
| CRange (lo hi : N)          (* lo-hi *)
| CWord.                      (* \w *)

(** [Group n r] is the capturing group whose left parenthesis is the
    [n]-th of the pattern; [Repeat min max r] covers the quantifiers
    ([*], [+], [?], [{n}], [{n,m}]), all greedy. *)
Inductive Pattern :=
| Empty
| Char (c : N)
| Dot
| Class (invert : bool) (atoms : list ClassAtom)
| Seq (r1 r2 : Pattern)
| Alt (r1 r2 : Pattern)
| Repeat (min : nat) (max : option nat) (r : Pattern)
| Group (n : nat) (r : Pattern)
| AssertStart
| AssertEnd.

Definition Star := Repeat 0 None.
Definition Plus := Repeat 1 None.
Definition Opt := Repeat 0 (Some 1%nat).

(** The characters of a literal, in sequence. *)
Definition Lit (s : string) : Pattern :=
  foldr (fun a r => Seq (Char (ch a)) r) Empty (list_ascii_of_string s).

Record RegExp := {
  source : Pattern;
  nCaptures : nat;          (* number of capturing groups *)
  ignoreCase : bool;        (* flag i *)
  global : bool             (* flag g *)
}.

(** *** Character sets *)

Definition isLineTerminator (c : N) : bool :=
  (c =? 10) || (c =? 13) || (c =? 8232) || (c =? 8233).

Definition isWordChar (c : N) : bool :=
  JsString.isLower c || JsString.isUpper c || JsString.isDigit c || (c =? 95).

Definition atom_mem (a : ClassAtom) (c : N) : bool :=
  match a with
  | CChar d => c =? d
  | CRange lo hi => (lo <=? c) && (c <=? hi)
  | CWord => isWordChar c
  end.

(** [Canonicalize] of the pattern semantics, without the unicode flag:
    the upper-case form of the unit, except that a unit outside ASCII
    never becomes an ASCII one.  The patterns below have ASCII members
    only, so the canonical form of a unit outside ASCII is never
    compared with anything it could equal, and it is left as it is. *)
Definition Canonicalize (ic : bool) (c : N) : N :=
  if ic then JsString.toUpper c else c.

(** Membership in a class: some member has the canonical form of the
    unit.  A canonical form [cc] is the image of [cc] itself and, when
    it is an upper-case letter and case is ignored, of [cc + 32]. *)
Definition class_mem (ic : bool) (atoms : list ClassAtom) (c : N) : bool :=
  let cc := Canonicalize ic c in
  existsb (fun a => atom_mem a cc
                    || (ic && JsString.isUpper cc && atom_mem a (cc + 32)))
          atoms.

(** *** The matcher *)

Record MatchState := {
  endIndex : nat;                       (* units consumed so far *)
  rest : jsstring;                      (* input from [endIndex] on *)
  captures : list (option jsstring)     (* index 0 is the whole match *)
}.

Definition MatchResult := option MatchState.
Definition Continuation := MatchState -> MatchResult.

Definition CharacterSetMatcher (p : N -> bool) (c : Continuation)
    (x : MatchState) : MatchResult :=
  match rest x with
  | [] => None
  | u :: t =>
      if p u
      then c {| endIndex := S (endIndex x); rest := t; captures := captures x |}
      else None
  end.

(** The indices of the groups inside a pattern. *)
Fixpoint groups (r : Pattern) : list nat :=
  match r with
  | Seq r1 r2 | Alt r1 r2 => groups r1 ++ groups r2
  | Repeat _ _ r1 => groups r1
  | Group n r1 => n :: groups r1
  | _ => []
  end.

Definition clearCaptures (gs : list nat) (x : MatchState) : MatchState :=
  {| endIndex := endIndex x; rest := rest x;
     captures := foldr (fun n cap => <[n := None]> cap) (captures x) gs |}.

Definition setCapture (n : nat) (x y : MatchState) : MatchState :=
  {| endIndex := endIndex y; rest := rest y;
     captures :=
       <[n := Some (take (endIndex y - endIndex x) (rest x))]> (captures y) |}.

Definition Matcher := Continuation -> MatchState -> MatchResult.

(** RepeatMatcher, for a greedy quantifier on the matcher [mr] of a
    pattern whose groups are [gs].  The counter [fuel] only witnesses
    termination: an iteration either lowers a finite [max], or lowers
    [min], or consumes input. *)
Fixpoint RepeatMatcher (mr : Matcher) (gs : list nat) (c : Continuation)
    (fuel min : nat) (max : option nat) (x : MatchState)
    {struct fuel} : MatchResult :=
  match max with
  | Some O => c x
  | _ =>
      match fuel with
      | O => c x
      | S fuel' =>
          let d := fun y =>
            if (min =? 0)%nat && (endIndex y =? endIndex x)%nat
            then None
            else RepeatMatcher mr gs c fuel' (pred min) (pred <$> max) y in
          let xr := clearCaptures gs x in
          if (min =? 0)%nat
          then match mr d xr with
               | Some z => Some z
               | None => c x
               end
          else mr d xr
      end
  end.

Definition repeatFuel (min : nat) (max : option nat) (x : MatchState) : nat :=
  match max with
  | Some n => n
  | None => (min + S (length (rest x)))%nat
  end.

Section Matcher.
Variable ic : bool.

(** [m r c x]: match [r] at state [x], then continue with [c]; the first
    success in priority order is returned. *)
Fixpoint m (r : Pattern) (c : Continuation) (x : MatchState)
    {struct r} : MatchResult :=
  match r with
  | Empty => c x
  | Char d =>
      CharacterSetMatcher
        (fun u => Canonicalize ic u =? Canonicalize ic d) c x
  | Dot => CharacterSetMatcher (fun u => negb (isLineTerminator u)) c x
  | Class invert atoms =>
      CharacterSetMatcher (fun u => xorb invert (class_mem ic atoms u)) c x
  | Seq r1 r2 => m r1 (fun y => m r2 c y) x
  | Alt r1 r2 =>
      match m r1 c x with
      | Some z => Some z
      | None => m r2 c x
      end
  | Group n r1 => m r1 (fun y => c (setCapture n x y)) x
  | AssertStart => if (endIndex x =? 0)%nat then c x else None
  | AssertEnd => match rest x with [] => c x | _ => None end
  | Repeat min max r1 =>
      RepeatMatcher (m r1) (groups r1) c (repeatFuel min max x) min max x
  end.
End Matcher.

(** *** RegExpBuiltinExec and the string methods built on it *)

Record ExecResult := {
  index : nat;                          (* where the match starts *)
  lastIndex : nat;                      (* where it ends *)
  after : jsstring;                     (* input from [lastIndex] on *)
  array : list (option jsstring)        (* [0] the match, [n] group n *)
}.

Definition initial (R : RegExp) (i : nat) (s : jsstring) : MatchState :=
  {| endIndex := i; rest := s; captures := replicate (S (nCaptures R)) None |}.

(** Try the pattern at index [i], then at the following ones, up to the
    end of the input; [s] is the input from index [i] on. *)
Fixpoint search (R : RegExp) (i : nat) (s : jsstring) : option ExecResult :=
  match m (ignoreCase R) (source R) Some (initial R i s) with
  | Some y =>
      Some {| index := i; lastIndex := endIndex y; after := rest y;
              array := <[O := Some (take (endIndex y - i) s)]> (captures y) |}
  | None =>
      match s with
      | [] => None
      | _ :: t => search R (S i) t
      end
  end.

(** [RegExp.prototype.exec] on a regexp whose [lastIndex] is 0. *)
Definition exec (R : RegExp) (s : jsstring) : option ExecResult := search R O s.

(** [RegExp.prototype.test], same proviso. *)
Definition test (R : RegExp) (s : jsstring) : bool :=
  match exec R s with Some _ => true | None => false end.

Definition matched (e : ExecResult) : jsstring := default [] (array e !!! O).

(** Where the next search of a global regexp starts: an empty match
    advances by one unit; [None] when that passes the end. *)
Definition advance (e : ExecResult) : option (nat * jsstring * jsstring) :=
  match matched e with
  | [] => match after e with
          | [] => None
          | u :: t => Some (S (lastIndex e), [u], t)
          end
  | _ => Some (lastIndex e, [], after e)
  end.

(** The successive matches of a global regexp from index [i] on. *)
Fixpoint matches (fuel : nat) (R : RegExp) (i : nat) (s : jsstring)
    : list ExecResult :=
  match fuel with
  | O => []
  | S fuel' =>
      match search R i s with
      | None => []
      | Some e =>
          e :: match advance e with
               | None => []
               | Some (j, _, t) => matches fuel' R j t
               end
      end
  end.

(** [String.prototype.match]: without [g], the result of [exec]; with
    [g], the matched substrings, or null when there is none.  [None] is
    null. *)
Definition match_ (s : jsstring) (R : RegExp) : option (list (option jsstring)) :=
  if global R
  then match matches (S (length s)) R O s with
       | [] => None
       | l => Some (map (fun e => Some (matched e)) l)
       end
  else array <$> exec R s.

(** [String.prototype.replace] with a global regexp and a replacement
    text free of [$]: every match is replaced. *)
Fixpoint replaceFrom (fuel : nat) (R : RegExp) (by_ : jsstring)
    (i : nat) (s : jsstring) : jsstring :=
  match fuel with
  | O => s
  | S fuel' =>
      match search R i s with
      | None => s
      | Some e =>
          take (index e - i) s ++ by_ ++
          match advance e with
          | None => []
          | Some (j, skipped, t) => skipped ++ replaceFrom fuel' R by_ j t
          end
      end
  end.

Definition replace (s : jsstring) (R : RegExp) (by_ : jsstring) : jsstring :=
  replaceFrom (S (length s)) R by_ O s.

End RegExp.


(** ** decodeURIComponent *)

Module URI.

Definition hexValue (c : N) : option N :=
  if JsString.isDigit c then Some (c - 48)
  else if (65 <=? c) && (c <=? 70) then Some (c - 55)
  else if (97 <=? c) && (c <=? 102) then Some (c - 87)
  else None.

(** The octet of an escape [%XY] at the head of the string, and what
    follows it. *)
Definition readEscape (s : jsstring) : option (N * jsstring) :=
  match s with
  | p :: h1 :: h2 :: t =>
      if p =? 37
      then match hexValue h1, hexValue h2 with
           | Some a, Some b => Some (16 * a + b, t)
           | _, _ => None
           end
      else None
  | _ => None
  end.

(** [n] escapes in a row. *)
Fixpoint readEscapes (n : nat) (s : jsstring) : option (list N * jsstring) :=
  match n with
  | O => Some ([], s)
  | S n' =>
      match readEscape s with
      | Some (b, t) =>
          match readEscapes n' t with
          | Some (bs, t') => Some (b :: bs, t')
          | None => None
          end
      | None => None
      end
  end.

(** The number of leading 1 bits of an octet, 5 standing for five or
    more. *)
Definition leadingOnes (b : N) : nat :=
  if b <? 128 then 0%nat
  else if b <? 192 then 1%nat
  else if b <? 224 then 2%nat
  else if b <? 240 then 3%nat
  else if b <? 248 then 4%nat
  else 5%nat.

Definition isContinuation (b : N) : bool := (128 <=? b) && (b <? 192).

(** The code point of a well-formed UTF-8 sequence: continuation
    octets of the form 10xxxxxx, shortest form, no surrogate, at most
    U+10FFFF. *)
Definition utf8CodePoint (octets : list N) : option N :=
  match octets with
  | [b0; b1] =>
      let v := (b0 - 192) * 64 + (b1 - 128) in
      if isContinuation b1 && (128 <=? v) then Some v else None
  | [b0; b1; b2] =>
      let v := (b0 - 224) * 4096 + (b1 - 128) * 64 + (b2 - 128) in
      if isContinuation b1 && isContinuation b2 && (2048 <=? v)
         && negb ((55296 <=? v) && (v <=? 57343))
      then Some v else None
  | [b0; b1; b2; b3] =>
      let v := (b0 - 240) * 262144 + (b1 - 128) * 4096
               + (b2 - 128) * 64 + (b3 - 128) in
      if isContinuation b1 && isContinuation b2 && isContinuation b3
         && (65536 <=? v) && (v <=? 1114111)
      then Some v else None
  | _ => None
  end.

Definition UTF16EncodeCodePoint (v : N) : jsstring :=
  if v <? 65536 then [v]
  else [55296 + (v - 65536) / 1024; 56320 + (v - 65536) mod 1024].

(** The abstract operation Decode with an empty reserved set; [None]
    is a thrown URIError.  [fuel] bounds the number of steps and the
    length of the string is enough. *)
Fixpoint Decode (fuel : nat) (s : jsstring) : option jsstring :=
  match s with
  | [] => Some []
  | c :: t =>
      match fuel with
      | O => None
      | S fuel' =>
          if c =? 37
          then match readEscape s with
               | None => None
               | Some (b, t1) =>
                   match leadingOnes b with
                   | O => (b ::.) <$> Decode fuel' t1
                   | 1%nat => None
                   | S n =>
                       if (4 <=? n)%nat then None
                       else match readEscapes n t1 with
                            | None => None
                            | Some (octets, t2) =>
                                match utf8CodePoint (b :: octets) with
                                | None => None
                                | Some v =>
                                    (UTF16EncodeCodePoint v ++.)
                                      <$> Decode fuel' t2
                                end
                            end
                   end
               end
          else (c ::.) <$> Decode fuel' t
      end
  end.

End URI.

(** ** Values, errors and effects *)

Inductive error := URIError | TypeError | AssertionError.

Inductive completion (A : Type) :=
| Normal (a : A)
| Throw (e : error).
Arguments Normal {A} a.
Arguments Throw {A} e.

(** Constructor functions, by identity. *)
Inductive klass :=
| KObject                 (* Object *)
| KSafeUrl                (* goog.html.SafeUrl *)
| KOther (n : N).         (* any other function *)

Global Instance klass_eq_dec : EqDecision klass.
Proof. solve_decision. Defined.

(** An ordinary object, by what the two files can observe of it.  The
    methods are recorded by the string they return;
    [getTypedStringValue] is [None] for an object without that method.
    [prototypes] lists the functions [F] whose [F.prototype] is on the
    prototype chain, the nearest first; [constructor_] is what the
    property [constructor] reads, inherited or not. *)
Record object := {
  identity : N;                         (* what [===] compares *)
  prototypes : list klass;              (* F with F.prototype on the chain *)
  constructor_ : klass;                 (* the property [constructor] *)
  privateDoNotAccessOrElseSafeUrlWrappedValue_ : jsstring;
  implementsGoogStringTypedString : bool;
  getTypedStringValue : option jsstring;
  toString_ : jsstring
}.

(** The values: the primitive ones, the ordinary objects, and two
    kinds of values that have no implicit conversion to a string, a
    Symbol and an object without prototype or properties, as
    [Object.create(null)] makes them. *)
Inductive value :=
| VUndefined
| VNull
| VBoolean (b : bool)
| VString (s : jsstring)
| VObject (o : object)
| VSymbol (id : N) (description : jsstring)
| VBare (id : N).

(** The global environment: the build flag of the assertion library, the
    next fresh object identity, and the assertion failures reported so
    far, latest first. *)
Record realm := {
  ENABLE_ASSERTS : bool;
  nextIdentity : N;
  diagnostics : list jsstring
}.

Definition M (A : Type) : Type := realm -> completion A * realm.

Global Instance M_ret : MRet M := fun A a st => (Normal a, st).
Global Instance M_bind : MBind M := fun A B f c st =>
  match c st with
  | (Normal a, st') => f a st'
  | (Throw e, st') => (Throw e, st')
  end.

Global Instance M_fmap : FMap M := fun A B f c st =>
  match c st with
  | (Normal a, st') => (Normal (f a), st')
  | (Throw e, st') => (Throw e, st')
  end.

Definition throw {A} (e : error) : M A := fun st => (Throw e, st).

(** [try { c } catch (error) { h }] *)
Definition try_catch {A} (c : M A) (h : M A) : M A := fun st =>
  match c st with
  | (Normal a, st') => (Normal a, st')
  | (Throw _, st') => h st'
  end.

Definition lift {A} (c : completion A) : M A := fun st => (c, st).

Module Js.

Definition typeof (v : value) : jsstring :=
  match v with
  | VUndefined => str "undefined"
  | VNull | VObject _ | VBare _ => str "object"
  | VBoolean _ => str "boolean"
  | VString _ => str "string"
  | VSymbol _ _ => str "symbol"
  end.

(** The string of a value that has one: the result of [String(v)].  A
    Symbol is described; an object without prototype has no string, and
    the empty string stands for it here only. *)
Definition String_ (v : value) : jsstring :=
  match v with
  | VUndefined => str "undefined"
  | VNull => str "null"
  | VBoolean true => str "true"
  | VBoolean false => str "false"
  | VString s => s
  | VObject o => toString_ o
  | VSymbol _ description => str "Symbol(" ++ description ++ str ")"
  | VBare _ => []
  end.

(** [String(v)], the explicit conversion: it throws a TypeError on an
    object without [toString] and [valueOf]. *)
Definition ToString (v : value) : completion jsstring :=
  match v with
  | VBare _ => Throw TypeError
  | _ => Normal (String_ v)
  end.

(** The conversion of [v] as an operand of [+] with a string: it throws
    a TypeError on a Symbol as well. *)
Definition ToStringInConcatenation (v : value) : completion jsstring :=
  match v with
  | VSymbol _ _ | VBare _ => Throw TypeError
  | _ => Normal (String_ v)
  end.

(** [a === b] *)
Definition strictEquals (a b : value) : bool :=
  match a, b with
  | VUndefined, VUndefined | VNull, VNull => true
  | VBoolean x, VBoolean y => Bool.eqb x y
  | VString s, VString t => JsString.eqb s t
  | VObject o, VObject p => identity o =? identity p
  | VSymbol i _, VSymbol j _ => i =? j
  | VBare i, VBare j => i =? j
  | _, _ => false
  end.

(** [v instanceof F] *)
Definition instanceof (v : value) (F : klass) : bool :=
  match v with
  | VObject o => bool_decide (F ∈ prototypes o)
  | _ => false
  end.

(** [Array.prototype.indexOf] on an array of strings; the element
    looked for may be undefined ([None]), which equals no string. *)
Fixpoint Array_indexOf (l : list jsstring) (x : option jsstring) : option nat :=
  match l with
  | [] => None
  | s :: t =>
      if strictEquals (VString s) (from_option VString VUndefined x)
      then Some O
      else S <$> Array_indexOf t x
  end.

Definition decodeURIComponent (s : jsstring) : completion jsstring :=
  match URI.Decode (length s) s with
  | Some r => Normal r
  | None => Throw URIError
  end.

(** A fresh plain object [{}]. *)
Definition plainObject (id : N) : object :=
  {| identity := id; prototypes := [KObject]; constructor_ := KObject;
     privateDoNotAccessOrElseSafeUrlWrappedValue_ := [];
     implementsGoogStringTypedString := false;
     getTypedStringValue := None;
     toString_ := str "[object Object]" |}.

End Js.

(** ** Collaborators of goog.html.SafeUrl *)

Module goog_asserts.

(** [goog.asserts.ENABLE_ASSERTS] *)
Definition enabled : M bool := fun st => (Normal (ENABLE_ASSERTS st), st).

Definition report (message : jsstring) : M unit := fun st =>
  (Normal (),
   {| ENABLE_ASSERTS := ENABLE_ASSERTS st; nextIdentity := nextIdentity st;
      diagnostics := message :: diagnostics st |}).

(** Modelled from the spec: goog.asserts.fail, of the assertion library,
    which is not among the sources.  A failure is reported; it is fatal
    in debug-enabled builds and a non-fatal diagnostic otherwise. *)
Definition fail (message : jsstring) : M unit :=
  report message ≫= fun _ =>
  enabled ≫= fun b => if b : bool then throw AssertionError else mret ().

(** Modelled from the spec: goog.asserts.assert, of the same library.
    [assert(condition, message) -> bool]: a failed condition is reported
    as a diagnostic only, the call does not abort, and the condition is
    the result. *)
Definition assert (condition : bool) (message : jsstring) : M bool :=
  if condition then mret true else report message ≫= fun _ => mret false.

End goog_asserts.

Module goog_string.

(** Modelled from the spec: goog.string.Const, the wrapper of
    compile-time constant strings, trusted by construction and consumed
    only through its own unwrap. *)
Record Const := { stringConstValueWithSecurityContract_ : jsstring }.

Definition Const_unwrap (c : Const) : jsstring :=
  stringConstValueWithSecurityContract_ c.

(** Modelled from the spec: goog.string.internal.caseInsensitiveStartsWith:
    [prefix] is a case-insensitive prefix of [s]. *)
Definition caseInsensitiveStartsWith (s prefix : jsstring) : bool :=
  JsString.eqb (JsString.toLowerCase prefix)
               (JsString.toLowerCase (take (length prefix) s)).

(** A reduced goog.typeOf, used in a diagnostic text only. *)
Definition typeOf (v : value) : jsstring :=
  match v with
  | VNull => str "null"
  | _ => Js.typeof v
  end.

End goog_string.

(** ** goog.html.SafeUrl *)

Module SafeUrl.
Import RegExp.

Definition Seqs (l : list Pattern) : Pattern := foldr Seq Empty l.

(** [s1|s2|...] over literals *)
Fixpoint Alts (l : list string) : Pattern :=
  match l with
  | [] => Empty
  | [s] => Lit s
  | s :: t => Alt (Lit s) (Alts t)
  end.

Definition chars (s : string) : list ClassAtom :=
  map (fun a => CChar (ch a)) (list_ascii_of_string s).

Definition a_z : ClassAtom := CRange (ch "a") (ch "z").
Definition A_Z : ClassAtom := CRange (ch "A") (ch "Z").
Definition d0_9 : ClassAtom := CRange (ch "0") (ch "9").
Definition a_f : ClassAtom := CRange (ch "a") (ch "f").

Definition CONSTRUCTOR_TOKEN_PRIVATE_ : object := Js.plainObject 0.

Definition INNOCUOUS_STRING : jsstring := str "about:invalid#zClosurez".

(** [getTypedStringValue] and [toString] of the prototype; the wrapped
    value is a string, its own [toString()]. *)
Definition prototype_getTypedStringValue (this : object) : jsstring :=
  privateDoNotAccessOrElseSafeUrlWrappedValue_ this.

Definition prototype_toString (this : object) : jsstring :=
  privateDoNotAccessOrElseSafeUrlWrappedValue_ this.

(** The object that [new goog.html.SafeUrl(value, token)] initialises,
    at identity [id]; its methods are those of the prototype and return
    the wrapped value. *)
Definition construct (id : N) (value_ : jsstring) (token : value) : object :=
  let wrapped :=
    if Js.strictEquals token (VObject CONSTRUCTOR_TOKEN_PRIVATE_)
    then value_ else [] in
  {| identity := id; prototypes := [KSafeUrl; KObject];
     constructor_ := KSafeUrl;
     privateDoNotAccessOrElseSafeUrlWrappedValue_ := wrapped;
     implementsGoogStringTypedString := true;
     getTypedStringValue := Some wrapped;
     toString_ := wrapped |}.

Definition new (value_ : jsstring) (token : value) : M object := fun st =>
  (Normal (construct (nextIdentity st) value_ token),
   {| ENABLE_ASSERTS := ENABLE_ASSERTS st;
      nextIdentity := N.succ (nextIdentity st);
      diagnostics := diagnostics st |}).

Definition createSafeUrlSecurityPrivateDoNotAccessOrElse (url : jsstring)
    : M object :=
  new url (VObject CONSTRUCTOR_TOKEN_PRIVATE_).

(** The two constants are created when the file is loaded, after the
    token. *)
Definition INNOCUOUS_URL : object :=
  construct 1 INNOCUOUS_STRING (VObject CONSTRUCTOR_TOKEN_PRIVATE_).

Definition ABOUT_BLANK : object :=
  construct 2 (str "about:blank") (VObject CONSTRUCTOR_TOKEN_PRIVATE_).

Definition unwrap (safeUrl : value) : M jsstring :=
  let otherwise :=
    lift (Js.ToStringInConcatenation safeUrl) ≫= fun shown =>
    goog_asserts.fail
      (str "expected object of type SafeUrl, got '" ++ shown
       ++ str "' of type " ++ goog_string.typeOf safeUrl) ≫= fun _ =>
    mret (str "type_error:SafeUrl") in
  match safeUrl with
  | VObject o =>
      if Js.instanceof safeUrl KSafeUrl
         && bool_decide (constructor_ o = KSafeUrl)
      then mret (privateDoNotAccessOrElseSafeUrlWrappedValue_ o)
      else otherwise
  | _ => otherwise
  end.

Definition fromConstant (url : goog_string.Const) : M object :=
  createSafeUrlSecurityPrivateDoNotAccessOrElse (goog_string.Const_unwrap url).

Definition SAFE_MIME_TYPE_PATTERN_ : RegExp :=
  {| source :=
       Seqs [AssertStart;
             Alt (Seq (Lit "audio/")
                      (Alts ["3gpp2"; "3gpp"; "aac"; "L16"; "midi"; "mp3";
                             "mp4"; "mpeg"; "oga"; "ogg"; "opus"; "x-m4a";
                             "x-matroska"; "x-wav"; "wav"; "webm"]%string))
            (Alt (Seq (Lit "font/") (Plus (Class false [CWord])))
            (Alt (Seq (Lit "image/")
                      (Alts ["bmp"; "gif"; "jpeg"; "jpg"; "png"; "tiff";
                             "webp"; "x-icon"]%string))
                 (Seq (Lit "video/")
                      (Alts ["mpeg"; "mp4"; "ogg"; "webm"; "quicktime";
                             "x-matroska"]%string))));
             Star (Seqs [Char (ch ";"); Plus (Class false [CWord]);
                         Char (ch "=");
                         Alt (Plus (Class false [CWord]))
                             (Seqs [Char 34;
                                    Plus (Class false (CWord :: chars ";,= "));
                                    Char 34])]);
             AssertEnd];
     nCaptures := 0; ignoreCase := true; global := false |}.

Definition isSafeMimeType (mimeType : jsstring) : bool :=
  test SAFE_MIME_TYPE_PATTERN_ mimeType.

Definition DATA_URL_PATTERN_ : RegExp :=
  {| source :=
       Seqs [AssertStart; Lit "data:"; Group 1 (Star Dot); Lit ";base64,";
             Plus (Class false (a_z :: d0_9 :: chars "+/"));
             Star (Char (ch "=")); AssertEnd];
     nCaptures := 1; ignoreCase := true; global := false |}.

(** [/(%0A|%0D)/g] *)
Definition CR_LF_PATTERN : RegExp :=
  {| source := Group 1 (Alt (Lit "%0A") (Lit "%0D"));
     nCaptures := 1; ignoreCase := false; global := true |}.

Definition tryFromDataUrl (dataUrl : value) : M (option object) :=
  lift (Js.ToString dataUrl) ≫= fun dataUrl =>
  let filteredDataUrl := replace dataUrl CR_LF_PATTERN [] in
  let match_ := match_ filteredDataUrl DATA_URL_PATTERN_ in
  match match_ with
  | Some _ =>
      Some <$> createSafeUrlSecurityPrivateDoNotAccessOrElse filteredDataUrl
  | None => mret None
  end.

(** [a || b] on a nullable object: an object is truthy. *)
Definition or_else (a : option object) (b : object) : object := default b a.

Definition fromDataUrl (dataUrl : value) : M object :=
  tryFromDataUrl dataUrl ≫= fun r => mret (or_else r INNOCUOUS_URL).

Definition fromTelUrl (telUrl : jsstring) : M object :=
  let telUrl :=
    if negb (goog_string.caseInsensitiveStartsWith telUrl (str "tel:"))
    then INNOCUOUS_STRING else telUrl in
  createSafeUrlSecurityPrivateDoNotAccessOrElse telUrl.

Definition SIP_URL_PATTERN_ : RegExp :=
  {| source :=
       Seqs [AssertStart; Lit "sip"; Opt (Class false (chars "s"));
             Char (ch ":");
             Plus (Class false
                     (CChar (ch "+") :: a_z :: d0_9
                      :: chars "_.!$%&'*/=^`{|}~-"));
             Char (ch "@");
             Plus (Group 1 (Seq (Plus (Class false [a_z; d0_9; CChar (ch "-")]))
                                (Char (ch "."))));
             Repeat 2 (Some 63%nat) (Class false [a_z; d0_9]);
             AssertEnd];
     nCaptures := 1; ignoreCase := true; global := false |}.

Definition fromSipUrl (sipUrl : jsstring) : M object :=
  lift (Js.decodeURIComponent sipUrl) ≫= fun decoded =>
  let sipUrl :=
    if negb (test SIP_URL_PATTERN_ decoded)
    then INNOCUOUS_STRING else sipUrl in
  createSafeUrlSecurityPrivateDoNotAccessOrElse sipUrl.

Definition fromFacebookMessengerUrl (facebookMessengerUrl : jsstring)
    : M object :=
  let facebookMessengerUrl :=
    if negb (goog_string.caseInsensitiveStartsWith
               facebookMessengerUrl (str "fb-messenger://share"))
    then INNOCUOUS_STRING else facebookMessengerUrl in
  createSafeUrlSecurityPrivateDoNotAccessOrElse facebookMessengerUrl.

Definition fromWhatsAppUrl (whatsAppUrl : jsstring) : M object :=
  let whatsAppUrl :=
    if negb (goog_string.caseInsensitiveStartsWith
               whatsAppUrl (str "whatsapp://send"))
    then INNOCUOUS_STRING else whatsAppUrl in
  createSafeUrlSecurityPrivateDoNotAccessOrElse whatsAppUrl.

(** The first literal of [isSmsUrlBodyValid_]: [?&], then body=; flags g
    and i. *)
Definition BODY_PARAMS_PATTERN : RegExp :=
  {| source := Seq (Class false (chars "?&")) (Lit "body=");
     nCaptures := 0; ignoreCase := true; global := true |}.

(** The second literal of [isSmsUrlBodyValid_]: [?&], then body=, then a
    group of any number of units other than &; no flag. *)
Definition BODY_VALUE_PATTERN : RegExp :=
  {| source := Seqs [Class false (chars "?&"); Lit "body=";
                     Group 1 (Star (Class true (chars "&")))];
     nCaptures := 1; ignoreCase := false; global := false |}.

(** The last literal of [isSmsUrlBodyValid_]: from start to end, one or
    more of: a unit of [a-z0-9\-_.~], or % and two of [0-9a-f]; flag i. *)
Definition BODY_CHARSET_PATTERN : RegExp :=
  {| source :=
       Seqs [AssertStart;
             Plus (Alt (Class false (a_z :: d0_9 :: chars "-_.~"))
                       (Seq (Char (ch "%"))
                            (Repeat 2 (Some 2%nat) (Class false [d0_9; a_f]))));
             AssertEnd];
     nCaptures := 0; ignoreCase := true; global := false |}.

Definition isSmsUrlBodyValid_ (smsUrl : jsstring) : M bool :=
  let hash := JsString.indexOf smsUrl (ch "#") in
  let smsUrl :=
    match hash with
    | Some h => if (0 <? h)%nat then JsString.substring smsUrl 0 h else smsUrl
    | None => smsUrl
    end in
  let bodyParams := match_ smsUrl BODY_PARAMS_PATTERN in
  match bodyParams with
  | None => mret true
  | Some params =>
      if (1 <? length params)%nat then mret false
      else
        match match_ smsUrl BODY_VALUE_PATTERN with
        | None => throw TypeError          (* [1] of null *)
        | Some groups =>
            let bodyValue := default None (groups !! 1%nat) in
            match bodyValue with
            | None | Some [] => mret true
            | Some bodyValue =>
                try_catch
                  (lift (Js.decodeURIComponent bodyValue) ≫= fun _ =>
                   mret (test BODY_CHARSET_PATTERN bodyValue))
                  (mret false)
            end
        end
  end.

Definition fromSmsUrl (smsUrl : jsstring) : M object :=
  (if negb (goog_string.caseInsensitiveStartsWith smsUrl (str "sms:"))
   then mret true
   else negb <$> isSmsUrlBodyValid_ smsUrl) ≫= fun invalid =>
  let smsUrl := if invalid : bool then INNOCUOUS_STRING else smsUrl in
  createSafeUrlSecurityPrivateDoNotAccessOrElse smsUrl.

Definition fromSshUrl (sshUrl : jsstring) : M object :=
  let sshUrl :=
    if negb (goog_string.caseInsensitiveStartsWith sshUrl (str "ssh://"))
    then INNOCUOUS_STRING else sshUrl in
  createSafeUrlSecurityPrivateDoNotAccessOrElse sshUrl.

(** The argument [extensionId]: one constant or an array of them. *)
Inductive ExtensionId :=
| OneConst (c : goog_string.Const)
| ConstArray (l : list goog_string.Const).

Definition sanitizeExtensionUrl_ (scheme : RegExp) (url : jsstring)
    (extensionId : ExtensionId) : M object :=
  let matches := exec scheme url in
  let url :=
    match matches with
    | None => INNOCUOUS_STRING
    | Some e =>
        let extractedExtensionId := default None (array e !! 1%nat) in
        let acceptedExtensionIds :=
          match extensionId with
          | OneConst c => [goog_string.Const_unwrap c]
          | ConstArray l => map goog_string.Const_unwrap l
          end in
        match Js.Array_indexOf acceptedExtensionIds extractedExtensionId with
        | None => INNOCUOUS_STRING
        | Some _ => url
        end
    end in
  createSafeUrlSecurityPrivateDoNotAccessOrElse url.

(** The literals of the three extension sanitizers: the scheme at the
    start, ://, a group of one or more units other than /, then /. *)
Definition extensionScheme (scheme : string) : RegExp :=
  {| source := Seqs [AssertStart; Lit scheme; Lit "://";
                     Group 1 (Plus (Class true (chars "/")));
                     Char (ch "/")];
     nCaptures := 1; ignoreCase := false; global := false |}.

Definition sanitizeChromeExtensionUrl (url : jsstring)
    (extensionId : ExtensionId) : M object :=
  sanitizeExtensionUrl_ (extensionScheme "chrome-extension") url extensionId.

Definition sanitizeFirefoxExtensionUrl (url : jsstring)
    (extensionId : ExtensionId) : M object :=
  sanitizeExtensionUrl_ (extensionScheme "moz-extension") url extensionId.

Definition sanitizeEdgeExtensionUrl (url : jsstring)
    (extensionId : ExtensionId) : M object :=
  sanitizeExtensionUrl_ (extensionScheme "ms-browser-extension") url
                        extensionId.

Definition SAFE_URL_PATTERN_ : RegExp :=
  {| source :=
       Seq AssertStart
           (Alt (Seq (Alt (Seq (Lit "http") (Opt (Char (ch "s"))))
                          (Alt (Lit "mailto") (Lit "ftp")))
                     (Char (ch ":")))
                (Seq (Star (Class true (chars ":/?#")))
                     (Alt (Class false (chars "/?#")) AssertEnd)));
     nCaptures := 0; ignoreCase := true; global := false |}.

Definition SAFE_URL_PATTERN : RegExp := SAFE_URL_PATTERN_.

(** The string of the argument [url], lines 697-702 and 750-754:
    [typeof url == 'object' && url.implementsGoogStringTypedString]
    reads a property, which throws on null. *)
Definition stringOfUrl (url : value) : M jsstring :=
  match url with
  | VNull => throw TypeError
  | VObject o =>
      if implementsGoogStringTypedString o
      then match getTypedStringValue o with
           | Some s => mret s
           | None => throw TypeError       (* not a function *)
           end
      else lift (Js.ToString url)
  | _ => lift (Js.ToString url)
  end.

Definition trySanitize (url : value) : M (option object) :=
  let otherwise :=
    stringOfUrl url ≫= fun url =>
    if negb (test SAFE_URL_PATTERN_ url) then tryFromDataUrl (VString url)
    else Some <$> createSafeUrlSecurityPrivateDoNotAccessOrElse url in
  match url with
  | VObject o => if Js.instanceof url KSafeUrl then mret (Some o) else otherwise
  | _ => otherwise
  end.

Definition sanitize (url : value) : M object :=
  trySanitize url ≫= fun r => mret (or_else r INNOCUOUS_URL).

(** [/^data:/i] *)
Definition DATA_PREFIX_PATTERN : RegExp :=
  {| source := Seq AssertStart (Lit "data:");
     nCaptures := 0; ignoreCase := true; global := false |}.

Definition sanitizeAssertUnchanged (url : value) (opt_allowDataUrl : bool)
    : M object :=
  let otherwise :=
    stringOfUrl url ≫= fun url =>
    (if opt_allowDataUrl && test DATA_PREFIX_PATTERN url
     then fromDataUrl (VString url) ≫= fun safeUrl =>
          mret (if JsString.eqb (prototype_getTypedStringValue safeUrl) url
                then Some safeUrl else None)
     else mret None) ≫= fun returned =>
    match returned with
    | Some safeUrl => mret safeUrl
    | None =>
        goog_asserts.assert
          (test SAFE_URL_PATTERN_ url)
          (url ++ str " does not match the safe URL pattern") ≫= fun ok =>
        let url := if negb ok then INNOCUOUS_STRING else url in
        createSafeUrlSecurityPrivateDoNotAccessOrElse url
    end in
  match url with
  | VObject o => if Js.instanceof url KSafeUrl then mret o else otherwise
  | _ => otherwise
  end.

End SafeUrl.

(** ** goog.structs.StringSet *)

Module StringSet.

(** The property names of [Object.prototype], none of them enumerable;
    the file assumes that no key is added to it. *)
Definition OBJECT_PROTOTYPE_KEYS : list jsstring :=
  map str ["constructor"; "hasOwnProperty"; "isPrototypeOf";
           "propertyIsEnumerable"; "toLocaleString"; "toString"; "valueOf";
           "__proto__"; "__defineGetter__"; "__defineSetter__";
           "__lookupGetter__"; "__lookupSetter__"]%string.

(** An object created by [{}] and used as a table: its own properties,
    and whether its prototype is still [Object.prototype]. *)
Record table := {
  properties : gmap (list N) value;
  inheritsObjectPrototype : bool
}.

(** [{}] *)
Definition emptyTable : table :=
  {| properties := ∅; inheritsObjectPrototype := true |}.

(** [key in o] *)
Definition in_ (key : jsstring) (o : table) : bool :=
  bool_decide (is_Some (properties o !! key))
  || (inheritsObjectPrototype o && bool_decide (key ∈ OBJECT_PROTOTYPE_KEYS)).

(** [o[key] = null]: on the key [__proto__] of an object that inherits
    the accessor this sets the prototype and adds no property. *)
Definition assignNull (key : jsstring) (o : table) : table :=
  if inheritsObjectPrototype o && JsString.eqb key (str "__proto__")
  then {| properties := properties o; inheritsObjectPrototype := false |}
  else {| properties := <[key := VNull]> (properties o);
          inheritsObjectPrototype := inheritsObjectPrototype o |}.

(** [delete o[key]] *)
Definition deleteKey (key : jsstring) (o : table) : table :=
  {| properties := delete key (properties o);
     inheritsObjectPrototype := inheritsObjectPrototype o |}.

(** [Object.keys(o)]: the own enumerable keys; their order is left
    open. *)
Definition Object_keys (o : table) : list jsstring :=
  (map_to_list (properties o)).*1.

Record StringSet := { elements_ : table }.

Definition EMPTY_OBJECT_ : table := emptyTable.

Definition encode_ (element : jsstring) : jsstring :=
  if in_ element EMPTY_OBJECT_
     || bool_decide (JsString.charCodeAt element 0 = Some 32)
  then 32 :: element
  else element.

Definition decode_ (key : jsstring) : jsstring :=
  if bool_decide (JsString.charCodeAt key 0 = Some 32)
  then JsString.substr key 1
  else key.

Definition add (this : StringSet) (element : jsstring) : StringSet :=
  {| elements_ := assignNull (encode_ element) (elements_ this) |}.

Definition addArray (this : StringSet) (arr : list jsstring) : StringSet :=
  foldl (fun this element =>
           {| elements_ := assignNull (encode_ element) (elements_ this) |})
        this arr.

(** [new goog.structs.StringSet(opt_elements)]; the closing loop over
    the enumerable keys of [Object.prototype] finds none. *)
Definition new (opt_elements : list jsstring) : StringSet :=
  foldl (fun this element =>
           {| elements_ := assignNull (encode_ element) (elements_ this) |})
        {| elements_ := emptyTable |} opt_elements.

Definition clear (this : StringSet) : StringSet :=
  {| elements_ := emptyTable |}.

Definition contains (this : StringSet) (element : jsstring) : bool :=
  in_ (encode_ element) (elements_ this).

Definition has (this : StringSet) (element : jsstring) : bool :=
  contains this element.

Definition getCount (this : StringSet) : nat :=
  length (Object_keys (elements_ this)).

Definition values (this : StringSet) : list jsstring :=
  map decode_ (Object_keys (elements_ this)).

Definition getValues (this : StringSet) : list jsstring := values this.

(** [delete(element)]: the set afterwards and the result. *)
Definition delete_ (this : StringSet) (element : jsstring)
    : StringSet * bool :=
  let key := encode_ element in
  if in_ key (elements_ this)
  then ({| elements_ := deleteKey key (elements_ this) |}, true)
  else (this, false).

Definition remove (this : StringSet) (element : jsstring)
    : StringSet * bool :=
  delete_ this element.

(** *** The operations on two sets

    [for (var key in o)] visits the enumerable keys of [o]: its own
    ones, [Object.prototype] having none, in the order of
    [Object.keys]. *)

(** A loop whose body returns [false] when [stop] holds, followed by
    [return true]. *)
Fixpoint falseAtFirst {A} (stop : A -> bool) (l : list A) : bool :=
  match l with
  | [] => true
  | a :: l' => if stop a then false else falseAtFirst stop l'
  end.

Definition addDifference_ (this set1 set2 : StringSet) : StringSet :=
  foldl (fun this key =>
           if negb (in_ key (elements_ set2))
           then {| elements_ := assignNull key (elements_ this) |}
           else this)
        this (Object_keys (elements_ set1)).

Definition addSet (this stringSet : StringSet) : StringSet :=
  foldl (fun this key => {| elements_ := assignNull key (elements_ this) |})
        this (Object_keys (elements_ stringSet)).

Definition clone (this : StringSet) : StringSet :=
  let ret := new [] in
  addSet ret this.

Definition containsArray (this : StringSet) (arr : list jsstring) : bool :=
  falseAtFirst (fun element => negb (in_ (encode_ element) (elements_ this)))
               arr.

Definition isSubsetOf (this stringSet : StringSet) : bool :=
  falseAtFirst (fun key => negb (in_ key (elements_ stringSet)))
               (Object_keys (elements_ this)).

Definition isSupersetOf (this stringSet : StringSet) : bool :=
  isSubsetOf stringSet this.

Definition equals (this stringSet : StringSet) : bool :=
  isSubsetOf this stringSet && isSubsetOf stringSet this.

Definition isDisjoint (this stringSet : StringSet) : bool :=
  falseAtFirst (fun key => in_ key (elements_ stringSet))
               (Object_keys (elements_ this)).

Definition isEmpty (this : StringSet) : bool :=
  falseAtFirst (fun _ => true) (Object_keys (elements_ this)).

Definition getDifference (this stringSet : StringSet) : StringSet :=
  let ret := new [] in
  addDifference_ ret this stringSet.

Definition getIntersection (this stringSet : StringSet) : StringSet :=
  let ret := new [] in
  foldl (fun ret key =>
           if in_ key (elements_ stringSet)
           then {| elements_ := assignNull key (elements_ ret) |}
           else ret)
        ret (Object_keys (elements_ this)).

Definition getSymmetricDifference (this stringSet : StringSet) : StringSet :=
  let ret := new [] in
  let ret := addDifference_ ret this stringSet in
  addDifference_ ret stringSet this.

Definition getUnion (this stringSet : StringSet) : StringSet :=
  let ret := clone this in
  addSet ret stringSet.

Definition removeArray (this : StringSet) (arr : list jsstring) : StringSet :=
  foldl (fun this element =>
           {| elements_ := deleteKey (encode_ element) (elements_ this) |})
        this arr.

Definition removeSet (this stringSet : StringSet) : StringSet :=
  foldl (fun this key => {| elements_ := deleteKey key (elements_ this) |})
        this (Object_keys (elements_ stringSet)).

End StringSet.

(** ** Reading the patterns

    Functions and predicates in which the behaviour of the matcher on the
    patterns of [goog.html.SafeUrl] is stated. *)

Module Grammar.
Import RegExp.

(** The length of the longest prefix whose units all satisfy [p]. *)
Fixpoint span (p : N -> bool) (s : jsstring) : nat :=
  match s with
  | u :: t => if p u then S (span p t) else O
  | [] => O
  end.

(** [s] starts with the units [l], up to [Canonicalize]. *)
Fixpoint litPrefix (ic : bool) (l : list N) (s : jsstring) : bool :=
  match l, s with
  | [], _ => true
  | d :: l', u :: s' =>
      (Canonicalize ic u =? Canonicalize ic d) && litPrefix ic l' s'
  | _ :: _, [] => false
  end.

Definition advanceBy (n : nat) (x : MatchState) : MatchState :=
  {| endIndex := endIndex x + n; rest := drop n (rest x);
     captures := captures x |}.

(** The states that a matcher started at [x] can hand to its
    continuation: further on in the same input, with as many capture
    slots. *)
Definition reach (x y : MatchState) : Prop :=
  ∃ k, (k ≤ length (rest x))%nat
       ∧ rest y = drop k (rest x)
       ∧ endIndex y = (endIndex x + k)%nat
       ∧ length (captures y) = length (captures x).

(** A matcher is determined by its continuation on the states ahead. *)
Definition Local (mr : Matcher) : Prop :=
  ∀ c c' x, (∀ y, reach x y → c y = c' y) → mr c x = mr c' x.

(** What a matcher returns, its continuation returned on a state ahead. *)
Definition Forward (mr : Matcher) : Prop :=
  ∀ c x z, mr c x = Some z → ∃ y, reach x y ∧ c y = Some z.

(** The upper bound of a quantifier is exhausted. *)
Definition exhausted (max : option nat) : bool :=
  match max with Some O => true | _ => false end.

(** One round of RepeatMatcher, [k] standing for the rounds that follow
    one more iteration. *)
Definition repeatStep (mr : Matcher) (gs : list nat) (c k : Continuation)
    (min : nat) (max : option nat) (x : MatchState) : MatchResult :=
  if exhausted max then c x
  else
    let d := fun y =>
      if (min =? 0)%nat && (endIndex y =? endIndex x)%nat then None else k y in
    if (min =? 0)%nat
    then match mr d (clearCaptures gs x) with
         | Some z => Some z
         | None => c x
         end
    else mr d (clearCaptures gs x).

(** Fuel that is enough for RepeatMatcher at state [x]. *)
Definition enough (fuel min : nat) (max : option nat) (x : MatchState) : Prop :=
  match max with
  | Some n => (n ≤ fuel)%nat
  | None => (min + length (rest x) < fuel)%nat
  end.

(** The language of a pattern: [Sem ic r i s n] when [r] matches the
    first [n] units of [s], the input from index [i] on.  An iteration of
    a quantifier beyond the required ones must consume input, as in
    RepeatMatcher. *)
Inductive Sem (ic : bool) : Pattern → nat → jsstring → nat → Prop :=
| Sem_Empty i s : Sem ic Empty i s 0
| Sem_Char d i u t :
    Canonicalize ic u = Canonicalize ic d → Sem ic (Char d) i (u :: t) 1
| Sem_Dot i u t :
    isLineTerminator u = false → Sem ic Dot i (u :: t) 1
| Sem_Class invert atoms i u t :
    xorb invert (class_mem ic atoms u) = true →
    Sem ic (Class invert atoms) i (u :: t) 1
| Sem_Seq r1 r2 i s n1 n2 :
    Sem ic r1 i s n1 → Sem ic r2 (i + n1) (drop n1 s) n2 →
    Sem ic (Seq r1 r2) i s (n1 + n2)
| Sem_AltL r1 r2 i s n : Sem ic r1 i s n → Sem ic (Alt r1 r2) i s n
| Sem_AltR r1 r2 i s n : Sem ic r2 i s n → Sem ic (Alt r1 r2) i s n
| Sem_Group k r i s n : Sem ic r i s n → Sem ic (Group k r) i s n
| Sem_Start s : Sem ic AssertStart 0 s 0
| Sem_End i : Sem ic AssertEnd i [] 0
| Sem_RepeatDone min max r i s :
    exhausted max = true ∨ min = O → Sem ic (Repeat min max r) i s 0
| Sem_RepeatMore min max r i s n1 n2 :
    exhausted max = false →
    Sem ic r i s n1 → (min = O → n1 ≠ O) →
    Sem ic (Repeat (pred min) (pred <$> max) r) (i + n1) (drop n1 s) n2 →
    Sem ic (Repeat min max r) i s (n1 + n2).

(** The success of a continuation depends on the position only, among
    the states ahead of [x]. *)
Definition BlindFrom (x : MatchState) (c : Continuation) : Prop :=
  ∀ y y', reach x y → reach x y' → endIndex y = endIndex y' →
          (is_Some (c y) ↔ is_Some (c y')).

(** The matcher of [r] succeeds exactly when [r] matches some prefix
    after which the continuation succeeds. *)
Definition Correct (ic : bool) (r : Pattern) : Prop :=
  ∀ c x, BlindFrom x c →
    (is_Some (m ic r c x) ↔
     ∃ n, Sem ic r (endIndex x) (rest x) n ∧ is_Some (c (advanceBy n x))).

(** A greedy run of units satisfying [p]: the continuation is tried
    after the longest run first, then after shorter and shorter ones. *)
Fixpoint greedy (p : N -> bool) (c : Continuation) (i : nat)
    (caps : list (option jsstring)) (s : jsstring) : MatchResult :=
  match s with
  | u :: t =>
      if p u
      then match greedy p c (S i) caps t with
           | Some z => Some z
           | None => c {| endIndex := i; rest := s; captures := caps |}
           end
      else c {| endIndex := i; rest := s; captures := caps |}
  | [] => c {| endIndex := i; rest := []; captures := caps |}
  end.

(** The predicate of a pattern that consumes exactly one unit. *)
Definition unitPred (ic : bool) (r : Pattern) : option (N -> bool) :=
  match r with
  | Char d => Some (fun u => Canonicalize ic u =? Canonicalize ic d)
  | Dot => Some (fun u => negb (isLineTerminator u))
  | Class invert atoms => Some (fun u => xorb invert (class_mem ic atoms u))
  | _ => None
  end.

Definition ok (r : MatchResult) : bool :=
  match r with Some _ => true | None => false end.

(** The end of the data-URL pattern, from the body on. *)
Definition base64Tail : Pattern :=
  SafeUrl.Seqs
    [Plus (Class false (SafeUrl.a_z :: SafeUrl.d0_9 :: SafeUrl.chars "+/"));
     Star (Char (ch "=")); AssertEnd].

(** The identifier of an extension URL: [url] is the scheme, [://], a
    non-empty run of units other than [/], and a [/]; the run is the
    identifier. *)
Definition extensionIdOf (scheme : string) (url : jsstring)
    : option jsstring :=
  let prefix := str scheme ++ str "://" in
  if litPrefix false prefix url
  then let r := drop (length prefix) url in
       let n := span (fun u => negb (u =? 47)) r in
       if (0 <? n)%nat && bool_decide (r !! n = Some 47)
       then Some (take n r) else None
  else None.

(** The escapes [%0A] and [%0D], and the string without them: one pass
    from left to right, [skip] counting the units of an escape still to
    drop. *)
Definition isCrLfEscape (s : jsstring) : bool :=
  litPrefix false (str "%0A") s || litPrefix false (str "%0D") s.

Fixpoint removeCrLfEscapes (skip : nat) (s : jsstring) : jsstring :=
  match s with
  | [] => []
  | u :: t =>
      match skip with
      | S k => removeCrLfEscapes k t
      | O => if isCrLfEscape s
             then removeCrLfEscapes 2 t
             else u :: removeCrLfEscapes 0 t
      end
  end.

Definition isBase64Unit (u : N) : bool :=
  JsString.isLower u || JsString.isUpper u || JsString.isDigit u
  || (u =? 43) || (u =? 47).

(** The strings of the data-URL grammar: [data:], a MIME part free of
    line terminators, [;base64,], a non-empty body of base64 units and
    a padding of [=]; the two literals in any case. *)
Definition base64DataUrl (s : jsstring) : Prop :=
  ∃ scheme mime marker body pad,
    s = scheme ++ mime ++ marker ++ body ++ pad
    ∧ JsString.toLowerCase scheme = str "data:"
    ∧ Forall (fun u => isLineTerminator u = false) mime
    ∧ JsString.toLowerCase marker = str ";base64,"
    ∧ body ≠ []
    ∧ Forall (fun u => isBase64Unit u = true) body
    ∧ Forall (fun u => u = 61) pad.

(** The strings of the generic safe-URL grammar: one of the four
    schemes in any case, or no colon before the first of [/], [?], [#]
    and the end. *)
Definition isDelimiter (u : N) : bool :=
  (u =? 58) || (u =? 47) || (u =? 63) || (u =? 35).

Definition hasSafeScheme (s : jsstring) : bool :=
  goog_string.caseInsensitiveStartsWith s (str "http:")
  || goog_string.caseInsensitiveStartsWith s (str "https:")
  || goog_string.caseInsensitiveStartsWith s (str "mailto:")
  || goog_string.caseInsensitiveStartsWith s (str "ftp:").

Definition noEarlyColon (s : jsstring) : bool :=
  match drop (span (fun u => negb (isDelimiter u)) s) s with
  | [] => true
  | u :: _ => negb (u =? 58)
  end.

Definition safeUrlGrammar (s : jsstring) : bool :=
  hasSafeScheme s || noEarlyColon s.

(** The unwrapped entries of a whitelist of extension identifiers. *)
Definition whitelist (e : SafeUrl.ExtensionId) : list jsstring :=
  match e with
  | SafeUrl.OneConst c => [goog_string.Const_unwrap c]
  | SafeUrl.ConstArray l => map goog_string.Const_unwrap l
  end.

(** The realm after the allocation of one object. *)
Definition allocated (st : realm) : realm :=
  {| ENABLE_ASSERTS := ENABLE_ASSERTS st;
     nextIdentity := N.succ (nextIdentity st);
     diagnostics := diagnostics st |}.

(** The realm after the report of one assertion failure. *)
Definition reported (message : jsstring) (st : realm) : realm :=
  {| ENABLE_ASSERTS := ENABLE_ASSERTS st;
     nextIdentity := nextIdentity st;
     diagnostics := message :: diagnostics st |}.

(** The SafeUrl that the factory of the file creates in realm [st]. *)
Definition wrapped (s : jsstring) (st : realm) : object :=
  SafeUrl.construct (nextIdentity st) s
                    (VObject SafeUrl.CONSTRUCTOR_TOKEN_PRIVATE_).

(** [c] returns, without any report, a SafeUrl which [SafeUrl.unwrap]
    unwraps to [s], without any report either. *)
Definition unwrapsTo (c : M object) (s : jsstring) : Prop :=
  ∀ st, ∃ st',
    (c ≫= fun u => SafeUrl.unwrap (VObject u)) st = (Normal s, st')
    ∧ diagnostics st' = diagnostics st.

(** The declared MIME type of a data URL, the first group of the
    data-URL pattern, and the data URLs whose declared type is on the
    allow-list of MIME types. *)
Definition mimeTypeOf (s : jsstring) : option jsstring :=
  exec SafeUrl.DATA_URL_PATTERN_ s ≫= fun e => default None (array e !! 1%nat).

Definition allowListedDataUrl (s : jsstring) : bool :=
  match mimeTypeOf (removeCrLfEscapes 0 s) with
  | Some mimeType => SafeUrl.isSafeMimeType mimeType
  | None => false
  end.

(** A value whose runtime type is exactly SafeUrl: an object whose
    prototype is [SafeUrl.prototype] itself, the first on its chain,
    and which reads the property [constructor] that it inherits from
    it.  An instance of a subclass is not such a value, whatever its
    property [constructor]. *)
Definition exactlySafeUrl (v : value) : Prop :=
  ∃ o, v = VObject o ∧ head (prototypes o) = Some KSafeUrl
       ∧ constructor_ o = KSafeUrl.




(** The private token as [===] sees it: the object of its identity. *)
Definition isPrivateToken (token : value) : Prop :=
  ∃ o, token = VObject o
       ∧ identity o = identity SafeUrl.CONSTRUCTOR_TOKEN_PRIVATE_.

(** The arguments of which [sanitize] and its variants cannot take the
    string: null, an object without [toString], and an object that
    bears the typed-string mark without the accessor. *)
Definition withoutString (url : value) : Prop :=
  url = VNull ∨ (∃ i, url = VBare i)
  ∨ ∃ o, url = VObject o ∧ implementsGoogStringTypedString o = true
         ∧ getTypedStringValue o = None.

(** The outcome [r] of a call in the realm [st]: a new object of
    exactly the SafeUrl type is returned, whose wrapped value is [s],
    and [s] is what [unwrap] returns of it; one object is allocated and
    nothing is reported. *)
Definition yields (r : completion object * realm) (s : jsstring)
    (st : realm) : Prop :=
  ∃ u, r = (Normal u, allocated st)
       ∧ identity u = nextIdentity st
       ∧ exactlySafeUrl (VObject u)
       ∧ privateDoNotAccessOrElseSafeUrlWrappedValue_ u = s
       ∧ SafeUrl.unwrap (VObject u) (allocated st) = (Normal s, allocated st).

(** The outcome [r] is a new SafeUrl wrapping [s], which [unwrap]
    returns of it, in a realm whose reports are [reports]. *)
Definition returns (r : completion object * realm) (s : jsstring)
    (reports : list jsstring) : Prop :=
  ∃ id st',
    r = (Normal (SafeUrl.construct id s
                   (VObject SafeUrl.CONSTRUCTOR_TOKEN_PRIVATE_)), st')
    ∧ diagnostics st' = reports
    ∧ privateDoNotAccessOrElseSafeUrlWrappedValue_
        (SafeUrl.construct id s (VObject SafeUrl.CONSTRUCTOR_TOKEN_PRIVATE_))
      = s
    ∧ SafeUrl.unwrap
        (VObject (SafeUrl.construct id s
                    (VObject SafeUrl.CONSTRUCTOR_TOKEN_PRIVATE_))) st'
      = (Normal s, st').

(** [url] is an extension URL of the scheme whose identifier is on the
    whitelist. *)
Definition acceptedExtensionUrl (scheme : string) (url : jsstring)
    (extensionId : SafeUrl.ExtensionId) : Prop :=
  ∃ id tail, url = str scheme ++ str "://" ++ id ++ 47 :: tail
             ∧ id ≠ [] ∧ (47 ∉ id) ∧ (id ∈ whitelist extensionId).

(** Three objects that are not exactly SafeUrls: a plain object with the
    fields of one, an instance of a subclass, and an instance of a
    subclass whose property [constructor] reads SafeUrl. *)
Definition lookAlike : object :=
  {| identity := 9; prototypes := [KObject]; constructor_ := KObject;
     privateDoNotAccessOrElseSafeUrlWrappedValue_ := str "javascript:alert(1)";
     implementsGoogStringTypedString := true;
     getTypedStringValue := Some (str "javascript:alert(1)");
     toString_ := str "javascript:alert(1)" |}.


(** An object with the mark of a typed string and nothing else. *)
Definition markedOnly : object :=
  {| identity := 13; prototypes := [KObject]; constructor_ := KObject;
     privateDoNotAccessOrElseSafeUrlWrappedValue_ := [];
     implementsGoogStringTypedString := true;
     getTypedStringValue := None;
     toString_ := str "[object Object]" |}.


(** A realm after the two files are loaded, with assertions enabled or
    not. *)
Definition loaded (debug : bool) : realm :=
  {| ENABLE_ASSERTS := debug; nextIdentity := 3; diagnostics := [] |}.

(** The units that the pattern [r] can consume. *)
Fixpoint consumes (ic : bool) (r : Pattern) (u : N) : bool :=
  match r with
  | Empty | AssertStart | AssertEnd => false
  | Char d => Canonicalize ic u =? Canonicalize ic d
  | Dot => negb (isLineTerminator u)
  | Class invert atoms => xorb invert (class_mem ic atoms u)
  | Seq r1 r2 | Alt r1 r2 => consumes ic r1 u || consumes ic r2 u
  | Repeat _ _ r1 | Group _ r1 => consumes ic r1 u
  end.

(** The patterns that end with [$]. *)
Fixpoint endAnchored (r : Pattern) : bool :=
  match r with
  | AssertEnd => true
  | Seq r1 Empty => endAnchored r1
  | Seq _ r2 => endAnchored r2
  | _ => false
  end.

(** The patterns made of ASCII literals and of classes of ASCII units
    that are not inverted. *)
Definition asciiAtom (a : ClassAtom) : bool :=
  match a with
  | CChar d => d <? 128
  | CRange _ hi => hi <? 128
  | CWord => true
  end.

Fixpoint asciiOnly (r : Pattern) : bool :=
  match r with
  | Empty | AssertStart | AssertEnd => true
  | Char d => d <? 128
  | Dot => false
  | Class invert atoms => negb invert && forallb asciiAtom atoms
  | Seq r1 r2 | Alt r1 r2 => asciiOnly r1 && asciiOnly r2
  | Repeat _ _ r1 | Group _ r1 => asciiOnly r1
  end.

(** The pattern that follows [^] in the source of [R]. *)
Definition afterStart (R : RegExp) : Pattern :=
  match source R with
  | Seq AssertStart r => r
  | r => r
  end.

(** The units of an accepted MIME type: letters, digits, the low line,
    the solidus, the hyphen, the semicolon, the equals sign, the comma,
    the quotation mark (34) and the space. *)
Definition isMimeUnit (u : N) : bool :=
  isWordChar u
  || bool_decide (u ∈ [ch "/"; ch "-"; ch ";"; ch "="; ch ","; 34; ch " "]).

(** The units of an accepted SIP address: letters, digits, and the marks
    of the pattern; neither [?] nor [#] is one. *)
Definition isSipUnit (u : N) : bool :=
  JsString.isLower u || JsString.isUpper u || JsString.isDigit u
  || bool_decide (u ∈ str ":+_.!$%&'*/=^`{|}~-@").

(** The units [?] and [&], which precede a parameter of an sms: URL,
    and the units that are neither of them nor [#]. *)
Definition isSeparator (u : N) : bool := (u =? 63) || (u =? 38).

Definition isPlainUnit (u : N) : bool := negb (isSeparator u || (u =? 35)).

(** The units of an accepted [body] value: the unreserved ones and the
    percent sign. *)
Definition isBodyUnit (u : N) : bool :=
  JsString.isLower u || JsString.isUpper u || JsString.isDigit u
  || bool_decide (u ∈ str "-_.~%").

(** The schemes of the strings that [sanitize] wraps. *)
Definition wrappedSchemes : list jsstring :=
  map str ["http"; "https"; "mailto"; "ftp"; "data"; "about"]%string.

(** The part of [s] before its fragment, as [isSmsUrlBodyValid_] cuts
    it. *)
Definition beforeFragment (s : jsstring) : jsstring :=
  match JsString.indexOf s (ch "#") with
  | Some h => if (0 <? h)%nat then JsString.substring s 0 h else s
  | None => s
  end.

End Grammar.

(** * Properties *)

(** ** The matcher on literals and on runs of one-unit patterns *)

Section MatcherFacts.
Import RegExp Grammar.
Variable ic : bool.
Local Arguments Nat.eqb : simpl never.

Lemma Lit_str (s : string) :
  Lit s = foldr (fun d r => Seq (Char d) r) Empty (str s).
Proof. unfold Lit, str. by rewrite foldr_fmap. Qed.

Lemma advanceBy_0 (x : MatchState) : advanceBy 0 x = x.
Proof.
  destruct x as [i s caps]. unfold advanceBy. simpl.
  f_equal. lia.
Qed.

Lemma m_literal (l : list N) (c : Continuation) (x : MatchState) :
  m ic (foldr (fun d r => Seq (Char d) r) Empty l) c x =
  if litPrefix ic l (rest x) then c (advanceBy (length l) x) else None.
Proof.
  revert x. induction l as [| d l IH]; intros x; simpl.
  - by rewrite advanceBy_0.
  - unfold CharacterSetMatcher. destruct x as [i s caps]. simpl.
    destruct s as [| u t]; [done |].
    destruct (Canonicalize ic u =? Canonicalize ic d); simpl; [| done].
    rewrite IH. simpl. destruct (litPrefix ic l t); [| done].
    unfold advanceBy. simpl. do 2 f_equal. lia.
Qed.

Lemma m_Lit (s : string) (c : Continuation) (x : MatchState) :
  m ic (Lit s) c x =
  if litPrefix ic (str s) (rest x)
  then c (advanceBy (length (str s)) x) else None.
Proof. rewrite Lit_str. apply m_literal. Qed.

Lemma unitPred_m (r : Pattern) (p : N → bool) (c : Continuation)
    (x : MatchState) :
  unitPred ic r = Some p → m ic r c x = CharacterSetMatcher p c x.
Proof. destruct r; simpl; intros [= <-]; reflexivity. Qed.

Lemma unitPred_groups (r : Pattern) (p : N → bool) :
  unitPred ic r = Some p → groups r = [].
Proof. destruct r; simpl; intros [= <-]; reflexivity. Qed.

Lemma RepeatMatcher_unit (p : N → bool) (mr : Matcher) (c : Continuation)
    (s : jsstring) :
  (∀ d y, mr d y = CharacterSetMatcher p d y) →
  ∀ fuel i caps, (length s < fuel)%nat →
  RepeatMatcher mr [] c fuel 0 None
    {| endIndex := i; rest := s; captures := caps |}
  = greedy p c i caps s.
Proof.
  intros Hmr. induction s as [| u t IH]; intros fuel i caps Hf.
  - destruct fuel as [| fuel]; [simpl in Hf; lia |]. simpl.
    rewrite Hmr. reflexivity.
  - destruct fuel as [| fuel]; [simpl in Hf; lia |]. simpl.
    rewrite Hmr. unfold CharacterSetMatcher. simpl.
    destruct (p u); [| done].
    replace (S i =? i)%nat with false by (symmetry; apply Nat.eqb_neq; lia).
    rewrite IH by (simpl in Hf; lia). reflexivity.
Qed.

Lemma m_Star_unit (r : Pattern) (p : N → bool) (c : Continuation)
    (x : MatchState) :
  unitPred ic r = Some p →
  m ic (Star r) c x = greedy p c (endIndex x) (captures x) (rest x).
Proof.
  intros Hr. unfold Star. cbn [m]. rewrite (unitPred_groups r p Hr).
  destruct x as [i s caps]. unfold repeatFuel. cbn [rest endIndex captures].
  apply RepeatMatcher_unit; [| lia].
  intros d y. by apply unitPred_m.
Qed.

Lemma RepeatMatcher_min (mr : Matcher) (gs : list nat) (c : Continuation)
    (fuel min : nat) (x : MatchState) :
  RepeatMatcher mr gs c (S fuel) (S min) None x =
  mr (fun y => RepeatMatcher mr gs c fuel min None y) (clearCaptures gs x).
Proof. reflexivity. Qed.

Lemma m_Plus_unit (r : Pattern) (p : N → bool) (c : Continuation)
    (x : MatchState) :
  unitPred ic r = Some p →
  m ic (Plus r) c x =
  CharacterSetMatcher p
    (fun y => greedy p c (endIndex y) (captures y) (rest y)) x.
Proof.
  intros Hr. unfold Plus.
  change (m ic (Repeat 1 None r) c x)
    with (RepeatMatcher (m ic r) (groups r) c
            (S (S (length (rest x)))) 1 None x).
  rewrite RepeatMatcher_min, (unitPred_groups r p Hr).
  rewrite (unitPred_m r p _ _ Hr). unfold CharacterSetMatcher.
  destruct x as [i s caps]. cbn [rest endIndex captures clearCaptures foldr].
  destruct s as [| u t]; [done |]. destruct (p u); [| done].
  apply RepeatMatcher_unit; [| simpl; lia].
  intros d y. by apply unitPred_m.
Qed.

Lemma m_Opt (r : Pattern) (c : Continuation) (x : MatchState) :
  m ic (Opt r) c x =
  match m ic r (fun y => if (endIndex y =? endIndex x)%nat then None else c y)
               (clearCaptures (groups r) x) with
  | Some z => Some z
  | None => c x
  end.
Proof. reflexivity. Qed.

(** What a greedy run returns. *)
Lemma greedy_is_Some (p : N → bool) (c : Continuation) (s : jsstring) :
  ∀ i caps,
  is_Some (greedy p c i caps s) ↔
  ∃ n, (n ≤ span p s)%nat ∧
       is_Some (c {| endIndex := i + n; rest := drop n s; captures := caps |}).
Proof.
  induction s as [| u t IH]; intros i caps; simpl.
  - split.
    + intros H. exists O. split; [lia |]. by rewrite Nat.add_0_r.
    + intros (n & Hn & H). assert (n = O) as -> by lia.
      by rewrite Nat.add_0_r in H.
  - destruct (p u) eqn:Hp.
    + split.
      * destruct (greedy p c (S i) caps t) as [z |] eqn:Hg.
        -- intros _. destruct (proj1 (IH (S i) caps)) as (n & Hn & H).
           { rewrite Hg. eauto. }
           exists (S n). split; [lia |].
           replace (i + S n)%nat with (S i + n)%nat by lia. done.
        -- intros H. exists O. split; [lia |]. by rewrite Nat.add_0_r.
      * intros (n & Hn & H). destruct n as [| n].
        -- rewrite Nat.add_0_r in H. simpl in H.
           destruct (greedy p c (S i) caps t); [eauto | done].
        -- assert (Hs : is_Some (greedy p c (S i) caps t)).
           { apply IH. exists n. split; [lia |].
             replace (S i + n)%nat with (i + S n)%nat by lia. done. }
           destruct Hs as [z ->]. eauto.
    + split.
      * intros H. exists O. split; [lia |]. by rewrite Nat.add_0_r.
      * intros (n & Hn & H). assert (n = O) as -> by lia.
        by rewrite Nat.add_0_r in H.
Qed.

(** When the continuation fails in front of every unit of the run, the
    greedy run is the whole run. *)
Lemma greedy_whole (p : N → bool) (c : Continuation) (s : jsstring) :
  (∀ i u t caps, p u = true →
     c {| endIndex := i; rest := u :: t; captures := caps |} = None) →
  ∀ i caps,
  greedy p c i caps s =
  c {| endIndex := i + span p s; rest := drop (span p s) s; captures := caps |}.
Proof.
  intros Hc. induction s as [| u t IH]; intros i caps; simpl.
  - by rewrite Nat.add_0_r.
  - destruct (p u) eqn:Hp.
    + rewrite IH, (Hc i u t caps Hp).
      replace (i + S (span p t))%nat with (S i + span p t)%nat by lia.
      simpl. by destruct (c _).
    + by rewrite Nat.add_0_r.
Qed.

(** A pattern anchored at the start matches at index 0 or nowhere. *)
Lemma search_anchored (R : RegExp) (r : Pattern) (s : jsstring) (i : nat) :
  source R = Seq AssertStart r → (0 < i)%nat → search R i s = None.
Proof.
  intros HR. revert i. induction s as [| u t IH]; intros i Hi; simpl.
  - rewrite HR. simpl. destruct i; [lia | done].
  - rewrite HR. simpl. destruct i; [lia |]. simpl.
    apply IH. lia.
Qed.

(** *** The matcher only moves forward, and its fuel is never used up *)

Lemma reach_refl (x : MatchState) : reach x x.
Proof. exists O. rewrite drop_0, Nat.add_0_r. repeat split; lia. Qed.

Lemma reach_trans (x y z : MatchState) : reach x y → reach y z → reach x z.
Proof.
  intros (k & Hk & Hr & He & Hc) (k' & Hk' & Hr' & He' & Hc').
  exists (k + k')%nat. rewrite Hr, length_drop in Hk'.
  split; [lia |]. split; [by rewrite Hr', Hr, drop_drop |].
  split; [lia | congruence].
Qed.

Lemma reach_step (x : MatchState) (u : N) (t : jsstring) :
  rest x = u :: t →
  reach x {| endIndex := S (endIndex x); rest := t; captures := captures x |}.
Proof.
  intros H. exists 1%nat. rewrite H. cbn. repeat split; lia.
Qed.

Lemma length_clear (gs : list nat) (caps : list (option jsstring)) :
  length (foldr (fun n cap => <[n := None]> cap) caps gs) = length caps.
Proof. induction gs as [| n gs IH]; simpl; [done |]. by rewrite length_insert. Qed.

Lemma reach_clearCaptures (gs : list nat) (x y : MatchState) :
  reach (clearCaptures gs x) y ↔ reach x y.
Proof.
  unfold reach, clearCaptures. cbn [rest endIndex captures].
  by rewrite length_clear.
Qed.

Lemma reach_setCapture (n : nat) (x y : MatchState) :
  reach x y → reach x (setCapture n x y).
Proof.
  intros (k & Hk & Hr & He & Hc). exists k. unfold setCapture.
  cbn [rest endIndex captures]. rewrite length_insert. done.
Qed.

Lemma RepeatMatcher_O (mr : Matcher) (gs : list nat) (c : Continuation)
    (min : nat) (max : option nat) (x : MatchState) :
  RepeatMatcher mr gs c 0 min max x = c x.
Proof. by destruct max as [[| n] |]. Qed.

Lemma RepeatMatcher_S (mr : Matcher) (gs : list nat) (c : Continuation)
    (fuel min : nat) (max : option nat) (x : MatchState) :
  RepeatMatcher mr gs c (S fuel) min max x =
  repeatStep mr gs c (RepeatMatcher mr gs c fuel (pred min) (pred <$> max))
             min max x.
Proof. by destruct max as [[| n] |]. Qed.

Lemma repeatStep_ext (mr : Matcher) (gs : list nat) (c c' k k' : Continuation)
    (min : nat) (max : option nat) (x : MatchState) :
  Local mr →
  c x = c' x →
  (∀ y, reach x y →
        (min =? 0)%nat && (endIndex y =? endIndex x)%nat = false →
        k y = k' y) →
  repeatStep mr gs c k min max x = repeatStep mr gs c' k' min max x.
Proof.
  intros Hmr Hc Hk. unfold repeatStep. rewrite Hc.
  destruct (exhausted max); [done |]. cbn zeta.
  rewrite (Hmr _ (fun y =>
             if (min =? 0)%nat && (endIndex y =? endIndex x)%nat
             then None else k' y) (clearCaptures gs x)); [done |].
  intros y Hy%reach_clearCaptures.
  destruct ((min =? 0)%nat && (endIndex y =? endIndex x)%nat) eqn:E; [done |].
  by apply Hk.
Qed.

Lemma RepeatMatcher_Local (mr : Matcher) (gs : list nat) :
  Local mr →
  ∀ fuel min max, Local (fun c x => RepeatMatcher mr gs c fuel min max x).
Proof.
  intros Hmr. induction fuel as [| fuel IH]; intros min max c c' x Hc.
  - rewrite !RepeatMatcher_O. apply Hc, reach_refl.
  - rewrite !RepeatMatcher_S. apply repeatStep_ext; [done | |].
    + apply Hc, reach_refl.
    + intros y Hy _. apply (IH (pred min) (pred <$> max) c c' y).
      intros z Hz. apply Hc. by apply (reach_trans x y z).
Qed.

Lemma m_Local (r : Pattern) : Local (m ic r).
Proof.
  induction r as [| d | | invert atoms | r1 IH1 r2 IH2 | r1 IH1 r2 IH2
                  | min max r1 IH1 | n r1 IH1 | |]; intros c c' x Hc;
    cbn [m].
  - apply Hc, reach_refl.
  - unfold CharacterSetMatcher. destruct (rest x) as [| u t] eqn:E; [done |].
    destruct (_ =? _); [| done]. apply Hc. by apply (reach_step x u t).
  - unfold CharacterSetMatcher. destruct (rest x) as [| u t] eqn:E; [done |].
    destruct (negb _); [| done]. apply Hc. by apply (reach_step x u t).
  - unfold CharacterSetMatcher. destruct (rest x) as [| u t] eqn:E; [done |].
    destruct (xorb _ _); [| done]. apply Hc. by apply (reach_step x u t).
  - apply IH1. intros y Hy. apply IH2. intros z Hz.
    apply Hc. by apply (reach_trans x y z).
  - rewrite (IH1 c c' x Hc), (IH2 c c' x Hc). done.
  - by apply (RepeatMatcher_Local (m ic r1) (groups r1) IH1).
  - apply IH1. intros y Hy. apply Hc. by apply reach_setCapture.
  - destruct (endIndex x =? 0)%nat; [| done]. apply Hc, reach_refl.
  - destruct (rest x); [| done]. apply Hc, reach_refl.
Qed.

Lemma RepeatMatcher_Forward (mr : Matcher) (gs : list nat) :
  Forward mr →
  ∀ fuel min max, Forward (fun c x => RepeatMatcher mr gs c fuel min max x).
Proof.
  intros Hmr. induction fuel as [| fuel IH]; intros min max c x z Hz.
  - rewrite RepeatMatcher_O in Hz. exists x. split; [apply reach_refl | done].
  - rewrite RepeatMatcher_S in Hz. unfold repeatStep in Hz. cbn zeta in Hz.
    destruct (exhausted max).
    { exists x. split; [apply reach_refl | done]. }
    assert (Hd : ∀ z',
               mr (fun y =>
                     if (min =? 0)%nat && (endIndex y =? endIndex x)%nat
                     then None
                     else RepeatMatcher mr gs c fuel (pred min)
                                        (pred <$> max) y)
                  (clearCaptures gs x) = Some z' →
               ∃ y, reach x y ∧ c y = Some z').
    { intros z' Hz'. apply Hmr in Hz' as (y & Hy%reach_clearCaptures & Hz').
      destruct ((min =? 0)%nat && (endIndex y =? endIndex x)%nat); [done |].
      apply IH in Hz' as (y' & Hy' & Hz'). exists y'. split; [| done].
      by apply (reach_trans x y y'). }
    destruct (min =? 0)%nat; [| by apply Hd].
    destruct (mr _ (clearCaptures gs x)) as [z' |] eqn:E.
    + injection Hz as <-. by apply Hd.
    + exists x. split; [apply reach_refl | done].
Qed.

Lemma m_Forward (r : Pattern) : Forward (m ic r).
Proof.
  induction r as [| d | | invert atoms | r1 IH1 r2 IH2 | r1 IH1 r2 IH2
                  | min max r1 IH1 | n r1 IH1 | |]; intros c x z Hz;
    cbn [m] in Hz.
  - exists x. split; [apply reach_refl | done].
  - unfold CharacterSetMatcher in Hz.
    destruct (rest x) as [| u t] eqn:E; [done |].
    destruct (_ =? _); [| done]. eexists. split; [| exact Hz].
    by apply (reach_step x u t).
  - unfold CharacterSetMatcher in Hz.
    destruct (rest x) as [| u t] eqn:E; [done |].
    destruct (negb _); [| done]. eexists. split; [| exact Hz].
    by apply (reach_step x u t).
  - unfold CharacterSetMatcher in Hz.
    destruct (rest x) as [| u t] eqn:E; [done |].
    destruct (xorb _ _); [| done]. eexists. split; [| exact Hz].
    by apply (reach_step x u t).
  - apply IH1 in Hz as (y & Hy & Hz). apply IH2 in Hz as (y' & Hy' & Hz).
    exists y'. split; [by apply (reach_trans x y y') | done].
  - destruct (m ic r1 c x) as [z' |] eqn:E.
    + injection Hz as <-. by apply IH1.
    + by apply IH2.
  - by apply (RepeatMatcher_Forward (m ic r1) (groups r1) IH1) in Hz.
  - apply IH1 in Hz as (y & Hy & Hz). eexists. split; [| exact Hz].
    by apply reach_setCapture.
  - destruct (endIndex x =? 0)%nat; [| done].
    exists x. split; [apply reach_refl | done].
  - destruct (rest x); [| done].
    exists x. split; [apply reach_refl | done].
Qed.

Lemma enough_next (fuel min : nat) (max : option nat) (x y : MatchState) :
  exhausted max = false →
  enough (S fuel) min max x →
  reach x y →
  (min =? 0)%nat && (endIndex y =? endIndex x)%nat = false →
  enough fuel (pred min) (pred <$> max) y.
Proof.
  intros Hmax He (k & Hk & Hr & Hi & _) Hc.
  destruct max as [[| n] |]; cbn in *; try done; try lia.
  rewrite Hr, length_drop. destruct min as [| min]; cbn in *; [| lia].
  apply Nat.eqb_neq in Hc. lia.
Qed.

Lemma RepeatMatcher_fuel (mr : Matcher) (gs : list nat) (c : Continuation) :
  Local mr →
  ∀ fuel1 fuel2 min max x,
    enough fuel1 min max x → enough fuel2 min max x →
    RepeatMatcher mr gs c fuel1 min max x
    = RepeatMatcher mr gs c fuel2 min max x.
Proof.
  intros Hmr.
  assert (H0 : ∀ fuel min max x,
             enough 0 min max x →
             RepeatMatcher mr gs c fuel min max x = c x).
  { intros fuel min max x He. destruct max as [n |]; cbn in He; [| lia].
    assert (n = O) as -> by lia. by destruct fuel. }
  induction fuel1 as [| fuel1 IH]; intros fuel2 min max x H1 H2.
  - by rewrite !H0.
  - destruct fuel2 as [| fuel2]; [by rewrite !H0 |].
    rewrite !RepeatMatcher_S.
    destruct (exhausted max) eqn:Hmax; [unfold repeatStep; by rewrite Hmax |].
    apply repeatStep_ext; [done | done |].
    intros y Hy Hc. apply IH; by eapply enough_next.
Qed.

(** The equation of RepeatMatcher in the pattern semantics: the rounds
    that follow an iteration are those of the quantifier with its bounds
    lowered by one. *)
Lemma m_Repeat (r : Pattern) (min : nat) (max : option nat)
    (c : Continuation) (x : MatchState) :
  m ic (Repeat min max r) c x =
  repeatStep (m ic r) (groups r) c
             (m ic (Repeat (pred min) (pred <$> max) r) c) min max x.
Proof.
  cbn [m]. unfold repeatFuel at 1.
  destruct max as [[| n] |].
  - done.
  - rewrite RepeatMatcher_S. reflexivity.
  - replace (min + S (length (rest x)))%nat with (S (min + length (rest x)))
      by lia.
    rewrite RepeatMatcher_S. apply repeatStep_ext; [apply m_Local | done |].
    intros y Hy Hc. apply RepeatMatcher_fuel; [apply m_Local | |].
    + apply (enough_next _ min None x y); try done. cbn. lia.
    + cbn. unfold repeatFuel. lia.
Qed.

Lemma m_Star (r : Pattern) (c : Continuation) (x : MatchState) :
  m ic (Star r) c x =
  match m ic r (fun y => if (endIndex y =? endIndex x)%nat then None
                         else m ic (Star r) c y)
               (clearCaptures (groups r) x) with
  | Some z => Some z
  | None => c x
  end.
Proof. unfold Star. by rewrite m_Repeat at 1. Qed.

Lemma m_Plus (r : Pattern) (c : Continuation) (x : MatchState) :
  m ic (Plus r) c x =
  m ic r (fun y => m ic (Star r) c y) (clearCaptures (groups r) x).
Proof. unfold Plus. by rewrite m_Repeat at 1. Qed.

End MatcherFacts.

(** ** The matcher and the language of a pattern *)

Section Semantics.
Import RegExp Grammar.
Variable ic : bool.
Local Arguments Nat.eqb : simpl never.

Lemma Sem_le (r : Pattern) (i : nat) (s : jsstring) (n : nat) :
  Sem ic r i s n → (n ≤ length s)%nat.
Proof.
  induction 1; cbn [length] in *; try lia.
  - rewrite length_drop in *. lia.
  - rewrite length_drop in *. lia.
Qed.

Lemma reach_advanceBy (x : MatchState) (n : nat) :
  (n ≤ length (rest x))%nat → reach x (advanceBy n x).
Proof. intros H. exists n. done. Qed.

Lemma advanceBy_add (x : MatchState) (n1 n2 : nat) :
  advanceBy n2 (advanceBy n1 x) = advanceBy (n1 + n2) x.
Proof.
  unfold advanceBy. cbn [endIndex rest captures].
  by rewrite drop_drop, Nat.add_assoc.
Qed.

Lemma BlindFrom_reach (x y : MatchState) (c : Continuation) :
  BlindFrom x c → reach x y → BlindFrom y c.
Proof.
  intros Hc Hy z z' Hz Hz'. apply Hc; by apply (reach_trans x y).
Qed.

(** Two states ahead of [x] at the same index differ in their captures
    only. *)
Lemma reach_same (x y y' : MatchState) :
  reach x y → reach x y' → endIndex y = endIndex y' → rest y = rest y'.
Proof.
  intros (k & _ & Hr & Hi & _) (k' & _ & Hr' & Hi' & _) He.
  assert (k = k') as -> by lia. congruence.
Qed.

Lemma blind_advanceBy (x y : MatchState) (c : Continuation) (n : nat) :
  BlindFrom x c → reach x y → (n ≤ length (rest y))%nat →
  ∀ y', reach x y' → endIndex y' = (endIndex y + n)%nat →
        (is_Some (c y') ↔ is_Some (c (advanceBy n y))).
Proof.
  intros Hc Hy Hn y' Hy' He. apply Hc; [done | | done].
  apply (reach_trans x y); [done |]. by apply reach_advanceBy.
Qed.

Lemma blind_imp (x y y' : MatchState) (c : Continuation) :
  BlindFrom x c → is_Some (c y) →
  reach x y → reach x y' → endIndex y = endIndex y' → is_Some (c y').
Proof. intros Hc H Hy Hy' He. by apply (Hc y y' Hy Hy' He). Qed.

Lemma blind_step (x : MatchState) (c : Continuation) (u : N) (t : jsstring) :
  BlindFrom x c → rest x = u :: t →
  (is_Some (c {| endIndex := S (endIndex x); rest := t;
                 captures := captures x |})
   ↔ is_Some (c (advanceBy 1 x))).
Proof.
  intros Hc E. apply Hc.
  - by apply (reach_step x u t).
  - apply reach_advanceBy. rewrite E. cbn. lia.
  - cbn. lia.
Qed.

Lemma Correct_unit (r : Pattern) (p : N → bool) :
  unitPred ic r = Some p →
  (∀ i s n, Sem ic r i s n ↔ ∃ u t, s = u :: t ∧ p u = true ∧ n = 1%nat) →
  Correct ic r.
Proof.
  intros Hr Hsem c x Hc. rewrite (unitPred_m ic r p c x Hr).
  unfold CharacterSetMatcher. split.
  - destruct (rest x) as [| u t] eqn:E; [by intros [? ?] |].
    destruct (p u) eqn:Ep; [| by intros [? ?]].
    intros H. exists 1%nat. split; [apply Hsem; by exists u, t |].
    by apply (blind_step x c u t Hc E).
  - intros (n & Hn & H). apply Hsem in Hn as (u & t & E & Ep & ->).
    rewrite E, Ep. by apply (blind_step x c u t Hc E).
Qed.

Lemma Correct_Empty : Correct ic Empty.
Proof.
  intros c x Hc. cbn [m]. split.
  - intros H. exists 0%nat. split; [constructor |]. by rewrite advanceBy_0.
  - intros (n & Hn & H). inversion Hn; subst. by rewrite advanceBy_0 in H.
Qed.

Lemma Correct_Char (d : N) : Correct ic (Char d).
Proof.
  apply (Correct_unit _ (fun u => Canonicalize ic u =? Canonicalize ic d));
    [done |].
  intros i s n. split.
  - inversion 1; subst. eexists _, _. split; [done |]. split; [| done].
    by apply N.eqb_eq.
  - intros (u & t & -> & Hp & ->). constructor. by apply N.eqb_eq.
Qed.

Lemma Correct_Dot : Correct ic Dot.
Proof.
  apply (Correct_unit _ (fun u => negb (isLineTerminator u))); [done |].
  intros i s n. split.
  - inversion 1 as [| | ? u t Hu | | | | | | | | |]; subst.
    eexists _, _. split; [done |]. split; [| done]. by rewrite Hu.
  - intros (u & t & -> & Hp & ->). constructor.
    by apply negb_true_iff.
Qed.

Lemma Correct_Class (invert : bool) (atoms : list ClassAtom) :
  Correct ic (Class invert atoms).
Proof.
  apply (Correct_unit _ (fun u => xorb invert (class_mem ic atoms u)));
    [done |].
  intros i s n. split.
  - inversion 1; subst. by eexists _, _.
  - intros (u & t & -> & Hp & ->). by constructor.
Qed.

Lemma Correct_AssertStart : Correct ic AssertStart.
Proof.
  intros c x Hc. cbn [m]. split.
  - destruct (endIndex x =? 0)%nat eqn:E; [| by intros [? ?]].
    apply Nat.eqb_eq in E. intros H. exists 0%nat. rewrite E.
    split; [constructor |]. by rewrite advanceBy_0.
  - intros (n & Hn & H). rewrite <- (advanceBy_0 x).
    destruct x as [i s caps]. cbn [endIndex rest] in *.
    inversion Hn; subst. done.
Qed.

Lemma Correct_AssertEnd : Correct ic AssertEnd.
Proof.
  intros c x Hc. cbn [m]. split.
  - destruct (rest x) as [| u t] eqn:E; [| by intros [? ?]].
    intros H. exists 0%nat. split; [constructor |]. by rewrite advanceBy_0.
  - intros (n & Hn & H). rewrite <- (advanceBy_0 x).
    destruct x as [i s caps]. cbn [endIndex rest] in *.
    inversion Hn; subst. done.
Qed.

Lemma Correct_Alt (r1 r2 : Pattern) :
  Correct ic r1 → Correct ic r2 → Correct ic (Alt r1 r2).
Proof.
  intros H1 H2 c x Hc. cbn [m].
  specialize (H1 c x Hc). specialize (H2 c x Hc). split.
  - destruct (m ic r1 c x) as [z |] eqn:E.
    + intros _. destruct (proj1 H1) as (n & Hn & H); [done |].
      exists n. split; [by apply Sem_AltL | done].
    + intros H. destruct (proj1 H2 H) as (n & Hn & H').
      exists n. split; [by apply Sem_AltR | done].
  - intros (n & Hn & H). inversion Hn; subst.
    + destruct (proj2 H1) as [z ->]; [by exists n | done].
    + destruct (m ic r1 c x); [done |]. apply H2. by exists n.
Qed.

Lemma Correct_Group (k : nat) (r : Pattern) : Correct ic r → Correct ic (Group k r).
Proof.
  intros H1 c x Hc. cbn [m].
  assert (Hd : BlindFrom x (fun y => c (setCapture k x y))).
  { intros y y' Hy Hy' He. apply Hc; [| | done].
    - by apply reach_setCapture.
    - by apply reach_setCapture. }
  rewrite (H1 _ x Hd). split.
  - intros (n & Hn & H). exists n. split; [by constructor |].
    pose proof (Sem_le _ _ _ _ Hn) as Hle.
    apply (blind_imp x _ _ c Hc H); [| | done].
    + apply reach_setCapture. by apply reach_advanceBy.
    + by apply reach_advanceBy.
  - intros (n & Hn & H). inversion Hn; subst. exists n. split; [done |].
    pose proof (Sem_le _ _ _ _ Hn) as Hle.
    apply (blind_imp x _ _ c Hc H); [| | done].
    + by apply reach_advanceBy.
    + apply reach_setCapture. by apply reach_advanceBy.
Qed.

(** A continuation that succeeds exactly when some prefix in [P] leads
    to a success of a blind continuation is blind. *)
Lemma Blind_sem (P : nat → jsstring → nat → Prop) (f c : Continuation)
    (x : MatchState) :
  (∀ i s n, P i s n → (n ≤ length s)%nat) →
  BlindFrom x c →
  (∀ y, reach x y →
        (is_Some (f y) ↔
         ∃ n, P (endIndex y) (rest y) n ∧ is_Some (c (advanceBy n y)))) →
  BlindFrom x f.
Proof.
  intros HP Hc Hf y y' Hy Hy' He.
  rewrite (Hf y Hy), (Hf y' Hy').
  pose proof (reach_same x y y' Hy Hy' He) as Hs.
  rewrite <- Hs, <- He.
  split; intros (n & Hn & H); exists n; (split; [done |]);
    pose proof (HP _ _ _ Hn) as Hle;
    apply (blind_imp x _ _ c Hc H).
  - apply (reach_trans x y); [done | by apply reach_advanceBy].
  - apply (reach_trans x y'); [done |]. apply reach_advanceBy. by rewrite <- Hs.
  - cbn. lia.
  - apply (reach_trans x y'); [done |]. apply reach_advanceBy. by rewrite <- Hs.
  - apply (reach_trans x y); [done | by apply reach_advanceBy].
  - cbn. lia.
Qed.

Lemma Correct_Blind (r : Pattern) (c : Continuation) (x : MatchState) :
  Correct ic r → BlindFrom x c → BlindFrom x (fun y => m ic r c y).
Proof.
  intros Hr Hc. apply (Blind_sem (Sem ic r) _ c x); [apply Sem_le | done |].
  intros y Hy. apply Hr. by apply (BlindFrom_reach x).
Qed.

Lemma Correct_Seq (r1 r2 : Pattern) :
  Correct ic r1 → Correct ic r2 → Correct ic (Seq r1 r2).
Proof.
  intros H1 H2 c x Hc. cbn [m].
  rewrite (H1 _ x (Correct_Blind r2 c x H2 Hc)). split.
  - intros (n1 & Hn1 & H). pose proof (Sem_le _ _ _ _ Hn1) as Hle.
    apply H2 in H as (n2 & Hn2 & H);
      [| by apply (BlindFrom_reach x), reach_advanceBy].
    exists (n1 + n2)%nat. split; [by constructor |].
    by rewrite <- advanceBy_add.
  - intros (n & Hn & H). inversion Hn as [| | | | ? ? ? ? n1 n2 Hn1 Hn2 | | | | | | |]; subst.
    pose proof (Sem_le _ _ _ _ Hn1) as Hle.
    exists n1. split; [done |].
    apply H2; [by apply (BlindFrom_reach x), reach_advanceBy |].
    exists n2. split; [done |]. by rewrite advanceBy_add.
Qed.

Lemma Sem_Repeat_exhausted (r : Pattern) (min : nat) (max : option nat)
    (c : Continuation) (x : MatchState) :
  exhausted max = true →
  (is_Some (c x) ↔
   ∃ n, Sem ic (Repeat min max r) (endIndex x) (rest x) n
        ∧ is_Some (c (advanceBy n x))).
Proof.
  intros E. split.
  - intros H. exists 0%nat. rewrite advanceBy_0.
    split; [apply Sem_RepeatDone; by left | done].
  - intros (n & Hn & H). inversion Hn; subst; [| congruence].
    by rewrite advanceBy_0 in H.
Qed.

Lemma Correct_Repeat (r : Pattern) (min : nat) (max : option nat) :
  Correct ic r → Correct ic (Repeat min max r).
Proof.
  intros Hr.
  assert (HR : ∀ fuel min max c x,
             enough fuel min max x → BlindFrom x c →
             (is_Some (m ic (Repeat min max r) c x) ↔
              ∃ n, Sem ic (Repeat min max r) (endIndex x) (rest x) n
                   ∧ is_Some (c (advanceBy n x)))).
  { clear min max.
    induction fuel as [| fuel IH]; intros min max c x He Hc;
      rewrite m_Repeat; unfold repeatStep.
    { destruct max as [[| n] |]; cbn in He; try lia.
      by apply Sem_Repeat_exhausted. }
    destruct (exhausted max) eqn:Emax; [by apply Sem_Repeat_exhausted |].
    set (next := Repeat (pred min) (pred <$> max) r).
    set (d := fun y : MatchState => if (min =? 0)%nat && (endIndex y =? endIndex x)%nat
                      then None else m ic next c y).
    set (P := fun (i : nat) (s : jsstring) (n : nat) =>
                ¬ (min = O ∧ i = endIndex x) ∧ Sem ic next i s n).
    assert (Hd : ∀ y, reach x y →
              (is_Some (d y) ↔
               ∃ n, P (endIndex y) (rest y) n ∧ is_Some (c (advanceBy n y)))).
    { intros y Hy. unfold d, P.
      destruct ((min =? 0)%nat && (endIndex y =? endIndex x)%nat) eqn:Ec.
      - apply andb_true_iff in Ec as [E1%Nat.eqb_eq E2%Nat.eqb_eq].
        split; [by intros [? ?] | intros (n & [Hn _] & _); by destruct Hn].
      - unfold next.
        rewrite (IH _ _ c y (enough_next fuel min max x y Emax He Hy Ec)
                    (BlindFrom_reach x y c Hc Hy)).
        split; intros (n & Hn & H); exists n; (split; [| done]).
        + split; [| done]. intros [E1 E2].
          by rewrite E1, E2, !Nat.eqb_refl in Ec.
        + by destruct Hn. }
    assert (Hblind : BlindFrom (clearCaptures (groups r) x) d).
    { apply (Blind_sem P d c).
      - intros i s n [_ Hn]. by apply (Sem_le _ _ _ _ Hn).
      - intros y y' Hy%reach_clearCaptures Hy'%reach_clearCaptures.
        by apply Hc.
      - intros y Hy%reach_clearCaptures. by apply Hd. }
    assert (Hiter : is_Some (m ic r d (clearCaptures (groups r) x)) ↔
              ∃ n1 n2, Sem ic r (endIndex x) (rest x) n1
                       ∧ (min = O → n1 ≠ O)
                       ∧ Sem ic next (endIndex x + n1) (drop n1 (rest x)) n2
                       ∧ is_Some (c (advanceBy (n1 + n2) x))).
    { rewrite (Hr d _ Hblind). cbn [clearCaptures endIndex rest]. split.
      - intros (n1 & Hn1 & H). pose proof (Sem_le _ _ _ _ Hn1) as Hle.
        apply Hd in H as (n2 & [Hz Hn2] & H).
        + unfold clearCaptures in Hz, Hn2. cbn [advanceBy endIndex rest] in Hz, Hn2.
          exists n1, n2. split; [done |]. split; [intros E1 E2; apply Hz; split; [done | lia] |].
          split; [done |]. pose proof (Sem_le _ _ _ _ Hn2) as Hle2.
          rewrite length_drop in Hle2.
          apply (blind_imp x _ _ c Hc H).
          * exists (n1 + n2)%nat. cbn. rewrite length_clear, drop_drop.
            repeat split; lia.
          * apply reach_advanceBy. lia.
          * cbn. lia.
        + exists n1. cbn. rewrite length_clear. done.
      - intros (n1 & n2 & Hn1 & Hz & Hn2 & H).
        pose proof (Sem_le _ _ _ _ Hn1) as Hle.
        pose proof (Sem_le _ _ _ _ Hn2) as Hle2. rewrite length_drop in Hle2.
        exists n1. split; [done |]. apply Hd.
        + exists n1. cbn. rewrite length_clear. done.
        + exists n2. unfold clearCaptures at 1 2 3.
          cbn [advanceBy endIndex rest]. split.
          * split; [| done]. intros [E1 E2]. apply (Hz E1). lia.
          * apply (blind_imp x _ _ c Hc H).
            -- apply reach_advanceBy. lia.
            -- exists (n1 + n2)%nat. cbn. rewrite length_clear, drop_drop.
               repeat split; lia.
            -- cbn. lia. }
    destruct (min =? 0)%nat eqn:Emin.
    - apply Nat.eqb_eq in Emin. split.
      + destruct (m ic r d (clearCaptures (groups r) x)) as [z |] eqn:E.
        * intros _. destruct (proj1 Hiter) as (n1 & n2 & Hn1 & Hz & Hn2 & H);
            [done |].
          exists (n1 + n2)%nat. split; [by apply Sem_RepeatMore | done].
        * intros H. exists 0%nat. rewrite advanceBy_0.
          split; [apply Sem_RepeatDone; by right | done].
      + intros (n & Hn & H). inversion Hn; subst.
        * rewrite advanceBy_0 in H. by destruct (m ic r d _).
        * destruct (proj2 Hiter) as [z ->]; [| done].
          eexists _, _. done.
    - apply Nat.eqb_neq in Emin. rewrite Hiter. split.
      + intros (n1 & n2 & Hn1 & Hz & Hn2 & H).
        exists (n1 + n2)%nat. split; [by apply Sem_RepeatMore | done].
      + intros (n & Hn & H). inversion Hn; subst.
        * match goal with
          | Hdone : _ ∨ _ |- _ => destruct Hdone; [congruence | done]
          end.
        * eexists _, _. done. }
  intros c x. apply (HR (repeatFuel min max x)).
  unfold enough, repeatFuel. destruct max; lia.
Qed.

(** The matcher of every pattern decides the language of the pattern. *)
Lemma m_Sem (r : Pattern) : Correct ic r.
Proof.
  induction r as [| d | | invert atoms | r1 IH1 r2 IH2 | r1 IH1 r2 IH2
                  | min max r1 IH1 | n r1 IH1 | |].
  - apply Correct_Empty.
  - apply Correct_Char.
  - apply Correct_Dot.
  - apply Correct_Class.
  - by apply Correct_Seq.
  - by apply Correct_Alt.
  - by apply Correct_Repeat.
  - by apply Correct_Group.
  - apply Correct_AssertStart.
  - apply Correct_AssertEnd.
Qed.

End Semantics.

(** ** exec, and the loops of match and replace *)

Section ExecFacts.
Import RegExp Grammar.

Lemma found_at (R : RegExp) (s : jsstring) (i : nat) (y : MatchState) :
  m (ignoreCase R) (source R) Some (initial R i s) = Some y →
  ∃ n, (n ≤ length s)%nat ∧ endIndex y = (i + n)%nat ∧ rest y = drop n s
       ∧ (<[O := Some (take (endIndex y - i) s)]> (captures y)) !! O
         = Some (Some (take n s)).
Proof.
  intros E. apply m_Forward in E as (y' & Hy & [= ->]).
  destruct Hy as (n & Hn & Hr & Hi & Hc). cbn [initial rest endIndex] in *.
  exists n. repeat split; try done.
  rewrite Hi. replace (i + n - i)%nat with n by lia.
  apply list_lookup_insert_eq. rewrite Hc. cbn. lia.
Qed.

(** A match found from index [i] on lies within the input. *)
Lemma search_within (R : RegExp) (s : jsstring) :
  ∀ i e, search R i s = Some e →
  ∃ k n, (k + n ≤ length s)%nat
         ∧ index e = (i + k)%nat ∧ lastIndex e = (i + k + n)%nat
         ∧ after e = drop (k + n) s
         ∧ array e !! O = Some (Some (take n (drop k s))).
Proof.
  induction s as [| u t IH]; intros i e; cbn [search].
  - destruct (m (ignoreCase R) (source R) Some (initial R i [])) as [y |] eqn:E;
      [| done].
    intros [= <-]. apply found_at in E as (n & Hn & Hi & Hr & Ha).
    exists O, n. cbn [index lastIndex after array].
    rewrite Nat.add_0_r, drop_0. repeat split; try done; lia.
  - destruct (m (ignoreCase R) (source R) Some (initial R i (u :: t)))
      as [y |] eqn:E.
    + intros [= <-]. apply found_at in E as (n & Hn & Hi & Hr & Ha).
      exists O, n. cbn [index lastIndex after array].
      rewrite Nat.add_0_r, drop_0. repeat split; try done; lia.
    + intros H. apply IH in H as (k & n & Hl & H1 & H2 & H3 & H4).
      exists (S k), n. cbn [length drop]. repeat split; try done; lia.
Qed.

(** A search succeeds exactly when the pattern matches at some index. *)
Lemma search_Sem (R : RegExp) (s : jsstring) (i : nat) :
  is_Some (search R i s) ↔
  ∃ k n, (k ≤ length s)%nat
         ∧ Sem (ignoreCase R) (source R) (i + k) (drop k s) n.
Proof.
  assert (Hm : ∀ i s, is_Some (m (ignoreCase R) (source R) Some (initial R i s))
                      ↔ ∃ n, Sem (ignoreCase R) (source R) i s n).
  { clear. intros i s.
    assert (Hb : BlindFrom (initial R i s) Some) by done.
    rewrite (m_Sem (ignoreCase R) (source R) Some (initial R i s) Hb).
    cbn [initial endIndex rest]. split.
    - intros (n & Hn & _). by exists n.
    - intros (n & Hn). by exists n. }
  revert i. induction s as [| u t IH]; intros i; cbn [search].
  - destruct (m _ _ Some _) as [y |] eqn:E.
    + split; [intros _ | done].
      destruct (proj1 (Hm i [])) as [n Hn]; [by rewrite E |].
      exists O, n. rewrite Nat.add_0_r, drop_0. done.
    + split; [by intros [? ?] |]. intros (k & n & Hk & Hn).
      cbn in Hk. assert (k = O) as -> by lia.
      rewrite Nat.add_0_r, drop_0 in Hn.
      destruct (proj2 (Hm i []) (ex_intro _ n Hn)) as [? ?]. congruence.
  - destruct (m _ _ Some _) as [y |] eqn:E.
    + split; [intros _ | done].
      destruct (proj1 (Hm i (u :: t))) as [n Hn]; [by rewrite E |].
      exists O, n. rewrite Nat.add_0_r, drop_0. split; [lia | done].
    + rewrite IH. split.
      * intros (k & n & Hk & Hn). exists (S k), n. cbn [length drop].
        split; [lia |]. by replace (i + S k)%nat with (S i + k)%nat by lia.
      * intros (k & n & Hk & Hn). destruct k as [| k].
        -- rewrite Nat.add_0_r, drop_0 in Hn.
           destruct (proj2 (Hm i (u :: t)) (ex_intro _ n Hn)) as [? ?].
           congruence.
        -- exists k, n. cbn [length drop] in *. split; [lia |].
           by replace (S i + k)%nat with (i + S k)%nat by lia.
Qed.

(** [test] decides whether the pattern matches somewhere in the input. *)
Lemma test_Sem (R : RegExp) (s : jsstring) :
  test R s = true ↔
  ∃ k n, (k ≤ length s)%nat ∧ Sem (ignoreCase R) (source R) k (drop k s) n.
Proof.
  rewrite <- (search_Sem R s O). unfold test, exec.
  destruct (search R 0 s); split; try done.
Qed.

Lemma advance_shorter (R : RegExp) (s : jsstring) (i : nat) (e : ExecResult)
    (j : nat) (skipped t : jsstring) :
  search R i s = Some e → advance e = Some (j, skipped, t) →
  (length t < length s)%nat.
Proof.
  intros H Ha. apply search_within in H as (k & n & Hl & _ & _ & Hafter & Hm).
  unfold advance, matched in Ha.
  rewrite (list_lookup_total_correct _ _ _ Hm) in Ha. cbn [default] in Ha.
  assert (Hlen : length (after e) = (length s - (k + n))%nat)
    by (by rewrite Hafter, length_drop).
  destruct (take n (drop k s)) as [| v w] eqn:Et.
  - destruct (after e) as [| u' t'] eqn:Ea; [done |].
    injection Ha as _ _ <-. cbn in Hlen. lia.
  - injection Ha as _ _ <-. rewrite Hlen.
    assert (n ≠ O) by (intros ->; by rewrite take_0 in Et). lia.
Qed.

(** The loops of [match] and [replace] on a global pattern end before
    their fuel does. *)
Lemma matches_fuel (R : RegExp) (fuel1 : nat) :
  ∀ fuel2 s i, (length s < fuel1)%nat → (length s < fuel2)%nat →
  matches fuel1 R i s = matches fuel2 R i s.
Proof.
  induction fuel1 as [| fuel1 IH]; intros fuel2 s i H1 H2; [lia |].
  destruct fuel2 as [| fuel2]; [lia |]. cbn [matches].
  destruct (search R i s) as [e |] eqn:E; [| done].
  destruct (advance e) as [[[j skipped] t] |] eqn:Ea; [| done].
  pose proof (advance_shorter R s i e j skipped t E Ea).
  f_equal. apply IH; lia.
Qed.

Lemma replaceFrom_fuel (R : RegExp) (by_ : jsstring) (fuel1 : nat) :
  ∀ fuel2 s i, (length s < fuel1)%nat → (length s < fuel2)%nat →
  replaceFrom fuel1 R by_ i s = replaceFrom fuel2 R by_ i s.
Proof.
  induction fuel1 as [| fuel1 IH]; intros fuel2 s i H1 H2; [lia |].
  destruct fuel2 as [| fuel2]; [lia |]. cbn [replaceFrom].
  destruct (search R i s) as [e |] eqn:E; [| done].
  destruct (advance e) as [[[j skipped] t] |] eqn:Ea; [| done].
  pose proof (advance_shorter R s i e j skipped t E Ea).
  do 3 f_equal. apply IH; lia.
Qed.

(** *** decodeURIComponent *)

Lemma readEscape_shorter (s t : jsstring) (b : N) :
  URI.readEscape s = Some (b, t) → (length t < length s)%nat.
Proof.
  unfold URI.readEscape. destruct s as [| p [| h1 [| h2 t']]]; try done.
  destruct (p =? 37); [| done].
  destruct (URI.hexValue h1), (URI.hexValue h2); try done.
  intros [= _ <-]. cbn. lia.
Qed.

Lemma readEscapes_shorter (n : nat) :
  ∀ s t bs, URI.readEscapes n s = Some (bs, t) → (length t ≤ length s)%nat.
Proof.
  induction n as [| n IH]; intros s t bs; cbn [URI.readEscapes].
  - intros [= _ <-]. lia.
  - destruct (URI.readEscape s) as [[b t1] |] eqn:E1; [| done].
    destruct (URI.readEscapes n t1) as [[bs' t2] |] eqn:E2; [| done].
    intros [= _ <-]. apply IH in E2. apply readEscape_shorter in E1. lia.
Qed.

(** Decoding does not depend on the fuel once there is as much of it as
    the string is long. *)
Lemma Decode_fuel (fuel1 : nat) :
  ∀ fuel2 s, (length s ≤ fuel1)%nat → (length s ≤ fuel2)%nat →
  URI.Decode fuel1 s = URI.Decode fuel2 s.
Proof.
  induction fuel1 as [| fuel1 IH]; intros fuel2 s H1 H2.
  - destruct s; [by destruct fuel2 | cbn in H1; lia].
  - destruct s as [| c t]; [by destruct fuel2 |].
    destruct fuel2 as [| fuel2]; [cbn in H2; lia |].
    cbn [URI.Decode]. cbn [length] in H1, H2.
    destruct (c =? 37).
    + destruct (URI.readEscape (c :: t)) as [[b t1] |] eqn:E1; [| done].
      pose proof (readEscape_shorter _ _ _ E1) as Hl1. cbn [length] in Hl1.
      destruct (URI.leadingOnes b) as [| [| n]]; [| done |].
      * rewrite (IH fuel2 t1) by lia. done.
      * destruct (4 <=? S n)%nat; [done |].
        destruct (URI.readEscapes (S n) t1) as [[octets t2] |] eqn:E2; [| done].
        pose proof (readEscapes_shorter _ _ _ _ E2) as Hl2.
        destruct (URI.utf8CodePoint (b :: octets)); [| done].
        rewrite (IH fuel2 t2) by lia. done.
    + rewrite (IH fuel2 t) by lia. done.
Qed.

End ExecFacts.

(** ** goog.structs.StringSet *)

Section StringSetFacts.
Import StringSet.

Lemma space_key_not_inherited (s : jsstring) :
  32 :: s ∉ OBJECT_PROTOTYPE_KEYS.
Proof.
  intros H. apply list_elem_of_In in H. vm_compute in H.
  repeat (destruct H as [H | H]; [discriminate H |]). exact H.
Qed.

Lemma in_EMPTY_OBJECT_ (s : jsstring) :
  in_ s EMPTY_OBJECT_ = bool_decide (s ∈ OBJECT_PROTOTYPE_KEYS).
Proof.
  unfold in_, EMPTY_OBJECT_, emptyTable. simpl.
  rewrite lookup_empty. rewrite bool_decide_false; [done |].
  intros [? ?]; discriminate.
Qed.

Lemma encode_not_inherited (s : jsstring) :
  encode_ s ∉ OBJECT_PROTOTYPE_KEYS.
Proof.
  unfold encode_. rewrite in_EMPTY_OBJECT_.
  destruct (bool_decide (s ∈ OBJECT_PROTOTYPE_KEYS)) eqn:E; simpl.
  - apply space_key_not_inherited.
  - destruct (bool_decide (JsString.charCodeAt s 0 = Some 32)).
    + apply space_key_not_inherited.
    + apply bool_decide_eq_false in E. exact E.
Qed.

Lemma encode_not_proto (s : jsstring) :
  JsString.eqb (encode_ s) (str "__proto__") = false.
Proof.
  apply bool_decide_eq_false. intros H.
  apply (encode_not_inherited s). rewrite H.
  apply list_elem_of_In. vm_compute. tauto.
Qed.

Lemma decode_encode (s : jsstring) : decode_ (encode_ s) = s.
Proof.
  unfold encode_, decode_.
  destruct (bool_decide (JsString.charCodeAt s 0 = Some 32)) eqn:E.
  - rewrite orb_true_r. reflexivity.
  - destruct (in_ s EMPTY_OBJECT_); simpl.
    + reflexivity.
    + rewrite E. reflexivity.
Qed.

Lemma encode_inj (s t : jsstring) : encode_ s = encode_ t → s = t.
Proof.
  intros H. rewrite <- (decode_encode s), <- (decode_encode t).
  by rewrite H.
Qed.

(** The table of a set built by additions to a new set keeps its
    prototype and has the encoded elements as its own keys. *)
Lemma assignNull_encode (o : table) (s : jsstring) :
  assignNull (encode_ s) o =
  {| properties := <[encode_ s := VNull]> (properties o);
     inheritsObjectPrototype := inheritsObjectPrototype o |}.
Proof.
  unfold assignNull. rewrite encode_not_proto, andb_false_r. reflexivity.
Qed.

Lemma foldl_add_table (l : list jsstring) (this : StringSet) :
  inheritsObjectPrototype (elements_ (foldl add this l))
    = inheritsObjectPrototype (elements_ this)
  ∧ ∀ k, is_Some (properties (elements_ (foldl add this l)) !! k)
         ↔ is_Some (properties (elements_ this) !! k)
           ∨ ∃ s, s ∈ l ∧ k = encode_ s.
Proof.
  revert this. induction l as [| a l IH]; intros this; simpl.
  - split; [done |]. intros k. split; [auto |].
    intros [H | (s & Hs & _)]; [done |]. by apply elem_of_nil in Hs.
  - destruct (IH (add this a)) as [IH1 IH2]. split.
    + rewrite IH1. unfold add. simpl. by rewrite assignNull_encode.
    + intros k. rewrite IH2. unfold add at 1. simpl.
      rewrite assignNull_encode. simpl.
      destruct (decide (encode_ a = k)) as [<- | Hne].
      * rewrite lookup_insert_eq. split; [| eauto].
        intros _. right. exists a. split; [apply list_elem_of_here | done].
      * rewrite lookup_insert_ne by done. split.
        -- intros [H | (s & Hs & ->)]; [by left |].
           right. exists s. split; [by apply list_elem_of_further | done].
        -- intros [H | (s & Hs & ->)]; [by left |].
           apply elem_of_cons in Hs as [-> | Hs]; [done |].
           right. eauto.
Qed.

Lemma has_foldl_add (l : list jsstring) (s : jsstring) :
  has (foldl add (new []) l) s = true ↔ s ∈ l.
Proof.
  destruct (foldl_add_table l (new [])) as [Hp Hk].
  unfold has, contains, in_. rewrite Hp. simpl.
  rewrite (bool_decide_false _ (encode_not_inherited s)), orb_false_r.
  rewrite bool_decide_eq_true, Hk. simpl. rewrite lookup_empty. split.
  - intros [[? H] | (t & Ht & He)]; [discriminate H |].
    by apply encode_inj in He as ->.
  - intros H. right. eauto.
Qed.

Lemma values_foldl_add (l : list jsstring) :
  values (foldl add (new []) l) ≡ₚ remove_dups l.
Proof.
  destruct (foldl_add_table l (new [])) as [_ Hk].
  apply NoDup_Permutation.
  - unfold values, Object_keys. apply NoDup_fmap_2_strong.
    + intros x y Hx Hy Hxy.
      assert (Hin : ∀ k, k ∈ (map_to_list
                 (properties (elements_ (foldl add (new []) l)))).*1 →
               ∃ t, k = encode_ t).
      { intros k Hk'. apply list_elem_of_fmap in Hk' as ([k' v] & -> & Hkv).
        apply elem_of_map_to_list in Hkv. simpl.
        destruct (proj1 (Hk k') (mk_is_Some _ _ Hkv)) as [[? H] | (t & _ & ->)].
        - simpl in H. rewrite lookup_empty in H. discriminate H.
        - eauto. }
      destruct (Hin x Hx) as [t ->]. destruct (Hin y Hy) as [u ->].
      rewrite !decode_encode in Hxy. by rewrite Hxy.
    + apply NoDup_fst_map_to_list.
  - apply NoDup_remove_dups.
  - intros s. rewrite elem_of_remove_dups. unfold values, Object_keys.
    rewrite list_elem_of_fmap. split.
    + intros (k & -> & Hk'). apply list_elem_of_fmap in Hk' as ([k' v] & -> & Hkv).
      apply elem_of_map_to_list in Hkv. simpl.
      destruct (proj1 (Hk k') (mk_is_Some _ _ Hkv)) as [[? H] | (t & Ht & ->)].
      * simpl in H. rewrite lookup_empty in H. discriminate H.
      * by rewrite decode_encode.
    + intros Hs. exists (encode_ s). split; [by rewrite decode_encode |].
      destruct (proj2 (Hk (encode_ s))) as [v Hv]; [right; eauto |].
      apply list_elem_of_fmap. exists (encode_ s, v). split; [done |].
      by apply elem_of_map_to_list.
Qed.

End StringSetFacts.

(** ** The patterns of goog.html.SafeUrl *)

Section PatternFacts.
Import RegExp Grammar SafeUrl.
Local Arguments Nat.eqb : simpl never.
Local Arguments Lit : simpl never.
Local Arguments Plus : simpl never.
Local Arguments Star : simpl never.
Local Arguments Opt : simpl never.
Local Arguments ch : simpl never.
Local Arguments base64Tail : simpl never.

Lemma exec_anchored (R : RegExp) (r : Pattern) (s : jsstring) :
  source R = Seq AssertStart r →
  exec R s =
  match m (ignoreCase R) r Some (initial R 0 s) with
  | Some y =>
      Some {| index := 0; lastIndex := endIndex y; after := rest y;
              array := <[O := Some (take (endIndex y) s)]> (captures y) |}
  | None => None
  end.
Proof.
  intros HR. unfold exec. destruct s as [| u t]; simpl; rewrite HR; simpl.
  - destruct (m _ r Some _) as [y |]; [| done].
    by rewrite Nat.sub_0_r.
  - destruct (m _ r Some _) as [y |].
    + by rewrite Nat.sub_0_r.
    + apply (search_anchored R r); [done | lia].
Qed.

Lemma litPrefix_app (ic : bool) (l1 l2 : list N) (s : jsstring) :
  litPrefix ic (l1 ++ l2) s =
  litPrefix ic l1 s && litPrefix ic l2 (drop (length l1) s).
Proof.
  revert s. induction l1 as [| d l1 IH]; intros s; simpl.
  - by rewrite drop_0.
  - destruct s as [| u t]; [done |]. simpl.
    rewrite IH. by rewrite andb_assoc.
Qed.

Lemma litPrefix_false_iff (l : list N) (s : jsstring) :
  litPrefix false l s = true ↔ ∃ t, s = l ++ t.
Proof.
  revert s. induction l as [| d l IH]; intros s; simpl.
  - split; eauto.
  - destruct s as [| u t]; simpl.
    + split; [done |]. intros [? ?]; discriminate.
    + rewrite andb_true_iff, IH, N.eqb_eq. split.
      * intros [-> [t' ->]]. eauto.
      * intros [t' [= -> ->]]. eauto.
Qed.

Lemma not_slash (u : N) :
  xorb true (class_mem false (chars "/") u) = negb (u =? 47).
Proof.
  unfold class_mem, chars. simpl. change (ch "/") with 47.
  by rewrite !orb_false_r.
Qed.

Lemma span_le (p : N → bool) (s : jsstring) : (span p s ≤ length s)%nat.
Proof. induction s as [| u t IH]; simpl; [lia |]. destruct (p u); lia. Qed.

Lemma span_ext (p q : N → bool) (s : jsstring) :
  (∀ u, p u = q u) → span p s = span q s.
Proof.
  intros H. induction s as [| u t IH]; simpl; [done |].
  rewrite H, IH. done.
Qed.

Lemma span_take (p : N → bool) (s : jsstring) :
  Forall (fun u => p u = true) (take (span p s) s).
Proof.
  induction s as [| u t IH]; simpl; [constructor |].
  destruct (p u) eqn:E; simpl; [by constructor | constructor].
Qed.

Lemma span_stop (p : N → bool) (s : jsstring) (u : N) :
  s !! span p s = Some u → p u = false.
Proof.
  induction s as [| v t IH]; simpl; [done |].
  destruct (p v) eqn:E; simpl; [done |]. by intros [= <-].
Qed.

Lemma span_app (p : N → bool) (l t : jsstring) :
  Forall (fun u => p u = true) l →
  span p (l ++ t) = (length l + span p t)%nat.
Proof.
  induction 1 as [| u l Hu _ IH]; simpl; [done |]. by rewrite Hu, IH.
Qed.

(** What [exec] returns on the pattern of an extension scheme. *)
Lemma exec_extensionScheme (scheme : string) (url : jsstring) :
  (default None ∘ (.!! 1%nat) ∘ array) <$> exec (extensionScheme scheme) url
  = Some <$> extensionIdOf scheme url.
Proof.
  rewrite (exec_anchored (extensionScheme scheme) _ url eq_refl).
  change (initial (extensionScheme scheme) 0 url)
    with {| endIndex := 0; rest := url; captures := [None; None] |}.
  cbn [ignoreCase extensionScheme m].
  rewrite m_Lit. cbn [rest advanceBy endIndex captures].
  unfold extensionIdOf. rewrite litPrefix_app.
  destruct (litPrefix false (str scheme) url) eqn:E1; [| done].
  rewrite m_Lit. cbn [andb advanceBy rest endIndex captures].
  destruct (litPrefix false (str "://") (drop (length (str scheme)) url))
    eqn:E2; [| done].
  rewrite (m_Plus_unit false (Class true (chars "/")) _ _ _ eq_refl).
  unfold CharacterSetMatcher. cbn [advanceBy rest endIndex captures].
  rewrite drop_drop, <- length_app.
  destruct (drop (length (str scheme ++ str "://")) url) as [| u t] eqn:Er;
    [done |].
  rewrite not_slash. cbn [span lookup].
  destruct (negb (u =? 47)) eqn:Eu; [| done].
  rewrite greedy_whole.
  2:{ intros i v t' caps Hv. rewrite not_slash in Hv. cbn [m].
      unfold CharacterSetMatcher. cbn [setCapture rest].
      change (Canonicalize false v =? Canonicalize false (ch "/"))
        with (v =? 47).
      apply negb_true_iff in Hv. by rewrite Hv. }
  cbn [m]. unfold CharacterSetMatcher, setCapture.
  cbn [rest endIndex captures].
  rewrite (span_ext _ (fun u => negb (u =? 47)) t not_slash).
  set (n := span (fun u => negb (u =? 47)) t).
  change (0 <? S n)%nat with true. cbn [andb].
  change ((u :: t) !! S n) with (t !! n).
  assert (Hh : t !! n = drop n t !! O)
    by (rewrite lookup_drop; f_equal; lia).
  rewrite Hh.
  assert (Hr : rest (advanceBy (length (str "://"))
                 (advanceBy (length (str scheme))
                    {| endIndex := 0; rest := url;
                       captures := [None; None] |})) = u :: t).
  { cbn [advanceBy rest]. by rewrite drop_drop, <- length_app. }
  rewrite Hr. cbn [advanceBy endIndex].
  destruct (drop n t) as [| v t'] eqn:Ed; cbn [lookup list_lookup].
  { by rewrite bool_decide_false. }
  change (Canonicalize false v =? Canonicalize false (ch "/"))
    with (v =? 47).
  destruct (v =? 47) eqn:Ev.
  - apply N.eqb_eq in Ev as ->. rewrite bool_decide_true by done.
    cbn [fmap option_fmap option_map compose array captures endIndex].
    replace (S (0 + length (str scheme) + length (str "://")) + n
             - (0 + length (str scheme) + length (str "://")))%nat
      with (S n) by lia.
    reflexivity.
  - rewrite bool_decide_false; [done |].
    intros [= ->]. by rewrite N.eqb_refl in Ev.
Qed.

Lemma extensionIdOf_Some (scheme : string) (url id : jsstring) :
  extensionIdOf scheme url = Some id ↔
  ∃ tail, url = str scheme ++ str "://" ++ id ++ 47 :: tail
          ∧ id ≠ [] ∧ 47 ∉ id.
Proof.
  unfold extensionIdOf.
  set (p := fun u => negb (u =? 47)).
  destruct (litPrefix false (str scheme ++ str "://") url) eqn:E.
  - apply litPrefix_false_iff in E as [r ->].
    rewrite drop_app_length.
    destruct (0 <? span p r)%nat eqn:En; cbn [andb].
    + apply Nat.ltb_lt in En. case_bool_decide as Hn.
      * split.
        -- intros [= <-]. exists (drop (S (span p r)) r). repeat split.
           ++ rewrite <- app_assoc. do 2 f_equal.
              rewrite <- (take_drop (span p r) r) at 1. f_equal.
              by apply drop_S.
           ++ intros H. apply (f_equal length) in H.
              rewrite length_take in H. pose proof (span_le p r). simpl in H. lia.
           ++ intros H. pose proof (span_take p r) as Hall.
              rewrite Forall_forall in Hall. apply Hall in H. done.
        -- intros (tail & Hu & Hid & Hno).
           rewrite <- app_assoc in Hu. apply app_inv_head in Hu.
           apply app_inv_head in Hu. subst r. f_equal.
           assert (Hs : span p (id ++ 47 :: tail) = length id).
           { rewrite span_app; [simpl; lia |].
             apply Forall_forall. intros u Hu. unfold p.
             apply negb_true_iff, N.eqb_neq. by intros ->. }
           rewrite Hs. by rewrite take_app_length.
      * split; [done |]. intros (tail & Hu & Hid & Hno).
        rewrite <- app_assoc in Hu. apply app_inv_head in Hu.
        apply app_inv_head in Hu. subst r. destruct Hn.
        assert (Hs : span p (id ++ 47 :: tail) = length id).
        { rewrite span_app; [simpl; lia |].
          apply Forall_forall. intros u Hu. unfold p.
          apply negb_true_iff, N.eqb_neq. by intros ->. }
        rewrite Hs. by rewrite list_lookup_middle.
    + split; [done |]. intros (tail & Hu & Hid & Hno).
      rewrite <- app_assoc in Hu. apply app_inv_head in Hu.
      apply app_inv_head in Hu. subst r.
      apply Nat.ltb_ge in En.
      rewrite span_app in En.
      * destruct id; [done | simpl in En; lia].
      * apply Forall_forall. intros u Hu. unfold p.
        apply negb_true_iff, N.eqb_neq. by intros ->.
  - split; [done |]. intros (tail & -> & _).
    assert (H : litPrefix false (str scheme ++ str "://")
                  (str scheme ++ str "://" ++ id ++ 47 :: tail) = true).
    { apply litPrefix_false_iff. exists (id ++ 47 :: tail).
      by rewrite <- app_assoc. }
    congruence.
Qed.

Lemma Array_indexOf_Some (l : list jsstring) (x : jsstring) :
  is_Some (Js.Array_indexOf l (Some x)) ↔ x ∈ l.
Proof.
  induction l as [| s l IH]; simpl.
  - split; [by intros [? ?] | by intros ?%elem_of_nil].
  - unfold JsString.eqb. case_bool_decide as E.
    + subst. split; [intros _; apply list_elem_of_here | eauto].
    + rewrite elem_of_cons, <- IH.
      destruct (Js.Array_indexOf l (Some x)); simpl.
      * split; [eauto | eauto].
      * split; [by intros [? ?] |]. intros [-> | [? ?]]; done.
Qed.

Lemma Array_indexOf_undefined (l : list jsstring) :
  Js.Array_indexOf l None = None.
Proof. induction l as [| s l IH]; simpl; [done |]. by rewrite IH. Qed.

(** *** The filter of [tryFromDataUrl] *)

Lemma removeCrLfEscapes_skip (k : nat) (s : jsstring) :
  removeCrLfEscapes k s = removeCrLfEscapes 0 (drop k s).
Proof.
  revert k. induction s as [| u t IH]; intros [| k]; try done.
  simpl. apply IH.
Qed.

Lemma search_CR_LF (s : jsstring) (i : nat) :
  search CR_LF_PATTERN i s =
  match s with
  | [] => None
  | _ :: t =>
      if isCrLfEscape s
      then Some {| index := i; lastIndex := i + 3; after := drop 3 s;
                   array := [Some (take 3 s); Some (take 3 s)] |}
      else search CR_LF_PATTERN (S i) t
  end.
Proof.
  destruct s as [| u t]; [done |].
  cbn [search CR_LF_PATTERN source ignoreCase m].
  rewrite !m_Lit. unfold isCrLfEscape.
  change (initial _ i (u :: t))
    with {| endIndex := i; rest := u :: t; captures := [None; None] |}.
  cbn [rest].
  destruct (litPrefix false (str "%0A") (u :: t)) eqn:E1; cbn [orb].
  - unfold setCapture, advanceBy. cbn [endIndex rest captures].
    do 2 f_equal. by replace (i + length (str "%0A") - i)%nat with 3%nat
      by (change (length (str "%0A")) with 3%nat; lia).
  - destruct (litPrefix false (str "%0D") (u :: t)) eqn:E2; [| done].
    unfold setCapture, advanceBy. cbn [endIndex rest captures].
    do 2 f_equal. by replace (i + length (str "%0D") - i)%nat with 3%nat
      by (change (length (str "%0D")) with 3%nat; lia).
Qed.

Lemma isCrLfEscape_length (s : jsstring) :
  isCrLfEscape s = true → (3 ≤ length s)%nat.
Proof.
  unfold isCrLfEscape. intros [H | H]%orb_true_iff;
    apply litPrefix_false_iff in H as [t ->];
    rewrite length_app; change (length (str _)) with 3%nat; lia.
Qed.

(** The first match of the pattern, against the filter. *)
Lemma search_CR_LF_spec (s : jsstring) :
  ∀ i,
  match search CR_LF_PATTERN i s with
  | None => removeCrLfEscapes 0 s = s
  | Some e =>
      ∃ k, index e = (i + k)%nat ∧ lastIndex e = (i + k + 3)%nat
           ∧ after e = drop (k + 3) s ∧ matched e ≠ []
           ∧ (k + 3 ≤ length s)%nat
           ∧ removeCrLfEscapes 0 s
             = take k s ++ removeCrLfEscapes 0 (drop (k + 3) s)
  end.
Proof.
  induction s as [| u t IH]; intros i; [done |].
  rewrite search_CR_LF. cbn [removeCrLfEscapes].
  destruct (isCrLfEscape (u :: t)) eqn:E.
  - exists O. pose proof (isCrLfEscape_length _ E) as Hl.
    repeat split; try done; try (cbn [lastIndex index]; lia).
    rewrite removeCrLfEscapes_skip. reflexivity.
  - specialize (IH (S i)). destruct (search CR_LF_PATTERN (S i) t) as [e |].
    + destruct IH as (k & H1 & H2 & H3 & H4 & H5 & H6).
      exists (S k). repeat split; try done; try (simpl; lia).
      simpl. by rewrite H6.
    + by rewrite IH.
Qed.

Lemma replaceFrom_CR_LF (fuel : nat) :
  ∀ s i, (length s < fuel)%nat →
  replaceFrom fuel CR_LF_PATTERN [] i s = removeCrLfEscapes 0 s.
Proof.
  induction fuel as [| fuel IH]; intros s i Hf; [lia |].
  cbn [replaceFrom]. pose proof (search_CR_LF_spec s i) as Hs.
  destruct (search CR_LF_PATTERN i s) as [e |]; [| done].
  destruct Hs as (k & H1 & H2 & H3 & H4 & H5 & H6).
  unfold advance. destruct (matched e) as [| ? ?] eqn:Em; [done |].
  rewrite H6, H1, H2, H3. cbn [app].
  replace (i + k - i)%nat with k by lia.
  rewrite IH; [done |]. rewrite length_drop. lia.
Qed.

Lemma replace_CR_LF (s : jsstring) :
  replace s CR_LF_PATTERN [] = removeCrLfEscapes 0 s.
Proof. apply replaceFrom_CR_LF. lia. Qed.

(** *** Units and case *)

Ltac units :=
  unfold isDelimiter, isBase64Unit, isLineTerminator, class_mem, Canonicalize,
    atom_mem, isWordChar, JsString.toUpper, JsString.toLower,
    JsString.isUpper, JsString.isLower, JsString.isDigit in *;
  cbn [existsb xorb andb orb negb] in *;
  repeat (match goal with
          | |- context [(?a <=? ?b)] => destruct (N.leb_spec a b)
          | |- context [(?a =? ?b)] => destruct (N.eqb_spec a b)
          | |- context [(?a <? ?b)] => destruct (N.ltb_spec a b)
          | |- context [bool_decide ?P] => destruct (bool_decide_reflect P)
          end; cbn [existsb xorb andb orb negb] in *; try lia);
  try done.

(** Membership in a class is the one of the pattern semantics: some
    member of the class has the canonical form of the unit. *)
Lemma class_mem_spec (ic : bool) (atoms : list ClassAtom) (c : N) :
  class_mem ic atoms c = true ↔
  ∃ a d, a ∈ atoms ∧ atom_mem a d = true
         ∧ Canonicalize ic d = Canonicalize ic c.
Proof.
  unfold class_mem. rewrite existsb_exists. split.
  - intros (a & Ha%list_elem_of_In & H).
    apply orb_true_iff in H as [H | H].
    + exists a, (Canonicalize ic c). split; [done |]. split; [done |].
      destruct ic; [| done]. units.
    + apply andb_true_iff in H as [H Hm]. apply andb_true_iff in H as [-> Hu].
      exists a, (Canonicalize true c + 32). split; [done |]. split; [done |].
      revert Hu. units.
  - intros (a & d & Ha & Hm & Hd). exists a. split; [by apply list_elem_of_In |].
    destruct ic.
    + cbn [Canonicalize andb] in *.
      destruct (JsString.isLower d) eqn:El.
      * apply orb_true_iff. right.
        assert (Hu : JsString.isUpper (JsString.toUpper c) = true)
          by (rewrite <- Hd; revert El; units).
        rewrite Hu. cbn [andb].
        replace (JsString.toUpper c + 32) with d; [done |].
        rewrite <- Hd. revert El. units.
      * apply orb_true_iff. left. rewrite <- Hd.
        unfold JsString.toUpper. by rewrite El.
    + cbn [Canonicalize] in *. subst d. by rewrite Hm.
Qed.

Lemma canonical_eq_lower (u d : N) :
  (Canonicalize true u =? Canonicalize true d)
  = bool_decide (JsString.toLower d = JsString.toLower u).
Proof. units. Qed.

Lemma litPrefix_ignoreCase (l : list N) (s : jsstring) :
  litPrefix true l s = goog_string.caseInsensitiveStartsWith s l.
Proof.
  unfold goog_string.caseInsensitiveStartsWith, JsString.eqb,
    JsString.toLowerCase.
  revert s. induction l as [| d l IH]; intros s; [done |].
  destruct s as [| u t]; [done |]. cbn [litPrefix length take map].
  rewrite IH, canonical_eq_lower.
  repeat case_bool_decide; simpl; congruence.
Qed.

Lemma not_delimiter (u : N) :
  xorb true (class_mem true (chars ":/?#") u) = negb (isDelimiter u).
Proof.
  unfold chars. cbn [list_ascii_of_string map].
  change (ch ":") with 58. change (ch "/") with 47.
  change (ch "?") with 63. change (ch "#") with 35.
  units.
Qed.

Lemma path_delimiter (u : N) :
  xorb false (class_mem true (chars "/?#") u)
  = isDelimiter u && negb (u =? 58).
Proof.
  unfold chars. cbn [list_ascii_of_string map].
  change (ch "/") with 47. change (ch "?") with 63. change (ch "#") with 35.
  units.
Qed.

Lemma base64_unit (u : N) :
  xorb false (class_mem true (a_z :: d0_9 :: chars "+/") u) = isBase64Unit u.
Proof.
  unfold chars, a_z, d0_9. cbn [list_ascii_of_string map].
  change (ch "+") with 43. change (ch "/") with 47.
  change (ch "a") with 97. change (ch "z") with 122.
  change (ch "0") with 48. change (ch "9") with 57.
  units.
Qed.

Lemma equals_sign (u : N) :
  (Canonicalize true u =? Canonicalize true (ch "=")) = (u =? 61).
Proof. change (ch "=") with 61. units. Qed.

(** *** The generic safe-URL pattern *)

Lemma test_anchored (R : RegExp) (r : Pattern) (s : jsstring) :
  source R = Seq AssertStart r →
  test R s = ok (m (ignoreCase R) r Some (initial R 0 s)).
Proof.
  intros HR. unfold test. rewrite (exec_anchored R r s HR).
  by destruct (m _ r Some _).
Qed.

Lemma ok_Alt (ic : bool) (r1 r2 : Pattern) (c : Continuation)
    (x : MatchState) :
  ok (m ic (Alt r1 r2) c x) = ok (m ic r1 c x) || ok (m ic r2 c x).
Proof. cbn [m]. by destruct (m ic r1 c x). Qed.

(** A literal followed by one more unit. *)
Lemma ok_Lit_Char (ic : bool) (l : string) (d : N) (x : MatchState) :
  ok (m ic (Lit l) (fun y => m ic (Char d) Some y) x)
  = litPrefix ic (str l ++ [d]) (rest x).
Proof.
  rewrite m_Lit, litPrefix_app.
  destruct (litPrefix ic (str l) (rest x)); [| done].
  cbn [m andb]. unfold CharacterSetMatcher. cbn [advanceBy rest].
  destruct (drop (length (str l)) (rest x)) as [| u t]; [done |].
  cbn [litPrefix]. rewrite andb_true_r.
  by destruct (Canonicalize ic u =? Canonicalize ic d).
Qed.

Lemma clearCaptures_nil (x : MatchState) : clearCaptures [] x = x.
Proof. by destruct x. Qed.

Lemma ok_https (x : MatchState) :
  ok (m true (Seq (Lit "http") (Opt (Char (ch "s"))))
        (fun y => m true (Char (ch ":")) Some y) x)
  = litPrefix true (str "http:") (rest x)
    || litPrefix true (str "https:") (rest x).
Proof.
  cbn [m]. rewrite m_Lit.
  change (str "http:") with (str "http" ++ str ":").
  change (str "https:") with (str "http" ++ str "s:").
  rewrite !litPrefix_app.
  destruct (litPrefix true (str "http") (rest x)); [| done].
  cbn [andb]. rewrite m_Opt. cbn [m groups]. rewrite clearCaptures_nil.
  unfold CharacterSetMatcher. cbn [advanceBy rest endIndex captures].
  destruct (drop (length (str "http")) (rest x)) as [| u t]; [done |].
  change (str ":") with [ch ":"]. change (str "s:") with [ch "s"; ch ":"].
  cbn [litPrefix]. rewrite !andb_true_r.
  destruct (Canonicalize true u =? Canonicalize true (ch "s")) eqn:Es.
  - replace (S (endIndex x + length (str "http")) =?
             endIndex x + length (str "http"))%nat with false
      by (symmetry; apply Nat.eqb_neq; lia).
    assert ((Canonicalize true u =? Canonicalize true (ch ":")) = false) as ->.
    { apply N.eqb_eq in Es. apply N.eqb_neq. rewrite Es. done. }
    cbn [orb andb]. destruct t as [| v t']; [done |].
    cbn [litPrefix]. rewrite andb_true_r.
    by destruct (Canonicalize true v =? Canonicalize true (ch ":")).
  - cbn [andb]. rewrite orb_false_r.
    by destruct (Canonicalize true u =? Canonicalize true (ch ":")).
Qed.

Lemma test_SAFE_URL_PATTERN_ (s : jsstring) :
  test SAFE_URL_PATTERN_ s = safeUrlGrammar s.
Proof.
  rewrite (test_anchored SAFE_URL_PATTERN_ _ s eq_refl).
  change (initial SAFE_URL_PATTERN_ 0 s)
    with {| endIndex := 0; rest := s; captures := [None] |}.
  cbn [ignoreCase SAFE_URL_PATTERN_]. rewrite ok_Alt.
  unfold safeUrlGrammar. f_equal.
  - change (m true (Seq ?a ?b) ?c ?x) with (m true a (fun y => m true b c y) x).
    rewrite !ok_Alt, ok_https, !ok_Lit_Char. cbn [rest].
    unfold hasSafeScheme. rewrite !litPrefix_ignoreCase.
    change (str "mailto" ++ [ch ":"]) with (str "mailto:").
    change (str "ftp" ++ [ch ":"]) with (str "ftp:").
    by rewrite orb_assoc.
  - cbn [m].
    rewrite (m_Star_unit true (Class true (chars ":/?#")) _ _ _ eq_refl).
    cbn [endIndex rest captures]. rewrite greedy_whole.
    2:{ intros i u t caps Hu. rewrite not_delimiter in Hu.
        unfold CharacterSetMatcher. cbn [rest].
        rewrite path_delimiter.
        apply negb_true_iff in Hu. by rewrite Hu. }
    unfold noEarlyColon. rewrite (span_ext _ _ s not_delimiter).
    set (n := span (fun u => negb (isDelimiter u)) s).
    unfold CharacterSetMatcher. cbn [rest].
    destruct (drop n s) as [| u t] eqn:Ed; [done |].
    rewrite path_delimiter.
    assert (Hu : isDelimiter u = true).
    { assert (Hl : s !! n = Some u).
      { rewrite <- (Nat.add_0_r n), <- lookup_drop, Ed. done. }
      apply span_stop in Hl. by apply negb_false_iff in Hl. }
    rewrite Hu. cbn [andb]. by destruct (negb (u =? 58)).
Qed.

(** *** The data-URL pattern *)

Lemma ok_is_Some (r : MatchResult) : ok r = true ↔ is_Some r.
Proof.
  destruct r; simpl; split; try done; eauto.
Qed.

Lemma litPrefix_ignoreCase_split (l : list N) (s : jsstring) :
  litPrefix true l s = true ↔
  ∃ a t, s = a ++ t ∧ JsString.toLowerCase a = JsString.toLowerCase l.
Proof.
  rewrite litPrefix_ignoreCase.
  unfold goog_string.caseInsensitiveStartsWith, JsString.eqb.
  rewrite bool_decide_eq_true. split.
  - intros H. exists (take (length l) s), (drop (length l) s).
    by rewrite take_drop.
  - intros (a & t & -> & H).
    assert (Hl : length a = length l).
    { apply (f_equal length) in H. unfold JsString.toLowerCase in H.
      by rewrite !length_map in H. }
    by rewrite <- Hl, take_app_length.
Qed.

Lemma span_all (p : N → bool) (s : jsstring) :
  drop (span p s) s = [] ↔ Forall (fun u => p u = true) s.
Proof.
  induction s as [| u t IH]; simpl.
  - split; [constructor | done].
  - destruct (p u) eqn:E; simpl.
    + rewrite IH. split; [by constructor | by inversion 1].
    + split; [done |]. inversion 1; congruence.
Qed.

Lemma ok_base64Tail (x : MatchState) :
  ok (m true base64Tail Some x) = true ↔
  ∃ body pad, rest x = body ++ pad ∧ body ≠ []
              ∧ Forall (fun u => isBase64Unit u = true) body
              ∧ Forall (fun u => u = 61) pad.
Proof.
  unfold base64Tail. cbn [Seqs foldr m].
  rewrite (m_Plus_unit true (Class false (a_z :: d0_9 :: chars "+/"))
             _ _ _ eq_refl).
  unfold CharacterSetMatcher. destruct x as [i s caps]. cbn [rest endIndex captures].
  destruct s as [| u t].
  { split; [done |]. intros (body & pad & H & Hb & _).
    destruct body; [done | discriminate H]. }
  rewrite base64_unit.
  assert (Hend : ∀ j r, ok (m true (Star (Char (ch "=")))
                   (fun y => match rest y with [] => Some y | _ :: _ => None end)
                   {| endIndex := j; rest := r; captures := caps |}) = true
                 ↔ Forall (fun u => u = 61) r).
  { intros j r.
    rewrite (m_Star_unit true (Char (ch "=")) _ _ _ eq_refl).
    cbn [endIndex rest captures]. rewrite greedy_whole by done.
    cbn [rest]. rewrite (span_ext _ (fun u => u =? 61) r equals_sign).
    rewrite (Forall_iff (fun u => u = 61) r (fun u => (u =? 61) = true))
      by (intros v; symmetry; apply N.eqb_eq).
    rewrite <- span_all. by destruct (drop _ r). }
  destruct (isBase64Unit u) eqn:Eu.
  - rewrite greedy_whole.
    2:{ intros j v r caps' Hv. rewrite base64_unit in Hv.
        rewrite (m_Star_unit true (Char (ch "=")) _ _ _ eq_refl).
        cbn [endIndex rest captures greedy]. rewrite equals_sign.
        destruct (N.eqb_spec v 61) as [-> | _]; [discriminate Hv | done]. }
    rewrite (span_ext _ _ t base64_unit).
    set (b := span isBase64Unit t). rewrite Hend. split.
    + intros Hp. exists (u :: take b t), (drop b t). repeat split; try done.
      * simpl. by rewrite take_drop.
      * constructor; [done | apply span_take].
    + intros (body & pad & H & Hb & Hall & Hpad).
      destruct body as [| u' body]; [done |]. injection H as -> ->.
      inversion Hall as [| ? ? _ Hall']; subst.
      assert (Hs : b = length body).
      { unfold b. rewrite span_app by done.
        destruct Hpad as [| v pad' -> _]; simpl; lia. }
      by rewrite Hs, drop_app_length.
  - split; [done |]. intros (body & pad & H & Hb & Hall & _).
    destruct body as [| u' body]; [done |]. injection H as -> ->.
    inversion Hall; congruence.
Qed.

Lemma ok_DATA_URL_PATTERN_ (s : jsstring) :
  test DATA_URL_PATTERN_ s = true ↔ base64DataUrl s.
Proof.
  rewrite (test_anchored DATA_URL_PATTERN_
             (Seq (Lit "data:")
                  (Seq (Group 1 (Star Dot))
                       (Seq (Lit ";base64,") base64Tail))) s eq_refl).
  change (initial DATA_URL_PATTERN_ 0 s)
    with {| endIndex := 0; rest := s; captures := [None; None] |}.
  cbn [ignoreCase DATA_URL_PATTERN_ m]. rewrite m_Lit. cbn [rest].
  unfold base64DataUrl. split.
  - destruct (litPrefix true (str "data:") s) eqn:E1; [| done].
    apply litPrefix_ignoreCase_split in E1 as (scheme & r1 & -> & Hscheme).
    assert (Hl : length scheme = length (str "data:")).
    { apply (f_equal length) in Hscheme. unfold JsString.toLowerCase in Hscheme.
      by rewrite !length_map in Hscheme. }
    rewrite (m_Star_unit true Dot _ _ _ eq_refl).
    cbn [advanceBy endIndex rest captures].
    rewrite <- Hl, drop_app_length.
    intros H. apply ok_is_Some, greedy_is_Some in H as (n & Hn & H).
    rewrite m_Lit in H. cbn [setCapture rest] in H.
    destruct (litPrefix true (str ";base64,") (drop n r1)) eqn:E2;
      [| by destruct H].
    apply litPrefix_ignoreCase_split in E2 as (marker & r2 & Hr2 & Hmarker).
    assert (Hlm : length marker = length (str ";base64,")).
    { apply (f_equal length) in Hmarker. unfold JsString.toLowerCase in Hmarker.
      by rewrite !length_map in Hmarker. }
    apply ok_is_Some, ok_base64Tail in H as (body & pad & Hr & Hb & Hbody & Hpad).
    cbn [advanceBy rest setCapture] in Hr.
    rewrite Hr2, <- Hlm, drop_app_length in Hr. subst r2.
    change (JsString.toLowerCase (str "data:")) with (str "data:") in Hscheme.
    change (JsString.toLowerCase (str ";base64,")) with (str ";base64,")
      in Hmarker.
    exists scheme, (take n r1), marker, body, pad. repeat split; try done.
    + f_equal. rewrite <- Hr2. by rewrite take_drop.
    + pose proof (span_take (fun u => negb (isLineTerminator u)) r1) as Hall.
      rewrite Forall_forall in Hall. apply Forall_forall. intros u Hu.
      apply negb_true_iff, Hall.
      apply elem_of_take in Hu as (k & Hk & Hlt).
      apply elem_of_take. exists k. split; [done | lia].
  - intros (scheme & mime & marker & body & pad & -> & Hscheme & Hmime
            & Hmarker & Hb & Hbody & Hpad).
    assert (Hl : length scheme = length (str "data:")).
    { apply (f_equal length) in Hscheme. unfold JsString.toLowerCase in Hscheme.
      by rewrite !length_map in Hscheme. }
    assert (Hlm : length marker = length (str ";base64,")).
    { apply (f_equal length) in Hmarker. unfold JsString.toLowerCase in Hmarker.
      by rewrite !length_map in Hmarker. }
    rewrite (proj2 (litPrefix_ignoreCase_split _ _)) by eauto.
    rewrite (m_Star_unit true Dot _ _ _ eq_refl).
    cbn [advanceBy endIndex rest captures].
    rewrite <- Hl, drop_app_length.
    apply ok_is_Some, greedy_is_Some. exists (length mime). split.
    + rewrite span_app; [lia |].
      apply (Forall_impl _ _ _ Hmime). intros u Hu. by rewrite Hu.
    + rewrite drop_app_length, m_Lit. cbn [setCapture rest].
      rewrite (proj2 (litPrefix_ignoreCase_split _ _)) by eauto.
      apply ok_is_Some, ok_base64Tail. exists body, pad.
      cbn [advanceBy rest setCapture]. rewrite <- Hlm, drop_app_length. done.
Qed.

Lemma test_DATA_PREFIX_PATTERN (s : jsstring) :
  test DATA_PREFIX_PATTERN s
  = goog_string.caseInsensitiveStartsWith s (str "data:").
Proof.
  rewrite (test_anchored DATA_PREFIX_PATTERN _ s eq_refl).
  cbn [ignoreCase DATA_PREFIX_PATTERN]. rewrite m_Lit.
  change (rest (initial DATA_PREFIX_PATTERN 0 s)) with s.
  rewrite litPrefix_ignoreCase. by destruct (goog_string.caseInsensitiveStartsWith _ _).
Qed.

Lemma match_global_nonempty (s : jsstring) (R : RegExp) :
  global R = true → match_ s R ≠ Some [].
Proof.
  intros HR. unfold match_. rewrite HR.
  by destruct (matches (S (length s)) R 0 s).
Qed.

Lemma match_test (R : RegExp) (s : jsstring) :
  global R = false →
  match_ s R = None ↔ test R s = false.
Proof.
  intros HR. unfold match_, test. rewrite HR.
  destruct (exec R s); simpl; split; done.
Qed.

End PatternFacts.

(** ** The functions of goog.html.SafeUrl *)

(** [returns] of an outcome that is a construction with the token. *)
Ltac by_construction :=
  eexists _, _; split; [reflexivity |]; split; [reflexivity |];
  split; reflexivity.

Section SafeUrlFacts.
Import RegExp Grammar SafeUrl.

Lemma create_wrapped (s : jsstring) (st : realm) :
  createSafeUrlSecurityPrivateDoNotAccessOrElse s st
  = (Normal (wrapped s st), allocated st).
Proof. reflexivity. Qed.

Lemma construct_payload (id : N) (s : jsstring) :
  privateDoNotAccessOrElseSafeUrlWrappedValue_
    (construct id s (VObject CONSTRUCTOR_TOKEN_PRIVATE_)) = s.
Proof. reflexivity. Qed.

Lemma unwrap_construct (id : N) (s : jsstring) (st : realm) :
  unwrap (VObject (construct id s (VObject CONSTRUCTOR_TOKEN_PRIVATE_))) st
  = (Normal s, st).
Proof. reflexivity. Qed.

Lemma exactlySafeUrl_wrapped (s : jsstring) (st : realm) :
  exactlySafeUrl (VObject (wrapped s st)).
Proof. by eexists. Qed.

(** A call that returns the SafeUrl of the factory yields [s]. *)
Lemma yields_wrapped (r : completion object * realm) (s : jsstring)
    (st : realm) :
  r = (Normal (wrapped s st), allocated st) → yields r s st.
Proof.
  intros ->. exists (wrapped s st). split; [done |]. split; [done |].
  split; [apply exactlySafeUrl_wrapped |]. split; [apply construct_payload |].
  apply unwrap_construct.
Qed.

(** The string that a SafeUrl of the factory yields is its own. *)
Lemma yields_wrapped_iff (r : completion object * realm) (x s : jsstring)
    (st : realm) :
  r = (Normal (wrapped x st), allocated st) → (yields r s st ↔ x = s).
Proof.
  intros Hr. split.
  - intros (u & Hu & _ & _ & Hp & _). rewrite Hr in Hu.
    injection Hu as <-. exact Hp.
  - intros <-. by apply yields_wrapped.
Qed.

Lemma yields_throw (e : error) (st0 : realm) (s : jsstring) (st : realm) :
  ¬ yields (Throw e, st0) s st.
Proof. intros (u & Hu & _). discriminate Hu. Qed.

Lemma returns_construct (id : N) (s : jsstring) (st' : realm) :
  returns (Normal (construct id s (VObject CONSTRUCTOR_TOKEN_PRIVATE_)), st')
          s (diagnostics st').
Proof.
  exists id, st'. split; [done |]. split; [done |].
  split; [apply construct_payload | apply unwrap_construct].
Qed.

Lemma unwrapsTo_create (c : M object) (s : jsstring) :
  (∀ st, c st = (Normal (wrapped s st), allocated st)) → unwrapsTo c s.
Proof.
  intros H st. exists (allocated st). split; [| done].
  unfold mbind, M_bind. rewrite H. apply unwrap_construct.
Qed.

Lemma tryFromDataUrl_string (s : jsstring) (st : realm) :
  tryFromDataUrl (VString s) st =
  if test DATA_URL_PATTERN_ (removeCrLfEscapes 0 s)
  then (Normal (Some (wrapped (removeCrLfEscapes 0 s) st)), allocated st)
  else (Normal None, st).
Proof.
  unfold tryFromDataUrl, lift. unfold mbind at 1. unfold M_bind at 1.
  cbn [Js.ToString Js.String_]. rewrite replace_CR_LF.
  unfold match_, test. cbn [global DATA_URL_PATTERN_].
  by destruct (exec _ (removeCrLfEscapes 0 s)).
Qed.

Lemma fromDataUrl_string (s : jsstring) (st : realm) :
  fromDataUrl (VString s) st =
  if test DATA_URL_PATTERN_ (removeCrLfEscapes 0 s)
  then (Normal (wrapped (removeCrLfEscapes 0 s) st), allocated st)
  else (Normal INNOCUOUS_URL, st).
Proof.
  unfold fromDataUrl, mbind, M_bind. rewrite tryFromDataUrl_string.
  by destruct (test _ _).
Qed.

Lemma trySanitize_string (s : jsstring) (st : realm) :
  trySanitize (VString s) st =
  if test SAFE_URL_PATTERN_ s
  then (Normal (Some (wrapped s st)), allocated st)
  else tryFromDataUrl (VString s) st.
Proof.
  unfold trySanitize, stringOfUrl, lift. unfold mbind at 1.
  unfold M_bind at 1. cbn zeta. cbn [Js.ToString Js.String_].
  by destruct (test SAFE_URL_PATTERN_ s).
Qed.

Lemma sanitize_string (s : jsstring) (st : realm) :
  sanitize (VString s) st =
  if test SAFE_URL_PATTERN_ s
  then (Normal (wrapped s st), allocated st)
  else fromDataUrl (VString s) st.
Proof.
  unfold sanitize, fromDataUrl, mbind, M_bind. rewrite trySanitize_string.
  by destruct (test SAFE_URL_PATTERN_ s).
Qed.

Lemma sanitizeExtensionUrl_scheme (scheme : string) (url : jsstring)
    (extensionId : ExtensionId) (st : realm) :
  sanitizeExtensionUrl_ (extensionScheme scheme) url extensionId st =
  createSafeUrlSecurityPrivateDoNotAccessOrElse
    (match extensionIdOf scheme url with
     | Some id => if bool_decide (id ∈ whitelist extensionId)
                  then url else INNOCUOUS_STRING
     | None => INNOCUOUS_STRING
     end) st.
Proof.
  unfold sanitizeExtensionUrl_. f_equal.
  pose proof (exec_extensionScheme scheme url) as H.
  destruct (exec (extensionScheme scheme) url) as [e |];
    destruct (extensionIdOf scheme url) as [id |]; try discriminate H;
    [| done].
  injection H as H. unfold compose in H. rewrite H.
  fold (whitelist extensionId).
  pose proof (Array_indexOf_Some (whitelist extensionId) id) as Hi.
  case_bool_decide as Hin.
  - destruct (proj2 Hi Hin) as [k ->]. done.
  - destruct (Js.Array_indexOf (whitelist extensionId) (Some id)) eqn:E;
      [| done].
    destruct Hin. apply Hi. eauto.
Qed.

Lemma sanitizeExtensionUrl_accepted (scheme : string) (url : jsstring)
    (extensionId : ExtensionId) (st : realm) :
  (acceptedExtensionUrl scheme url extensionId →
     sanitizeExtensionUrl_ (extensionScheme scheme) url extensionId st
     = (Normal (wrapped url st), allocated st))
  ∧ (¬ acceptedExtensionUrl scheme url extensionId →
     sanitizeExtensionUrl_ (extensionScheme scheme) url extensionId st
     = (Normal (wrapped INNOCUOUS_STRING st), allocated st)).
Proof.
  rewrite sanitizeExtensionUrl_scheme. unfold acceptedExtensionUrl. split.
  - intros (id & tail & Hu & Hid & Hno & Hin).
    rewrite (proj2 (extensionIdOf_Some scheme url id)) by eauto.
    by rewrite bool_decide_true.
  - intros Hn. destruct (extensionIdOf scheme url) as [id |] eqn:E; [| done].
    apply extensionIdOf_Some in E as (tail & Hu & Hid & Hno).
    rewrite bool_decide_false; [done |].
    intros Hin. apply Hn. exists id, tail. done.
Qed.

Lemma data_scheme_is_not_safe (s : jsstring) :
  goog_string.caseInsensitiveStartsWith s (str "data:") = true →
  s ≠ INNOCUOUS_STRING.
Proof. intros H ->. vm_compute in H. discriminate H. Qed.

Lemma sanitizeAssertUnchanged_eq (url : value) (s : jsstring) (b : bool)
    (st : realm) :
  Js.instanceof url KSafeUrl = false →
  stringOfUrl url st = (Normal s, st) →
  let valid :=
    b && goog_string.caseInsensitiveStartsWith s (str "data:")
    && test DATA_URL_PATTERN_ (removeCrLfEscapes 0 s) in
  let st1 := if valid then allocated st else st in
  let message := s ++ str " does not match the safe URL pattern" in
  sanitizeAssertUnchanged url b st =
  if valid && JsString.eqb (removeCrLfEscapes 0 s) s
  then (Normal (wrapped s st), allocated st)
  else if test SAFE_URL_PATTERN_ s
       then (Normal (wrapped s st1), allocated st1)
       else (Normal (wrapped INNOCUOUS_STRING (reported message st1)),
             allocated (reported message st1)).
Proof.
  intros Hi Hs valid st1 message. subst valid st1.
  assert (Hrun : sanitizeAssertUnchanged url b st
                 = ((if b && test DATA_PREFIX_PATTERN s
                     then fromDataUrl (VString s) ≫= fun safeUrl =>
                          mret (if JsString.eqb
                                     (prototype_getTypedStringValue safeUrl) s
                                then Some safeUrl else None)
                     else mret None) ≫= fun returned =>
                    match returned with
                    | Some safeUrl => mret safeUrl
                    | None =>
                        goog_asserts.assert
                          (test SAFE_URL_PATTERN_ s)
                          (s ++ str " does not match the safe URL pattern")
                        ≫= fun ok =>
                        createSafeUrlSecurityPrivateDoNotAccessOrElse
                          (if negb ok then INNOCUOUS_STRING else s)
                    end) st).
  { unfold sanitizeAssertUnchanged. cbn zeta.
    destruct url as [| | b' | s' | o | i d | i]; try rewrite Hi;
      unfold mbind at 1; unfold M_bind at 1; by rewrite Hs. }
  rewrite Hrun. clear Hrun Hi Hs.
  rewrite test_DATA_PREFIX_PATTERN.
  destruct (b && goog_string.caseInsensitiveStartsWith s (str "data:"))
    eqn:E1; cbn [andb].
  - unfold mbind at 1. unfold M_bind at 1. unfold mbind at 1. unfold M_bind at 1.
    rewrite fromDataUrl_string.
    destruct (test DATA_URL_PATTERN_ (removeCrLfEscapes 0 s)) eqn:E2.
    + cbn [mret M_ret].
      change (prototype_getTypedStringValue (wrapped (removeCrLfEscapes 0 s) st))
        with (removeCrLfEscapes 0 s).
      unfold JsString.eqb. case_bool_decide as E3.
      * cbn [andb]. unfold wrapped. by rewrite E3.
      * cbn [andb]. unfold mbind, M_bind, goog_asserts.assert.
        destruct (test SAFE_URL_PATTERN_ s); reflexivity.
    + cbn [andb mret M_ret].
      replace (JsString.eqb (prototype_getTypedStringValue INNOCUOUS_URL) s)
        with false.
      2:{ symmetry. apply bool_decide_eq_false. intros <-.
          apply andb_true_iff in E1 as [_ E1].
          by apply data_scheme_is_not_safe in E1. }
      unfold mbind, M_bind, goog_asserts.assert.
      destruct (test SAFE_URL_PATTERN_ s); reflexivity.
  - unfold mbind, M_bind, goog_asserts.assert, mret, M_ret.
    destruct (test SAFE_URL_PATTERN_ s); reflexivity.
Qed.

(** The validators by prefix always return: the argument or the
    innocuous string, wrapped. *)
Lemma prefix_validators_total (s : jsstring) (st : realm) :
  (fromTelUrl s st
   = (Normal (wrapped (if goog_string.caseInsensitiveStartsWith s (str "tel:")
                       then s else INNOCUOUS_STRING) st), allocated st))
  ∧ (fromSshUrl s st
     = (Normal (wrapped (if goog_string.caseInsensitiveStartsWith s
                               (str "ssh://")
                         then s else INNOCUOUS_STRING) st), allocated st))
  ∧ (fromFacebookMessengerUrl s st
     = (Normal (wrapped (if goog_string.caseInsensitiveStartsWith s
                               (str "fb-messenger://share")
                         then s else INNOCUOUS_STRING) st), allocated st))
  ∧ (fromWhatsAppUrl s st
     = (Normal (wrapped (if goog_string.caseInsensitiveStartsWith s
                               (str "whatsapp://send")
                         then s else INNOCUOUS_STRING) st), allocated st)).
Proof.
  unfold fromTelUrl, fromSshUrl, fromFacebookMessengerUrl, fromWhatsAppUrl.
  repeat split;
    match goal with
    | |- context [goog_string.caseInsensitiveStartsWith s ?l] =>
        destruct (goog_string.caseInsensitiveStartsWith s l)
    end; reflexivity.
Qed.

(** [isSmsUrlBodyValid_] returns a boolean or throws a TypeError, and
    changes nothing. *)
Lemma isSmsUrlBodyValid_outcomes (s : jsstring) (st : realm) :
  (∃ b, isSmsUrlBodyValid_ s st = (Normal b, st))
  ∨ isSmsUrlBodyValid_ s st = (Throw TypeError, st).
Proof.
  unfold isSmsUrlBodyValid_.
  set (s' := match JsString.indexOf s (ch "#") with
             | Some h => if (0 <? h)%nat then JsString.substring s 0 h else s
             | None => s
             end).
  destruct (match_ s' BODY_PARAMS_PATTERN) as [params |]; [| left; by eexists].
  destruct (1 <? length params)%nat; [left; by eexists |].
  destruct (match_ s' BODY_VALUE_PATTERN) as [groups |]; [| by right].
  left. destruct (default None (groups !! 1%nat)) as [[| u t] |];
    try by eexists.
  unfold try_catch, lift, mbind, M_bind, mret, M_ret.
  destruct (Js.decodeURIComponent (u :: t)); by eexists.
Qed.

Lemma fromSmsUrl_outcomes (s : jsstring) (st : realm) :
  fromSmsUrl s st = (Normal (wrapped s st), allocated st)
  ∨ fromSmsUrl s st = (Normal (wrapped INNOCUOUS_STRING st), allocated st)
  ∨ fromSmsUrl s st = (Throw TypeError, st).
Proof.
  unfold fromSmsUrl, mbind, M_bind, fmap, M_fmap.
  destruct (goog_string.caseInsensitiveStartsWith s (str "sms:")); cbn [negb].
  - destruct (isSmsUrlBodyValid_outcomes s st) as [[b ->] | ->].
    + destruct b; [left | right; left]; reflexivity.
    + right; right; reflexivity.
  - right; left; reflexivity.
Qed.

(** [fromSmsUrl] throws exactly on the strings that start with [sms:]
    and have, before their fragment, one [body] parameter in some case
    and none in lower case. *)
Lemma fromSmsUrl_throws_iff (s : jsstring) (st : realm) :
  let s' := match JsString.indexOf s (ch "#") with
            | Some h => if (0 <? h)%nat then JsString.substring s 0 h else s
            | None => s
            end in
  (∃ e, fromSmsUrl s st = (Throw e, st)) ↔
  goog_string.caseInsensitiveStartsWith s (str "sms:") = true
  ∧ (∃ one, match_ s' BODY_PARAMS_PATTERN = Some [one])
  ∧ match_ s' BODY_VALUE_PATTERN = None.
Proof.
  intros s'. unfold fromSmsUrl, mbind, M_bind, fmap, M_fmap.
  destruct (goog_string.caseInsensitiveStartsWith s (str "sms:")); cbn [negb].
  2:{ split; [intros [e H]; discriminate H | intros (H & _); discriminate H]. }
  unfold isSmsUrlBodyValid_. fold s'.
  pose proof (match_global_nonempty s' BODY_PARAMS_PATTERN eq_refl) as Hne.
  destruct (match_ s' BODY_PARAMS_PATTERN) as [params |].
  2:{ split; [intros [e H]; discriminate H
             | intros (_ & [one H] & _); discriminate H]. }
  destruct params as [| one [| two params]]; [by destruct Hne | |].
  - cbn [length Nat.ltb Nat.leb].
    destruct (match_ s' BODY_VALUE_PATTERN) as [groups |].
    + split; [| intros (_ & _ & H); discriminate H].
      destruct (default None (groups !! 1%nat)) as [[| u t] |];
        try (intros [e H]; discriminate H).
      unfold try_catch, lift, mbind, M_bind, mret, M_ret.
      destruct (Js.decodeURIComponent (u :: t)) as [decoded | err];
        try destruct (test BODY_CHARSET_PATTERN (u :: t));
        intros [e H]; discriminate H.
    + split; [intros _ | intros _; by exists TypeError].
      split; [done |]. split; [by exists one | done].
  - split; [intros [e H]; discriminate H |].
    intros (_ & [one' H] & _). discriminate H.
Qed.

(** [fromSipUrl] throws exactly when its argument cannot be decoded. *)
Lemma fromSipUrl_outcomes (s : jsstring) (st : realm) :
  match Js.decodeURIComponent s with
  | Normal decoded =>
      fromSipUrl s st
      = (Normal (wrapped (if test SIP_URL_PATTERN_ decoded
                          then s else INNOCUOUS_STRING) st), allocated st)
  | Throw e => fromSipUrl s st = (Throw e, st)
  end.
Proof.
  unfold fromSipUrl, lift, mbind, M_bind.
  destruct (Js.decodeURIComponent s) as [decoded | e]; [| done].
  by destruct (test SIP_URL_PATTERN_ decoded).
Qed.

End SafeUrlFacts.

(** * The claims *)

Section Claims.
Import RegExp Grammar SafeUrl.

(** ** The constructor and its token *)

(** C7.  For every string [value_] and every token, [new
    goog.html.SafeUrl(value_, token)] yields an object of exactly the
    SafeUrl type.  When the token is the private constructor token, the
    payload of the object, which [unwrap] returns, is [value_]; for
    every other token it is the empty string.  No value that is not an
    object, and no object allocated once the file is loaded, is the
    private token; so a caller outside the module, which can only pass
    such values, can only construct a SafeUrl wrapping the empty
    string. *)
Theorem constructor_requires_private_token
    (value_ : jsstring) (token : value) (st : realm) :
  ∃ o, SafeUrl.new value_ token st = (Normal o, allocated st)
       ∧ exactlySafeUrl (VObject o)
       ∧ (isPrivateToken token →
          privateDoNotAccessOrElseSafeUrlWrappedValue_ o = value_
          ∧ SafeUrl.unwrap (VObject o) (allocated st)
            = (Normal value_, allocated st))
       ∧ (¬ isPrivateToken token →
          privateDoNotAccessOrElseSafeUrlWrappedValue_ o = []
          ∧ SafeUrl.unwrap (VObject o) (allocated st)
            = (Normal [], allocated st))
       ∧ ((∀ t, token ≠ VObject t) → ¬ isPrivateToken token)
       ∧ (∀ t debug, token = VObject t →
                     (nextIdentity (loaded debug) <= identity t)%N →
                     ¬ isPrivateToken token).
Proof.
  assert (Hdec : Js.strictEquals token (VObject CONSTRUCTOR_TOKEN_PRIVATE_)
                 = true ↔ isPrivateToken token).
  { unfold isPrivateToken. destruct token as [| | b | s | t | i d | i]; cbn;
      try (split; [discriminate | by intros (t & Ht & _)]).
    rewrite N.eqb_eq. split.
    - intros H. by exists t.
    - intros (t' & Ht & H). by injection Ht as <-. }
  eexists. split; [reflexivity |]. split; [by eexists |].
  split; [| split; [| split]].
  - intros H%Hdec. unfold SafeUrl.unwrap, construct. rewrite H.
    split; reflexivity.
  - intros H.
    destruct (Js.strictEquals token (VObject CONSTRUCTOR_TOKEN_PRIVATE_))
      eqn:E; [destruct H; by apply Hdec |].
    unfold SafeUrl.unwrap, construct. rewrite E. split; reflexivity.
  - intros Hno (t & Ht & _). by apply (Hno t).
  - intros t debug -> Hle (t' & Ht & H). injection Ht as <-.
    cbn in Hle, H. lia.
Qed.

Lemma constructor_requires_private_token_witness :
  (* with the private token: the requested string *)
  (∃ o, SafeUrl.new (str "https://example.com/")
          (VObject CONSTRUCTOR_TOKEN_PRIVATE_) (loaded true)
        = (Normal o, allocated (loaded true))
        ∧ privateDoNotAccessOrElseSafeUrlWrappedValue_ o
          = str "https://example.com/"
        ∧ SafeUrl.unwrap (VObject o) (allocated (loaded true))
          = (Normal (str "https://example.com/"), allocated (loaded true)))
  (* with an object of the caller: the empty string *)
  ∧ (∃ o, SafeUrl.new (str "javascript:alert(1)")
            (VObject (Js.plainObject 7)) (loaded true)
          = (Normal o, allocated (loaded true))
          ∧ privateDoNotAccessOrElseSafeUrlWrappedValue_ o = []
          ∧ SafeUrl.unwrap (VObject o) (allocated (loaded true))
            = (Normal [], allocated (loaded true)))
  (* with no token at all: the empty string *)
  ∧ (∃ o, SafeUrl.new (str "javascript:alert(1)") VUndefined (loaded true)
          = (Normal o, allocated (loaded true))
          ∧ privateDoNotAccessOrElseSafeUrlWrappedValue_ o = []
          ∧ SafeUrl.unwrap (VObject o) (allocated (loaded true))
            = (Normal [], allocated (loaded true))).
Proof.
  split; [| split].
  - destruct (constructor_requires_private_token
                (str "https://example.com/")
                (VObject CONSTRUCTOR_TOKEN_PRIVATE_) (loaded true))
      as (o & Hnew & _ & Hin & _).
    exists o. split; [exact Hnew |]. apply Hin.
    exists CONSTRUCTOR_TOKEN_PRIVATE_. split; reflexivity.
  - destruct (constructor_requires_private_token
                (str "javascript:alert(1)") (VObject (Js.plainObject 7))
                (loaded true))
      as (o & Hnew & _ & _ & Hout & _ & Hfresh).
    exists o. split; [exact Hnew |]. apply Hout.
    apply (Hfresh (Js.plainObject 7) true); [reflexivity |]. cbn. lia.
  - destruct (constructor_requires_private_token
                (str "javascript:alert(1)") VUndefined (loaded true))
      as (o & Hnew & _ & _ & Hout & Hnon & _).
    exists o. split; [exact Hnew |]. apply Hout.
    apply Hnon. intros t. discriminate.
Defined.

(** ** unwrap *)




(** ** trySanitize and sanitize on a SafeUrl *)

(** C8.  For every value [u] that is already a SafeUrl, [trySanitize(u)]
    returns [u] itself, the same object, and allocates and reports
    nothing; so does [sanitize(u)]. *)
Theorem trySanitize_returns_SafeUrl_itself (u : object) (st : realm) :
  Js.instanceof (VObject u) KSafeUrl = true →
  trySanitize (VObject u) st = (Normal (Some u), st)
  ∧ sanitize (VObject u) st = (Normal u, st).
Proof.
  intros H. unfold sanitize, mbind, M_bind, trySanitize. rewrite H.
  split; reflexivity.
Qed.

Lemma trySanitize_returns_SafeUrl_itself_witness :
  trySanitize (VObject INNOCUOUS_URL) (loaded false)
  = (Normal (Some INNOCUOUS_URL), loaded false)
  ∧ sanitize (VObject INNOCUOUS_URL) (loaded false)
    = (Normal INNOCUOUS_URL, loaded false).
Proof.
  apply (trySanitize_returns_SafeUrl_itself INNOCUOUS_URL (loaded false)).
  reflexivity.
Defined.

(** ** goog.structs.StringSet *)

(** C10.  [decode_] is a left inverse of [encode_] on strings, and
    [encode_] is injective; a set to which [s] was added has [s]; and
    after any additions to a new set, [has] holds exactly of the strings
    added and [values()] lists exactly the distinct strings added, in
    some order: also for names inherited from [Object.prototype] and
    for strings that start with a space. *)
Theorem StringSet_encoding_is_faithful :
  (∀ s, StringSet.decode_ (StringSet.encode_ s) = s)
  ∧ (∀ s t, StringSet.encode_ s = StringSet.encode_ t → s = t)
  ∧ (∀ this s, StringSet.has (StringSet.add this s) s = true)
  ∧ (∀ l s, StringSet.has (foldl StringSet.add (StringSet.new []) l) s = true
            ↔ s ∈ l)
  ∧ (∀ l, StringSet.values (foldl StringSet.add (StringSet.new []) l)
          ≡ₚ remove_dups l).
Proof.
  split; [exact decode_encode |]. split; [exact encode_inj |].
  split; [| split; [exact has_foldl_add | exact values_foldl_add]].
  intros this s. unfold StringSet.has, StringSet.contains, StringSet.add.
  cbn [StringSet.elements_]. rewrite assignNull_encode.
  unfold StringSet.in_. cbn [StringSet.properties].
  rewrite lookup_insert_eq. rewrite bool_decide_true by eauto. done.
Qed.

Lemma StringSet_encoding_is_faithful_witness :
  StringSet.decode_ (StringSet.encode_ (str "toString")) = str "toString"
  ∧ StringSet.decode_ (StringSet.encode_ (str " x")) = str " x"
  ∧ StringSet.has
      (foldl StringSet.add (StringSet.new [])
             [str "toString"; str " x"; str "toString"])
      (str "toString") = true
  ∧ StringSet.values
      (foldl StringSet.add (StringSet.new [])
             [str "toString"; str " x"; str "toString"])
    ≡ₚ [str "toString"; str " x"].
Proof.
  destruct StringSet_encoding_is_faithful as (Hd & _ & _ & Hh & Hv).
  split; [apply Hd |]. split; [apply Hd |]. split.
  - apply Hh. apply list_elem_of_here.
  - etransitivity; [apply Hv |]. vm_compute remove_dups.
    apply Permutation_swap.
Defined.

(** ** The data-URL validator *)

(** C4.  For every string [s], [tryFromDataUrl(s)] removes the escapes
    [%0A] and [%0D] from [s], and succeeds exactly when the filtered
    string is of the data-URL grammar (read without regard to case, and
    with no condition on the MIME part beyond the pattern): it then
    returns a new SafeUrl wrapping the filtered string, that is, one
    whose payload is the filtered string and which [unwrap] unwraps to
    it, and null otherwise; [fromDataUrl(s)] returns the same SafeUrl on
    success and the innocuous SafeUrl, which unwraps to
    ['about:invalid#zClosurez'], otherwise. *)
Theorem tryFromDataUrl_filters_then_matches (s : jsstring) (st : realm) :
  replace s CR_LF_PATTERN [] = removeCrLfEscapes 0 s
  ∧ (base64DataUrl (removeCrLfEscapes 0 s) →
       ∃ u, tryFromDataUrl (VString s) st = (Normal (Some u), allocated st)
            ∧ fromDataUrl (VString s) st = (Normal u, allocated st)
            ∧ u = wrapped (removeCrLfEscapes 0 s) st
            ∧ yields (fromDataUrl (VString s) st) (removeCrLfEscapes 0 s) st
            ∧ unwrapsTo (fromDataUrl (VString s)) (removeCrLfEscapes 0 s))
  ∧ (¬ base64DataUrl (removeCrLfEscapes 0 s) →
       tryFromDataUrl (VString s) st = (Normal None, st)
       ∧ fromDataUrl (VString s) st = (Normal INNOCUOUS_URL, st)
       ∧ privateDoNotAccessOrElseSafeUrlWrappedValue_ INNOCUOUS_URL
         = str "about:invalid#zClosurez"
       ∧ unwrapsTo (fromDataUrl (VString s)) (str "about:invalid#zClosurez")).
Proof.
  split; [apply replace_CR_LF |].
  assert (Hall : ∀ st', fromDataUrl (VString s) st'
                        = (if test DATA_URL_PATTERN_ (removeCrLfEscapes 0 s)
                           then (Normal (wrapped (removeCrLfEscapes 0 s) st'),
                                 allocated st')
                           else (Normal INNOCUOUS_URL, st'))).
  { intros st'. rewrite fromDataUrl_string.
    by destruct (test DATA_URL_PATTERN_ (removeCrLfEscapes 0 s)). }
  rewrite tryFromDataUrl_string. rewrite <- ok_DATA_URL_PATTERN_.
  destruct (test DATA_URL_PATTERN_ (removeCrLfEscapes 0 s)); split; try done.
  - intros _. eexists. split; [reflexivity |]. split; [apply Hall |].
    split; [reflexivity |]. split; [apply yields_wrapped, Hall |].
    apply unwrapsTo_create. intros st'. by rewrite Hall.
  - intros _. split; [reflexivity |]. split; [apply Hall |].
    split; [reflexivity |].
    intros st'. exists st'. split; [| done].
    unfold mbind, M_bind. by rewrite Hall.
Qed.

Lemma tryFromDataUrl_filters_then_matches_witness :
  (* a MIME type on the allow-list *)
  (∃ u, tryFromDataUrl (VString (str "data:image/png;base64,AA%0AAA="))
          (loaded true)
        = (Normal (Some u), allocated (loaded true))
        ∧ privateDoNotAccessOrElseSafeUrlWrappedValue_ u
          = str "data:image/png;base64,AAAA="
        ∧ SafeUrl.unwrap (VObject u) (allocated (loaded true))
          = (Normal (str "data:image/png;base64,AAAA="),
             allocated (loaded true)))
  (* a MIME type that is not on it *)
  ∧ isSafeMimeType (str "text/html") = false
  ∧ unwrapsTo (fromDataUrl (VString (str "DATA:text/html;BASE64,AAAA")))
              (str "DATA:text/html;BASE64,AAAA")
  (* a body with a unit outside base64 *)
  ∧ tryFromDataUrl (VString (str "data:image/png;base64,AA!A")) (loaded true)
    = (Normal None, loaded true)
  ∧ unwrapsTo (fromDataUrl (VString (str "data:image/png;base64,AA!A")))
              (str "about:invalid#zClosurez").
Proof.
  split; [| split; [reflexivity | split; [| split]]].
  - destruct (tryFromDataUrl_filters_then_matches
                (str "data:image/png;base64,AA%0AAA=") (loaded true))
      as (_ & Hyes & _).
    destruct Hyes as (u & Htry & Hfrom & _ & Hy & _).
    { apply ok_DATA_URL_PATTERN_. vm_compute. reflexivity. }
    exists u. split; [exact Htry |].
    destruct Hy as (u' & Hu & _ & _ & Hp & Hun).
    rewrite Hfrom in Hu. injection Hu as <-.
    split; [exact Hp | exact Hun].
  - destruct (tryFromDataUrl_filters_then_matches
                (str "DATA:text/html;BASE64,AAAA") (loaded true))
      as (_ & Hyes & _).
    destruct Hyes as (u & _ & _ & _ & _ & Hun); [| exact Hun].
    apply ok_DATA_URL_PATTERN_. vm_compute. reflexivity.
  - destruct (tryFromDataUrl_filters_then_matches
                (str "data:image/png;base64,AA!A") (loaded true))
      as (_ & _ & Hno).
    refine (proj1 (Hno _)).
    intros H%ok_DATA_URL_PATTERN_. vm_compute in H. discriminate H.
  - destruct (tryFromDataUrl_filters_then_matches
                (str "data:image/png;base64,AA!A") (loaded true))
      as (_ & _ & Hno).
    refine (proj2 (proj2 (proj2 (Hno _)))).
    intros H%ok_DATA_URL_PATTERN_. vm_compute in H. discriminate H.
Defined.

(** ** sanitize on strings *)

(** C2, as amended.  For every string [x]: if [x] matches the generic
    safe-URL pattern, that is, if it starts with one of the schemes
    [http:], [https:], [mailto:], [ftp:] in any case or has no colon
    before the first [/], [?] or [#], then [sanitize(x)] unwraps to
    exactly [x]; and if [x] does not match it and is not accepted by the
    data-URL validator either, then [sanitize(x)] unwraps to the
    innocuous string ['about:invalid#zClosurez']. *)
Theorem sanitize_string_spec (x : jsstring) :
  test SAFE_URL_PATTERN_ x = safeUrlGrammar x
  ∧ (test SAFE_URL_PATTERN_ x = true → unwrapsTo (sanitize (VString x)) x)
  ∧ (test SAFE_URL_PATTERN_ x = false →
     ¬ base64DataUrl (removeCrLfEscapes 0 x) →
     unwrapsTo (sanitize (VString x)) INNOCUOUS_STRING).
Proof.
  split; [apply test_SAFE_URL_PATTERN_ |]. split.
  - intros H. apply unwrapsTo_create. intros st.
    by rewrite sanitize_string, H.
  - intros H Hn st. exists st. split; [| done].
    unfold mbind, M_bind. rewrite sanitize_string, H, fromDataUrl_string.
    rewrite <- ok_DATA_URL_PATTERN_ in Hn.
    destruct (test DATA_URL_PATTERN_ (removeCrLfEscapes 0 x)); [done |].
    reflexivity.
Qed.

Lemma sanitize_string_spec_witness :
  unwrapsTo (sanitize (VString (str "HTTPS://example.com/a:b"))) 
            (str "HTTPS://example.com/a:b")
  ∧ unwrapsTo (sanitize (VString (str "path/to:file"))) (str "path/to:file")
  ∧ unwrapsTo (sanitize (VString (str "javascript:alert(1)")))
              INNOCUOUS_STRING.
Proof.
  split; [| split].
  - destruct (sanitize_string_spec (str "HTTPS://example.com/a:b"))
      as (_ & Hyes & _).
    apply Hyes. vm_compute. reflexivity.
  - destruct (sanitize_string_spec (str "path/to:file")) as (_ & Hyes & _).
    apply Hyes. vm_compute. reflexivity.
  - destruct (sanitize_string_spec (str "javascript:alert(1)"))
      as (_ & _ & Hno).
    apply Hno.
    + vm_compute. reflexivity.
    + intros H%ok_DATA_URL_PATTERN_. vm_compute in H. discriminate H.
Defined.

(** C2 as stated fails: a base64 data URL whose MIME type is not on the
    allow-list does not match the generic pattern, and [sanitize] does
    not replace it by the innocuous string. *)
Lemma sanitize_keeps_data_url_of_any_mime_type :
  test SAFE_URL_PATTERN_ (str "data:text/html;base64,AAAA") = false
  ∧ mimeTypeOf (str "data:text/html;base64,AAAA") = Some (str "text/html")
  ∧ allowListedDataUrl (str "data:text/html;base64,AAAA") = false
  ∧ unwrapsTo (sanitize (VString (str "data:text/html;base64,AAAA")))
              (str "data:text/html;base64,AAAA")
  ∧ ¬ unwrapsTo (sanitize (VString (str "data:text/html;base64,AAAA")))
                INNOCUOUS_STRING.
Proof.
  split; [vm_compute; reflexivity |].
  split; [vm_compute; reflexivity |].
  split; [vm_compute; reflexivity |].
  split.
  - intros st. exists (allocated st). split; reflexivity.
  - intros H. destruct (H (loaded false)) as (st' & Hrun & _).
    vm_compute in Hrun. discriminate Hrun.
Qed.

(** ** Extension URLs *)

(** C6.  For every url and whitelist, [sanitizeChromeExtensionUrl]
    returns a new SafeUrl wrapping the url, that is, one whose payload
    is the url and which [unwrap] unwraps to it, when the url is
    [chrome-extension://], a non-empty identifier free of [/], then [/],
    and the identifier equals one of the unwrapped whitelist entries;
    in every other case it returns one wrapping the innocuous string.
    The same holds of the Firefox and Edge variants with the schemes
    [moz-extension] and [ms-browser-extension]. *)
Theorem sanitizeExtensionUrl_spec (url : jsstring)
    (extensionId : ExtensionId) (st : realm) :
  ((acceptedExtensionUrl "chrome-extension" url extensionId →
      yields (sanitizeChromeExtensionUrl url extensionId st) url st
      ∧ unwrapsTo (sanitizeChromeExtensionUrl url extensionId) url)
   ∧ (¬ acceptedExtensionUrl "chrome-extension" url extensionId →
      yields (sanitizeChromeExtensionUrl url extensionId st)
             (str "about:invalid#zClosurez") st
      ∧ unwrapsTo (sanitizeChromeExtensionUrl url extensionId)
                  (str "about:invalid#zClosurez")))
  ∧ ((acceptedExtensionUrl "moz-extension" url extensionId →
        yields (sanitizeFirefoxExtensionUrl url extensionId st) url st
        ∧ unwrapsTo (sanitizeFirefoxExtensionUrl url extensionId) url)
     ∧ (¬ acceptedExtensionUrl "moz-extension" url extensionId →
        yields (sanitizeFirefoxExtensionUrl url extensionId st)
               (str "about:invalid#zClosurez") st
        ∧ unwrapsTo (sanitizeFirefoxExtensionUrl url extensionId)
                    (str "about:invalid#zClosurez")))
  ∧ ((acceptedExtensionUrl "ms-browser-extension" url extensionId →
        yields (sanitizeEdgeExtensionUrl url extensionId st) url st
        ∧ unwrapsTo (sanitizeEdgeExtensionUrl url extensionId) url)
     ∧ (¬ acceptedExtensionUrl "ms-browser-extension" url extensionId →
        yields (sanitizeEdgeExtensionUrl url extensionId st)
               (str "about:invalid#zClosurez") st
        ∧ unwrapsTo (sanitizeEdgeExtensionUrl url extensionId)
                    (str "about:invalid#zClosurez"))).
Proof.
  assert (Hone : ∀ scheme (c : M object),
            (∀ st', (acceptedExtensionUrl scheme url extensionId →
                     c st' = (Normal (wrapped url st'), allocated st'))
                    ∧ (¬ acceptedExtensionUrl scheme url extensionId →
                       c st' = (Normal (wrapped INNOCUOUS_STRING st'),
                                allocated st'))) →
            (acceptedExtensionUrl scheme url extensionId →
               yields (c st) url st ∧ unwrapsTo c url)
            ∧ (¬ acceptedExtensionUrl scheme url extensionId →
               yields (c st) (str "about:invalid#zClosurez") st
               ∧ unwrapsTo c (str "about:invalid#zClosurez"))).
  { intros scheme c Hc. split; intros H.
    - split; [by apply yields_wrapped, Hc |].
      apply unwrapsTo_create. intros st'. by apply Hc.
    - split; [by apply yields_wrapped, Hc |].
      apply unwrapsTo_create. intros st'. by apply Hc. }
  split; [| split]; apply Hone; intros st';
    apply sanitizeExtensionUrl_accepted.
Qed.

Lemma sanitizeExtensionUrl_spec_witness :
  (∃ u, sanitizeChromeExtensionUrl (str "chrome-extension://abc/page.html")
          (OneConst {| goog_string.stringConstValueWithSecurityContract_ :=
                         str "abc" |}) (loaded false)
        = (Normal u, allocated (loaded false))
        ∧ privateDoNotAccessOrElseSafeUrlWrappedValue_ u
          = str "chrome-extension://abc/page.html"
        ∧ SafeUrl.unwrap (VObject u) (allocated (loaded false))
          = (Normal (str "chrome-extension://abc/page.html"),
             allocated (loaded false)))
  ∧ (∃ u, sanitizeChromeExtensionUrl (str "chrome-extension://abc/page.html")
            (OneConst {| goog_string.stringConstValueWithSecurityContract_ :=
                           str "xyz" |}) (loaded false)
          = (Normal u, allocated (loaded false))
          ∧ privateDoNotAccessOrElseSafeUrlWrappedValue_ u
            = str "about:invalid#zClosurez"
          ∧ SafeUrl.unwrap (VObject u) (allocated (loaded false))
            = (Normal (str "about:invalid#zClosurez"),
               allocated (loaded false)))
  ∧ unwrapsTo
      (sanitizeFirefoxExtensionUrl (str "moz-extension://abc/")
         (ConstArray [{| goog_string.stringConstValueWithSecurityContract_ :=
                           str "xyz" |};
                      {| goog_string.stringConstValueWithSecurityContract_ :=
                           str "abc" |}]))
      (str "moz-extension://abc/").
Proof.
  assert (Hshow : ∀ r s st, yields r s st →
            ∃ u, r = (Normal u, allocated st)
                 ∧ privateDoNotAccessOrElseSafeUrlWrappedValue_ u = s
                 ∧ SafeUrl.unwrap (VObject u) (allocated st)
                   = (Normal s, allocated st)).
  { intros r s st (u & Hr & _ & _ & Hp & Hu). by exists u. }
  split; [| split].
  - apply Hshow.
    refine (proj1 (proj1 (proj1 (sanitizeExtensionUrl_spec
                            (str "chrome-extension://abc/page.html")
                            (OneConst {| goog_string.stringConstValueWithSecurityContract_ :=
                                           str "abc" |})
                            (loaded false))) _)).
    exists (str "abc"), (str "page.html").
    split; [reflexivity |]. split; [discriminate |]. split.
    + intros H. apply list_elem_of_In in H. vm_compute in H.
      repeat (destruct H as [H | H]; [discriminate H |]). exact H.
    + apply list_elem_of_here.
  - apply Hshow.
    refine (proj1 (proj2 (proj1 (sanitizeExtensionUrl_spec
                            (str "chrome-extension://abc/page.html")
                            (OneConst {| goog_string.stringConstValueWithSecurityContract_ :=
                                           str "xyz" |})
                            (loaded false))) _)).
    intros (id & tail & Hu & Hid & Hno & Hin).
    assert (E : extensionIdOf "chrome-extension"
                  (str "chrome-extension://abc/page.html") = Some id)
      by (apply extensionIdOf_Some; eauto).
    vm_compute in E. injection E as <-.
    apply list_elem_of_In in Hin. vm_compute in Hin.
    destruct Hin as [Hin | []]. discriminate Hin.
  - refine (proj2 (proj1 (proj1 (proj2 (sanitizeExtensionUrl_spec
                            (str "moz-extension://abc/")
                            (ConstArray [{| goog_string.stringConstValueWithSecurityContract_ :=
                                              str "xyz" |};
                                         {| goog_string.stringConstValueWithSecurityContract_ :=
                                              str "abc" |}])
                            (loaded false)))) _)).
    exists (str "abc"), []. split; [reflexivity |]. split; [discriminate |].
    split.
    + intros H. apply list_elem_of_In in H. vm_compute in H.
      repeat (destruct H as [H | H]; [discriminate H |]). exact H.
    + apply list_elem_of_further, list_elem_of_here.
Defined.

(** ** sanitizeAssertUnchanged *)

(** C9, as amended.  For every [url] and flag, [sanitizeAssertUnchanged]
    returns the argument itself if it is already a SafeUrl.  Otherwise
    the string of the argument is taken, and the call throws a
    TypeError, with no report and no allocation, when there is none: on
    null, on an object without a conversion to a string, and on an
    object that bears the typed-string mark without the accessor.  For
    every other argument there is such a string [s] (the argument
    itself if it is a string, the typed-string value of a marked
    object), and on it: if the flag is set, [s] starts with [data:] in
    any case, and the data-URL validator accepts [s] with an output
    equal to [s], the result is a SafeUrl wrapping [s]; if the generic
    safe-URL pattern matches [s], the result is a SafeUrl wrapping [s];
    and in the remaining case an assertion failure is reported, as a
    diagnostic only (the call returns normally whether assertions are
    enabled or not), and the result is a SafeUrl wrapping the innocuous
    string. *)
Theorem sanitizeAssertUnchanged_spec (url : value) (opt_allowDataUrl : bool)
    (st : realm) :
  (∀ o, url = VObject o → Js.instanceof url KSafeUrl = true →
        sanitizeAssertUnchanged url opt_allowDataUrl st = (Normal o, st))
  ∧ (Js.instanceof url KSafeUrl = false → withoutString url →
     sanitizeAssertUnchanged url opt_allowDataUrl st = (Throw TypeError, st))
  ∧ (Js.instanceof url KSafeUrl = false → ¬ withoutString url →
     ∃ s, stringOfUrl url st = (Normal s, st)
          ∧ (∀ x, url = VString x → s = x)
          ∧ (∀ o x, url = VObject o →
                    implementsGoogStringTypedString o = true →
                    getTypedStringValue o = Some x → s = x))
  ∧ (∀ s, Js.instanceof url KSafeUrl = false →
          stringOfUrl url st = (Normal s, st) →
          let viaDataUrl :=
            opt_allowDataUrl = true
            ∧ goog_string.caseInsensitiveStartsWith s (str "data:") = true
            ∧ base64DataUrl (removeCrLfEscapes 0 s)
            ∧ removeCrLfEscapes 0 s = s in
          (viaDataUrl →
             returns (sanitizeAssertUnchanged url opt_allowDataUrl st)
                     s (diagnostics st))
          ∧ (test SAFE_URL_PATTERN_ s = true →
             returns (sanitizeAssertUnchanged url opt_allowDataUrl st)
                     s (diagnostics st))
          ∧ (¬ viaDataUrl → test SAFE_URL_PATTERN_ s = false →
             ∃ message,
               returns (sanitizeAssertUnchanged url opt_allowDataUrl st)
                       INNOCUOUS_STRING (message :: diagnostics st))).
Proof.
  split; [| split; [| split]].
  - intros o -> H. unfold sanitizeAssertUnchanged. by rewrite H.
  - intros Hi Hw.
    assert (Hs : stringOfUrl url st = (Throw TypeError, st)).
    { destruct Hw as [-> | [(i & ->) | (o & -> & Hm & Hg)]];
        [reflexivity | reflexivity |].
      unfold stringOfUrl. by rewrite Hm, Hg. }
    unfold sanitizeAssertUnchanged. cbn zeta.
    destruct url as [| | b' | s' | o | i d | i]; try rewrite Hi;
      unfold mbind at 1; unfold M_bind at 1; by rewrite Hs.
  - intros _ Hw. destruct url as [| | b' | s' | o | i d | i].
    + eexists. split; [reflexivity |]. split; [discriminate |]. discriminate.
    + destruct Hw. by left.
    + eexists. split; [reflexivity |]. split; [discriminate |]. discriminate.
    + eexists. split; [reflexivity |]. split; [| discriminate].
      by intros x [= ->].
    + unfold stringOfUrl.
      destruct (implementsGoogStringTypedString o) eqn:Hm.
      * destruct (getTypedStringValue o) as [x |] eqn:Hg.
        -- exists x. split; [reflexivity |]. split; [discriminate |].
           intros o' x' [= <-] _ Hg'. congruence.
        -- destruct Hw. right. right. by exists o.
      * eexists. split; [reflexivity |]. split; [discriminate |].
        intros o' x' [= <-] Hm'. congruence.
    + eexists. split; [reflexivity |]. split; [discriminate |]. discriminate.
    + destruct Hw. right. left. by exists i.
  - intros s Hi Hs.
    rewrite (sanitizeAssertUnchanged_eq url s opt_allowDataUrl st Hi Hs).
    clear Hi Hs. cbn zeta. rewrite <- ok_DATA_URL_PATTERN_. unfold JsString.eqb.
    destruct opt_allowDataUrl;
      destruct (goog_string.caseInsensitiveStartsWith s (str "data:"));
      destruct (test DATA_URL_PATTERN_ (removeCrLfEscapes 0 s));
      cbn [andb];
      try (case_bool_decide as E);
      repeat split;
      try (intros (? & ? & ? & ?); congruence);
      try (intros Hsafe; rewrite ?Hsafe; by_construction);
      try (intros Hn Hsafe; try (destruct Hn; done); rewrite ?Hsafe;
           eexists; by_construction);
      try (intros _; by_construction).
Qed.

Lemma sanitizeAssertUnchanged_spec_witness :
  sanitizeAssertUnchanged (VObject ABOUT_BLANK) false (loaded true)
  = (Normal ABOUT_BLANK, loaded true)
  ∧ sanitizeAssertUnchanged VNull true (loaded false)
    = (Throw TypeError, loaded false)
  ∧ returns (sanitizeAssertUnchanged
               (VString (str "data:image/png;base64,AAAA")) true
               (loaded true))
            (str "data:image/png;base64,AAAA") []
  ∧ returns (sanitizeAssertUnchanged (VString (str "/a?b:c")) false
               (loaded true))
            (str "/a?b:c") []
  ∧ (∃ message,
       returns (sanitizeAssertUnchanged (VObject lookAlike) true
                  (loaded true))
               INNOCUOUS_STRING [message]).
Proof.
  split; [| split; [| split; [| split]]].
  - exact (proj1 (sanitizeAssertUnchanged_spec (VObject ABOUT_BLANK) false
                    (loaded true)) ABOUT_BLANK eq_refl eq_refl).
  - apply (proj1 (proj2 (sanitizeAssertUnchanged_spec VNull true
                           (loaded false)))).
    + reflexivity.
    + left. reflexivity.
  - destruct (proj2 (proj2 (proj2 (sanitizeAssertUnchanged_spec
                       (VString (str "data:image/png;base64,AAAA")) true
                       (loaded true))))
                (str "data:image/png;base64,AAAA") eq_refl eq_refl)
      as (Hdata & _ & _).
    apply Hdata.
    split; [reflexivity |]. split; [vm_compute; reflexivity |].
    split; [| vm_compute; reflexivity].
    apply ok_DATA_URL_PATTERN_. vm_compute. reflexivity.
  - destruct (proj2 (proj2 (proj2 (sanitizeAssertUnchanged_spec
                       (VString (str "/a?b:c")) false (loaded true))))
                (str "/a?b:c") eq_refl eq_refl)
      as (_ & Hsafe & _).
    apply Hsafe. vm_compute. reflexivity.
  - destruct (proj2 (proj2 (proj2 (sanitizeAssertUnchanged_spec
                       (VObject lookAlike) true (loaded true))))
                (str "javascript:alert(1)") eq_refl eq_refl)
      as (_ & _ & Hfail).
    apply Hfail.
    + intros (_ & H & _). vm_compute in H. discriminate H.
    + vm_compute. reflexivity.
Defined.

(** C9 as stated fails: the call aborts on null, whatever the flag and
    whether assertions are enabled or not, and on an object that bears
    the typed-string mark without the accessor. *)
Lemma sanitizeAssertUnchanged_aborts_on_null :
  sanitizeAssertUnchanged VNull false (loaded false)
  = (Throw TypeError, loaded false)
  ∧ sanitizeAssertUnchanged VNull true (loaded true)
    = (Throw TypeError, loaded true)
  ∧ sanitizeAssertUnchanged (VObject markedOnly) false (loaded false)
    = (Throw TypeError, loaded false).
Proof. split; [| split]; reflexivity. Qed.

(** ** The scheme validators *)

(** C1, at two failing inputs.  [fromSipUrl] decodes its argument
    outside of any [try]: on ['%'] the URIError of [decodeURIComponent]
    escapes.  [fromSmsUrl] counts the [body] parameters without regard
    to case and then reads the value with a pattern that regards case:
    on ['sms:123?BODY=hello'] the second match is null and reading its
    element 1 throws a TypeError. *)
Theorem scheme_validators_throw_at (st : realm) :
  fromSipUrl (str "%") st = (Throw URIError, st)
  ∧ fromSmsUrl (str "sms:123?BODY=hello") st = (Throw TypeError, st).
Proof. split; reflexivity. Qed.

(** C5, on the examples of the claim and at a failing input.  The
    three examples behave as claimed; on ['sms:123?Body=hello'], which
    starts with [sms:] and has one [body] parameter, [fromSmsUrl]
    returns neither the argument nor the innocuous string: it throws a
    TypeError. *)
Theorem fromSmsUrl_examples_and_failure (st : realm) :
  fromSmsUrl (str "sms:123?body=hello") st
  = (Normal (wrapped (str "sms:123?body=hello") st), allocated st)
  ∧ fromSmsUrl (str "sms:123?body=a&body=b") st
    = (Normal (wrapped INNOCUOUS_STRING st), allocated st)
  ∧ fromSmsUrl (str "sms:123?body=%zz") st
    = (Normal (wrapped INNOCUOUS_STRING st), allocated st)
  ∧ goog_string.caseInsensitiveStartsWith
      (str "sms:123?Body=hello") (str "sms:") = true
  ∧ match_ (str "sms:123?Body=hello") BODY_PARAMS_PATTERN
    = Some [Some (str "?Body=")]
  ∧ fromSmsUrl (str "sms:123?Body=hello") st = (Throw TypeError, st).
Proof. repeat split; reflexivity. Qed.

End Claims.

(** * Further properties *)

(** ** goog.structs.StringSet: the operations on two sets *)

Section StringSetOps.
Import StringSet.

Lemma StringSet_eq (a b : StringSet) :
  inheritsObjectPrototype (elements_ a) = inheritsObjectPrototype (elements_ b) →
  (∀ k, properties (elements_ a) !! k = properties (elements_ b) !! k) →
  a = b.
Proof.
  destruct a as [[pa ia]], b as [[pb ib]]. simpl. intros -> H.
  do 2 f_equal. by apply map_eq.
Qed.

Lemma falseAtFirst_true {A} (stop : A → bool) (l : list A) :
  falseAtFirst stop l = true ↔ ∀ a, a ∈ l → stop a = false.
Proof.
  induction l as [| a l IH]; simpl.
  - split; [| done]. intros _ a Ha. by apply elem_of_nil in Ha.
  - destruct (stop a) eqn:E.
    + split; [done |]. intros H.
      specialize (H a (list_elem_of_here _ _)). congruence.
    + rewrite IH. split.
      * intros H b Hb. apply elem_of_cons in Hb as [-> | Hb]; auto.
      * intros H b Hb. by apply H, list_elem_of_further.
Qed.

Lemma encode_elem_of (s : jsstring) (l : list jsstring) :
  encode_ s ∈ encode_ <$> l ↔ s ∈ l.
Proof.
  rewrite list_elem_of_fmap. split.
  - intros (t & He & Ht). by apply encode_inj in He as ->.
  - intros H. by exists s.
Qed.

(** The table after additions: the encoded elements are added to the own
    keys, and the prototype is kept. *)
Lemma foldl_add_lookup (l : list jsstring) (this : StringSet) :
  inheritsObjectPrototype (elements_ (foldl add this l))
    = inheritsObjectPrototype (elements_ this)
  ∧ ∀ k, properties (elements_ (foldl add this l)) !! k
         = if bool_decide (k ∈ encode_ <$> l) then Some VNull
           else properties (elements_ this) !! k.
Proof.
  revert this. induction l as [| a l IH]; intros this; cbn [foldl].
  - split; [done |]. intros k. rewrite bool_decide_false; [done |].
    apply not_elem_of_nil.
  - rewrite fmap_cons. destruct (IH (add this a)) as [IH1 IH2]. split.
    + rewrite IH1. unfold add. simpl. by rewrite assignNull_encode.
    + intros k. rewrite IH2. unfold add at 1. simpl.
      rewrite assignNull_encode. simpl.
      destruct (decide (k ∈ encode_ <$> l)) as [Hin | Hin].
      * rewrite !bool_decide_true; [done | | done].
        by apply list_elem_of_further.
      * rewrite (bool_decide_false _ Hin).
        destruct (decide (encode_ a = k)) as [<- | Hne].
        -- rewrite lookup_insert_eq, bool_decide_true; [done |].
           apply list_elem_of_here.
        -- rewrite lookup_insert_ne by done.
           rewrite bool_decide_false; [done |].
           intros [? | ?]%elem_of_cons; congruence.
Qed.

Lemma new_inherits (l : list jsstring) :
  inheritsObjectPrototype (elements_ (new l)) = true.
Proof. apply (foldl_add_lookup l (new [])). Qed.

Lemma new_lookup (l : list jsstring) (k : jsstring) :
  properties (elements_ (new l)) !! k
  = if bool_decide (k ∈ encode_ <$> l) then Some VNull else None.
Proof.
  destruct (foldl_add_lookup l (new [])) as [_ H].
  change (new l) with (foldl add (new []) l). rewrite H.
  by destruct (bool_decide _).
Qed.

(** Two arrays with the same elements make the same set. *)
Lemma new_ext (l1 l2 : list jsstring) :
  (∀ s, s ∈ l1 ↔ s ∈ l2) → new l1 = new l2.
Proof.
  intros H. apply StringSet_eq.
  - by rewrite !new_inherits.
  - intros k. rewrite !new_lookup. apply (f_equal (fun b : bool => if b then _ else _)).
    apply bool_decide_ext. rewrite !list_elem_of_fmap.
    split; intros (s & -> & Hs); exists s; (split; [done |]); by apply H.
Qed.

Lemma Object_keys_spec (o : table) (k : jsstring) :
  k ∈ Object_keys o ↔ is_Some (properties o !! k).
Proof.
  unfold Object_keys. rewrite list_elem_of_fmap. split.
  - intros ([k' v] & -> & H%elem_of_map_to_list). by exists v.
  - intros [v H]. exists (k, v). split; [done |].
    by apply elem_of_map_to_list.
Qed.

Lemma Object_keys_new (l : list jsstring) (k : jsstring) :
  k ∈ Object_keys (elements_ (new l)) ↔ k ∈ encode_ <$> l.
Proof.
  rewrite Object_keys_spec, new_lookup.
  destruct (decide (k ∈ encode_ <$> l)) as [H | H].
  - rewrite (bool_decide_true _ H). split; [done | by eexists].
  - rewrite (bool_decide_false _ H). split; [by intros [? ?] | done].
Qed.

Lemma Object_keys_new_encoded (l : list jsstring) (k : jsstring) :
  k ∈ Object_keys (elements_ (new l)) → ∃ s, s ∈ l ∧ k = encode_ s.
Proof.
  rewrite Object_keys_new, list_elem_of_fmap. intros (s & -> & Hs). eauto.
Qed.

(** On a set made by the constructor, [in] finds an encoded key among
    the own keys only. *)
Lemma in_new (l : list jsstring) (s : jsstring) :
  in_ (encode_ s) (elements_ (new l)) = bool_decide (s ∈ l).
Proof.
  unfold in_. rewrite new_inherits, new_lookup.
  rewrite (bool_decide_false _ (encode_not_inherited s)), orb_false_r.
  apply bool_decide_ext. rewrite <- (encode_elem_of s l).
  destruct (bool_decide (encode_ s ∈ encode_ <$> l)) eqn:E.
  - apply bool_decide_eq_true in E. split; [done | by eexists].
  - apply bool_decide_eq_false in E. split; [by intros [? ?] | done].
Qed.

(** A loop of conditional assignments of encoded keys. *)
Lemma foldl_assign (f : jsstring → bool) (ks : list jsstring)
    (this : StringSet) :
  (∀ k, k ∈ ks → ∃ s, k = encode_ s) →
  let ret := foldl (fun this key =>
                      if f key
                      then {| elements_ := assignNull key (elements_ this) |}
                      else this) this ks in
  inheritsObjectPrototype (elements_ ret)
    = inheritsObjectPrototype (elements_ this)
  ∧ ∀ k, properties (elements_ ret) !! k
         = if bool_decide (k ∈ ks) && f k then Some VNull
           else properties (elements_ this) !! k.
Proof.
  revert this. induction ks as [| a ks IH]; intros this Hks; cbn [foldl].
  - split; [done |]. intros k. rewrite bool_decide_false; [done |].
    apply not_elem_of_nil.
  - destruct (Hks a (list_elem_of_here _ _)) as [s ->].
    set (this' := if f (encode_ s) then _ else this).
    destruct (IH this') as [IH1 IH2].
    { intros k Hk. by apply Hks, list_elem_of_further. }
    assert (H' : inheritsObjectPrototype (elements_ this')
                 = inheritsObjectPrototype (elements_ this)
                 ∧ ∀ k, properties (elements_ this') !! k
                        = if bool_decide (k = encode_ s) && f k then Some VNull
                          else properties (elements_ this) !! k).
    { unfold this'. destruct (f (encode_ s)) eqn:Ef; simpl.
      - rewrite assignNull_encode. simpl. split; [done |]. intros k.
        destruct (decide (k = encode_ s)) as [-> | Hne].
        + by rewrite lookup_insert_eq, bool_decide_true, Ef.
        + rewrite lookup_insert_ne by done.
          by rewrite (bool_decide_false _ Hne).
      - split; [done |]. intros k.
        destruct (decide (k = encode_ s)) as [-> | Hne].
        + by rewrite bool_decide_true, Ef.
        + by rewrite (bool_decide_false _ Hne). }
    destruct H' as [H1 H2]. split; [by rewrite IH1 |].
    intros k. rewrite IH2, H2.
    destruct (decide (k ∈ ks)) as [Hin | Hin].
    + rewrite (bool_decide_true _ Hin).
      rewrite (bool_decide_true (k ∈ encode_ s :: ks));
        [| by apply list_elem_of_further].
      simpl. destruct (f k); [done |]. by rewrite andb_false_r.
    + rewrite (bool_decide_false _ Hin). simpl.
      destruct (decide (k = encode_ s)) as [-> | Hne].
      * rewrite !bool_decide_true; [done | apply list_elem_of_here | done].
      * rewrite !bool_decide_false; [done | | done].
        intros [? | ?]%elem_of_cons; congruence.
Qed.

(** A loop of deletions. *)
Lemma foldl_delete {A} (g : A → jsstring) (l : list A) (this : StringSet) :
  let ret := foldl (fun this a =>
                      {| elements_ := deleteKey (g a) (elements_ this) |})
                   this l in
  inheritsObjectPrototype (elements_ ret)
    = inheritsObjectPrototype (elements_ this)
  ∧ ∀ k, properties (elements_ ret) !! k
         = if bool_decide (k ∈ g <$> l) then None
           else properties (elements_ this) !! k.
Proof.
  revert this. induction l as [| a l IH]; intros this; cbn [foldl].
  - split; [done |]. intros k. rewrite bool_decide_false; [done |].
    apply not_elem_of_nil.
  - rewrite fmap_cons.
    destruct (IH {| elements_ := deleteKey (g a) (elements_ this) |})
      as [IH1 IH2].
    split; [by rewrite IH1 |]. intros k. rewrite IH2.
    cbn [elements_ deleteKey properties].
    destruct (decide (k ∈ g <$> l)) as [Hin | Hin].
    + rewrite !bool_decide_true; [done | by apply list_elem_of_further | done].
    + rewrite (bool_decide_false _ Hin).
      destruct (decide (g a = k)) as [<- | Hne].
      * rewrite lookup_delete_eq, bool_decide_true; [done |].
        apply list_elem_of_here.
      * rewrite lookup_delete_ne by done.
        rewrite bool_decide_false; [done |].
        intros [? | ?]%elem_of_cons; congruence.
Qed.

Lemma foldl_assign_all (ks : list jsstring) (this : StringSet) :
  (∀ k, k ∈ ks → ∃ s, k = encode_ s) →
  let ret := foldl (fun this key =>
                      {| elements_ := assignNull key (elements_ this) |})
                   this ks in
  inheritsObjectPrototype (elements_ ret)
    = inheritsObjectPrototype (elements_ this)
  ∧ ∀ k, properties (elements_ ret) !! k
         = if bool_decide (k ∈ ks) then Some VNull
           else properties (elements_ this) !! k.
Proof.
  intros Hks. destruct (foldl_assign (fun _ => true) ks this Hks) as [H1 H2].
  split; [exact H1 |]. intros k. specialize (H2 k).
  rewrite andb_true_r in H2. exact H2.
Qed.

Lemma keys_new_encoded (l : list jsstring) (k : jsstring) :
  k ∈ Object_keys (elements_ (new l)) → ∃ s, k = encode_ s.
Proof. intros (s & _ & ->)%Object_keys_new_encoded. eauto. Qed.

(** Case analysis on the key [k] of a lookup: a key of the first set,
    that is the code of an element of [l], or none. *)
Ltac by_key k l :=
  let s := fresh "s" in
  let Hs := fresh "Hs" in
  let Hk := fresh "Hk" in
  destruct (decide (k ∈ encode_ <$> l)) as [(s & -> & Hs)%list_elem_of_fmap | Hk].

Ltac decide_members :=
  repeat case_bool_decide; simpl; try done; exfalso;
  repeat match goal with
         | H : context [_ ∈ Object_keys (elements_ (new _))] |- _ =>
             rewrite Object_keys_new in H
         | H : context [encode_ _ ∈ encode_ <$> _] |- _ =>
             rewrite encode_elem_of in H
         | H : context [_ ∈ filter _ _] |- _ =>
             rewrite list_elem_of_filter in H
         | H : context [_ ∈ _ ++ _] |- _ =>
             rewrite elem_of_app in H
         | H : context [_ <$> (_ ++ _)] |- _ =>
             rewrite fmap_app in H
         end;
  try tauto;
  try match goal with H : _ ∈ [] |- _ => by apply elem_of_nil in H end.

Lemma addSet_new (l1 l2 : list jsstring) :
  addSet (new l1) (new l2) = new (l1 ++ l2).
Proof.
  unfold addSet.
  destruct (foldl_assign_all (Object_keys (elements_ (new l2))) (new l1)
              (keys_new_encoded l2)) as [H1 H2].
  apply StringSet_eq.
  - by rewrite H1, !new_inherits.
  - intros k. rewrite H2, !new_lookup. decide_members.
Qed.

Lemma clone_new (l : list jsstring) : clone (new l) = new l.
Proof. unfold clone. apply (addSet_new [] l). Qed.

Lemma addDifference_new (l l1 l2 : list jsstring) :
  addDifference_ (new l) (new l1) (new l2)
  = new (l ++ filter (fun s => s ∉ l2) l1).
Proof.
  unfold addDifference_.
  destruct (foldl_assign (fun key => negb (in_ key (elements_ (new l2))))
              (Object_keys (elements_ (new l1))) (new l)
              (keys_new_encoded l1)) as [H1 H2].
  apply StringSet_eq.
  - by rewrite H1, !new_inherits.
  - intros k. rewrite H2, !new_lookup. by_key k l1.
    + rewrite in_new. decide_members.
    + rewrite (bool_decide_false (k ∈ Object_keys _));
        [| by rewrite Object_keys_new].
      simpl. rewrite fmap_app.
      assert (k ∉ encode_ <$> filter (fun s => s ∉ l2) l1).
      { intros (s & -> & Hs%list_elem_of_filter)%list_elem_of_fmap.
        apply Hk, encode_elem_of, Hs. }
      decide_members.
Qed.

Lemma getIntersection_new (l1 l2 : list jsstring) :
  getIntersection (new l1) (new l2) = new (filter (fun s => s ∈ l2) l1).
Proof.
  unfold getIntersection.
  destruct (foldl_assign (fun key => in_ key (elements_ (new l2)))
              (Object_keys (elements_ (new l1))) (new [])
              (keys_new_encoded l1)) as [H1 H2].
  apply StringSet_eq.
  - by rewrite H1, !new_inherits.
  - intros k. rewrite H2, !new_lookup. by_key k l1.
    + rewrite in_new. decide_members.
    + rewrite (bool_decide_false (k ∈ Object_keys _));
        [| by rewrite Object_keys_new].
      simpl.
      assert (k ∉ encode_ <$> filter (fun s => s ∈ l2) l1).
      { intros (s & -> & Hs%list_elem_of_filter)%list_elem_of_fmap.
        apply Hk, encode_elem_of, Hs. }
      decide_members.
Qed.

Lemma removeArray_new (l arr : list jsstring) :
  removeArray (new l) arr = new (filter (fun s => s ∉ arr) l).
Proof.
  unfold removeArray.
  destruct (foldl_delete encode_ arr (new l)) as [H1 H2].
  apply StringSet_eq.
  - by rewrite H1, !new_inherits.
  - intros k. rewrite H2, !new_lookup. by_key k l.
    + decide_members.
    + assert (k ∉ encode_ <$> filter (fun s => s ∉ arr) l).
      { intros (s & -> & Hs%list_elem_of_filter)%list_elem_of_fmap.
        apply Hk, encode_elem_of, Hs. }
      decide_members.
Qed.

Lemma removeSet_new (l1 l2 : list jsstring) :
  removeSet (new l1) (new l2) = new (filter (fun s => s ∉ l2) l1).
Proof.
  unfold removeSet.
  destruct (foldl_delete id (Object_keys (elements_ (new l2))) (new l1))
    as [H1 H2].
  unfold id in H1, H2. apply StringSet_eq.
  - by rewrite H1, !new_inherits.
  - intros k. rewrite H2, !new_lookup, list_fmap_id. by_key k l1.
    + decide_members.
    + assert (k ∉ encode_ <$> filter (fun s => s ∉ l2) l1).
      { intros (s & -> & Hs%list_elem_of_filter)%list_elem_of_fmap.
        apply Hk, encode_elem_of, Hs. }
      decide_members.
Qed.

Lemma isSubsetOf_new (l1 l2 : list jsstring) :
  isSubsetOf (new l1) (new l2) = true ↔ ∀ s, s ∈ l1 → s ∈ l2.
Proof.
  unfold isSubsetOf. rewrite falseAtFirst_true. split.
  - intros H s Hs. specialize (H (encode_ s)).
    rewrite in_new in H. apply negb_false_iff, bool_decide_eq_true in H;
      [done |]. by apply Object_keys_new, encode_elem_of.
  - intros H k (s & Hs & ->)%Object_keys_new_encoded.
    rewrite in_new. apply negb_false_iff, bool_decide_eq_true. auto.
Qed.

Lemma isDisjoint_new (l1 l2 : list jsstring) :
  isDisjoint (new l1) (new l2) = true ↔ ∀ s, s ∈ l1 → s ∉ l2.
Proof.
  unfold isDisjoint. rewrite falseAtFirst_true. split.
  - intros H s Hs. specialize (H (encode_ s)).
    rewrite in_new in H. apply bool_decide_eq_false in H;
      [done |]. by apply Object_keys_new, encode_elem_of.
  - intros H k (s & Hs & ->)%Object_keys_new_encoded.
    rewrite in_new. apply bool_decide_eq_false. auto.
Qed.

(** Two sets made by the constructor are the same when they have the
    same elements. *)
Lemma new_eq_iff (l1 l2 : list jsstring) :
  new l1 = new l2 ↔ ∀ s, s ∈ l1 ↔ s ∈ l2.
Proof.
  split; [| apply new_ext]. intros H s.
  pose proof (in_new l1 s) as E1. pose proof (in_new l2 s) as E2.
  rewrite H, E2 in E1. split; intros Hs.
  - apply (bool_decide_eq_true_1 (s ∈ l2)). rewrite E1.
    by apply bool_decide_eq_true_2.
  - apply (bool_decide_eq_true_1 (s ∈ l1)). rewrite <- E1.
    by apply bool_decide_eq_true_2.
Qed.

Lemma Object_keys_new_Permutation (l : list jsstring) :
  Object_keys (elements_ (new l)) ≡ₚ remove_dups (encode_ <$> l).
Proof.
  apply NoDup_Permutation.
  - apply NoDup_fst_map_to_list.
  - apply NoDup_remove_dups.
  - intros k. by rewrite Object_keys_new, elem_of_remove_dups.
Qed.

End StringSetOps.

Section StringSetAlgebra.
Import StringSet.

Lemma has_new (l : list jsstring) (s : jsstring) :
  has (new l) s = bool_decide (s ∈ l).
Proof. apply in_new. Qed.

(** X1.  [delete(s)] on the set of the elements of [l] leaves the set of
    the elements of [l] other than [s] and returns whether [s] was in
    the set; deleting an element that is not in the set changes
    nothing.  Afterwards the set does not have [s] and has every other
    string exactly as before.  [remove] is the same operation. *)
Theorem StringSet_delete_spec (l : list jsstring) (s : jsstring) :
  delete_ (new l) s = (new (filter (fun t => t ≠ s) l), bool_decide (s ∈ l))
  ∧ remove (new l) s = delete_ (new l) s
  ∧ (s ∉ l → delete_ (new l) s = (new l, false))
  ∧ has (delete_ (new l) s).1 s = false
  ∧ (∀ t, t ≠ s → has (delete_ (new l) s).1 t = has (new l) t).
Proof.
  assert (E : delete_ (new l) s
              = (new (filter (fun t => t ≠ s) l), bool_decide (s ∈ l))).
  { unfold delete_. rewrite in_new. case_bool_decide as Hs.
    - f_equal. destruct (foldl_delete encode_ [s] (new l)) as [H1 H2].
      cbn [foldl] in H1, H2. apply StringSet_eq.
      + by rewrite H1, !new_inherits.
      + intros k. rewrite H2, !new_lookup.
        assert (Hk : k ∈ encode_ <$> filter (fun t => t ≠ s) l
                     ↔ k ∈ encode_ <$> l ∧ k ≠ encode_ s).
        { rewrite !list_elem_of_fmap. split.
          - intros (t & -> & [Hne Ht]%list_elem_of_filter). split; [eauto |].
            intros He. by apply encode_inj in He.
          - intros [(t & -> & Ht) Hne]. exists t. split; [done |].
            apply list_elem_of_filter. split; [congruence | done]. }
        destruct (decide (k = encode_ s)) as [-> | Hne].
        * rewrite (bool_decide_true (encode_ s ∈ encode_ <$> [s]));
            [| apply list_elem_of_here].
          rewrite bool_decide_false; [done |]. rewrite Hk. tauto.
        * rewrite (bool_decide_false (k ∈ encode_ <$> [s]));
            [| by intros ?%list_elem_of_singleton].
          apply (f_equal (fun b : bool => if b then _ else _)).
          apply bool_decide_ext. rewrite Hk. tauto.
    - f_equal. apply new_ext. intros t. rewrite list_elem_of_filter.
      split; [| tauto]. intros Ht. split; [congruence | done]. }
  split; [exact E |]. split; [done |]. split.
  - intros Hs. unfold delete_. rewrite in_new.
    by rewrite (bool_decide_false _ Hs).
  - rewrite E. cbn [fst]. split.
    + rewrite has_new. apply bool_decide_eq_false.
      rewrite list_elem_of_filter. tauto.
    + intros t Ht. rewrite !has_new. apply bool_decide_ext.
      rewrite list_elem_of_filter. tauto.
Qed.

Lemma StringSet_delete_spec_witness :
  delete_ (new [str "a"; str "toString"]) (str "b")
  = (new [str "a"; str "toString"], false)
  ∧ has (delete_ (new [str "a"; str "toString"]) (str "a")).1 (str "toString")
    = has (new [str "a"; str "toString"]) (str "toString").
Proof.
  split.
  - refine (proj1 (proj2 (proj2 (StringSet_delete_spec
                                   [str "a"; str "toString"] (str "b")))) _).
    apply (bool_decide_eq_true_1 (str "b" ∉ [str "a"; str "toString"])).
    vm_compute. reflexivity.
  - refine (proj2 (proj2 (proj2 (proj2 (StringSet_delete_spec
                                          [str "a"; str "toString"] (str "a")))))
              (str "toString") _).
    intros H. vm_compute in H. discriminate H.
Defined.

(** X2.  The union of the set of the elements of [l1] and the set of
    those of [l2] is the set of the elements of [l1 ++ l2]: [getUnion]
    returns it, [addSet] and [addArray] leave it, and it has a string
    exactly when one of the two sets has it.  [clone] returns a set
    with the same elements. *)
Theorem StringSet_union_spec (l1 l2 : list jsstring) :
  getUnion (new l1) (new l2) = new (l1 ++ l2)
  ∧ addSet (new l1) (new l2) = new (l1 ++ l2)
  ∧ addArray (new l1) l2 = new (l1 ++ l2)
  ∧ clone (new l1) = new l1
  ∧ getUnion (new l1) (new l2) = getUnion (new l2) (new l1)
  ∧ ∀ s, has (getUnion (new l1) (new l2)) s
         = has (new l1) s || has (new l2) s.
Proof.
  assert (E : ∀ a b, getUnion (new a) (new b) = new (a ++ b)).
  { intros a b. unfold getUnion. cbn zeta. by rewrite clone_new, addSet_new. }
  split; [apply E |]. split; [apply addSet_new |].
  split; [symmetry; apply foldl_app |]. split; [apply clone_new |]. split.
  - rewrite !E. apply new_ext. intros s. rewrite !elem_of_app. tauto.
  - intros s. rewrite E, !has_new.
    repeat case_bool_decide; simpl; try done; exfalso;
      rewrite elem_of_app in *; tauto.
Qed.

(** X3.  [getIntersection] returns the set of the elements of [l1] that
    are in [l2]: it has a string exactly when both sets have it, and it
    is empty exactly when [isDisjoint] holds of the two sets. *)
Theorem StringSet_intersection_spec (l1 l2 : list jsstring) :
  getIntersection (new l1) (new l2) = new (filter (fun s => s ∈ l2) l1)
  ∧ (∀ s, has (getIntersection (new l1) (new l2)) s
          = has (new l1) s && has (new l2) s)
  ∧ getIntersection (new l1) (new l2) = getIntersection (new l2) (new l1)
  ∧ (isDisjoint (new l1) (new l2) = true ↔ ∀ s, s ∈ l1 → s ∉ l2)
  ∧ isDisjoint (new l1) (new l2)
    = isEmpty (getIntersection (new l1) (new l2)).
Proof.
  split; [apply getIntersection_new |]. split; [| split; [| split]].
  - intros s. rewrite getIntersection_new, !has_new.
    repeat case_bool_decide; simpl; try done; exfalso;
      rewrite list_elem_of_filter in *; tauto.
  - rewrite !getIntersection_new. apply new_ext. intros s.
    rewrite !list_elem_of_filter. tauto.
  - apply isDisjoint_new.
  - apply eq_true_iff_eq. rewrite isDisjoint_new, getIntersection_new.
    unfold isEmpty. rewrite falseAtFirst_true. split.
    + intros H k (s & [Hs2 Hs1]%list_elem_of_filter & ->)%Object_keys_new_encoded.
      by destruct (H s).
    + intros H s Hs1 Hs2. specialize (H (encode_ s)).
      assert (true = false); [| done]. apply H.
      apply Object_keys_new, encode_elem_of, list_elem_of_filter. done.
Qed.

Lemma StringSet_intersection_spec_witness :
  isDisjoint (new [str "a"; str "valueOf"]) (new [str " a"; str "b"]) = true.
Proof.
  refine (proj2 (proj1 (proj2 (proj2 (proj2 (StringSet_intersection_spec
            [str "a"; str "valueOf"] [str " a"; str "b"]))))) _).
  intros s Hs Hs'. apply list_elem_of_In in Hs, Hs'. cbn in Hs, Hs'.
  destruct Hs as [<- | [<- | []]]; destruct Hs' as [H | [H | []]];
    vm_compute in H; discriminate H.
Defined.

(** X4.  [getDifference] returns the set of the elements of [l1] that
    are not in [l2]; [removeSet] and [removeArray] leave the same set.
    It has a string exactly when the first set has it and the second
    does not. *)
Theorem StringSet_difference_spec (l1 l2 : list jsstring) :
  getDifference (new l1) (new l2) = new (filter (fun s => s ∉ l2) l1)
  ∧ removeSet (new l1) (new l2) = new (filter (fun s => s ∉ l2) l1)
  ∧ removeArray (new l1) l2 = new (filter (fun s => s ∉ l2) l1)
  ∧ ∀ s, has (getDifference (new l1) (new l2)) s
         = has (new l1) s && negb (has (new l2) s).
Proof.
  assert (E : getDifference (new l1) (new l2)
              = new (filter (fun s => s ∉ l2) l1)).
  { unfold getDifference. cbn zeta. apply (addDifference_new [] l1 l2). }
  split; [exact E |]. split; [apply removeSet_new |].
  split; [apply removeArray_new |].
  intros s. rewrite E, !has_new.
  repeat case_bool_decide; simpl; try done; exfalso;
    rewrite list_elem_of_filter in *; tauto.
Qed.

(** X5.  [getSymmetricDifference] returns the set of the strings that
    are in exactly one of the two sets, whichever set it is called
    on. *)
Theorem StringSet_symmetric_difference_spec (l1 l2 : list jsstring) :
  getSymmetricDifference (new l1) (new l2)
  = new (filter (fun s => s ∉ l2) l1 ++ filter (fun s => s ∉ l1) l2)
  ∧ (∀ s, has (getSymmetricDifference (new l1) (new l2)) s
          = xorb (has (new l1) s) (has (new l2) s))
  ∧ getSymmetricDifference (new l1) (new l2)
    = getSymmetricDifference (new l2) (new l1).
Proof.
  assert (E : ∀ a b, getSymmetricDifference (new a) (new b)
              = new (filter (fun s => s ∉ b) a ++ filter (fun s => s ∉ a) b)).
  { intros a b. unfold getSymmetricDifference. cbn zeta.
    rewrite (addDifference_new [] a b). cbn [app].
    apply addDifference_new. }
  split; [apply E |]. split.
  - intros s. rewrite E, !has_new.
    repeat case_bool_decide; simpl; try done; exfalso;
      rewrite elem_of_app, !list_elem_of_filter in *; tauto.
  - rewrite !E. apply new_ext. intros s.
    rewrite !elem_of_app, !list_elem_of_filter. tauto.
Qed.

(** X6.  [isSubsetOf] holds exactly when every element of the first set
    is an element of the second; [isSupersetOf] is its converse; and
    [containsArray] holds exactly when every element of the array is in
    the set, so of the empty array always. *)
Theorem StringSet_subset_spec (l1 l2 : list jsstring) :
  (isSubsetOf (new l1) (new l2) = true ↔ ∀ s, s ∈ l1 → s ∈ l2)
  ∧ (isSubsetOf (new l1) (new l2) = true
     ↔ ∀ s, has (new l1) s = true → has (new l2) s = true)
  ∧ isSupersetOf (new l1) (new l2) = isSubsetOf (new l2) (new l1)
  ∧ (containsArray (new l1) l2 = true ↔ ∀ s, s ∈ l2 → s ∈ l1)
  ∧ containsArray (new l1) l2 = isSubsetOf (new l2) (new l1)
  ∧ containsArray (new l1) [] = true.
Proof.
  assert (C : containsArray (new l1) l2 = true ↔ ∀ s, s ∈ l2 → s ∈ l1).
  { unfold containsArray. rewrite falseAtFirst_true. split.
    - intros H s Hs. specialize (H s Hs). rewrite in_new in H.
      by apply negb_false_iff, bool_decide_eq_true in H.
    - intros H s Hs. rewrite in_new.
      apply negb_false_iff, bool_decide_eq_true. auto. }
  split; [apply isSubsetOf_new |]. split; [| split; [done |]].
  - rewrite isSubsetOf_new. split.
    + intros H s. rewrite !has_new, !bool_decide_eq_true. apply H.
    + intros H s. specialize (H s).
      by rewrite !has_new, !bool_decide_eq_true in H.
  - split; [exact C |]. split; [| done].
    apply eq_true_iff_eq. by rewrite C, isSubsetOf_new.
Qed.

Lemma StringSet_subset_spec_witness :
  isSubsetOf (new [str "a"]) (new [str "constructor"; str "a"]) = true
  ∧ containsArray (new [str "constructor"; str "a"]) [str "a"; str "a"] = true.
Proof.
  split.
  - refine (proj2 (proj1 (StringSet_subset_spec
                            [str "a"] [str "constructor"; str "a"])) _).
    intros s Hs. apply list_elem_of_singleton in Hs. subst s.
    apply list_elem_of_further, list_elem_of_here.
  - refine (proj2 (proj1 (proj2 (proj2 (proj2 (StringSet_subset_spec
              [str "constructor"; str "a"] [str "a"; str "a"]))))) _).
    intros s Hs. apply list_elem_of_In in Hs. cbn in Hs.
    destruct Hs as [<- | [<- | []]];
      apply list_elem_of_further, list_elem_of_here.
Defined.

(** X7.  [equals] holds exactly when the two sets have the same
    elements, whatever the order and the repetitions of the arrays they
    were made from; two such sets are then the same table. *)
Theorem StringSet_equals_spec (l1 l2 : list jsstring) :
  (equals (new l1) (new l2) = true ↔ ∀ s, s ∈ l1 ↔ s ∈ l2)
  ∧ (equals (new l1) (new l2) = true
     ↔ ∀ s, has (new l1) s = has (new l2) s)
  ∧ (equals (new l1) (new l2) = true ↔ new l1 = new l2)
  ∧ equals (new l1) (new l2) = equals (new l2) (new l1).
Proof.
  assert (E : ∀ a b, equals (new a) (new b) = true ↔ ∀ s, s ∈ a ↔ s ∈ b).
  { intros a b. unfold equals. rewrite andb_true_iff, !isSubsetOf_new.
    split; [intros [H1 H2] s; split; auto |].
    intros H. split; intros s; by apply H. }
  split; [apply E |]. split; [| split].
  - rewrite E. split.
    + intros H s. rewrite !has_new. apply bool_decide_ext, H.
    + intros H s. specialize (H s). rewrite !has_new in H.
      split; intros Hs;
        [apply (bool_decide_eq_true_1 (s ∈ l2)); rewrite <- H
        | apply (bool_decide_eq_true_1 (s ∈ l1)); rewrite H];
        by apply bool_decide_eq_true_2.
  - by rewrite E, new_eq_iff.
  - apply eq_true_iff_eq. rewrite !E. split; intros H s; by rewrite H.
Qed.

Lemma StringSet_equals_spec_witness :
  equals (new [str "a"; str "b"; str "a"]) (new [str "b"; str "a"]) = true
  ∧ new [str "a"; str "b"; str "a"] = new [str "b"; str "a"].
Proof.
  assert (H : ∀ s, s ∈ [str "a"; str "b"; str "a"] ↔ s ∈ [str "b"; str "a"]).
  { intros s. rewrite !list_elem_of_In. cbn. tauto. }
  split.
  - exact (proj2 (proj1 (StringSet_equals_spec _ _)) H).
  - apply (proj1 (proj1 (proj2 (proj2 (StringSet_equals_spec _ _))))).
    exact (proj2 (proj1 (StringSet_equals_spec _ _)) H).
Defined.

(** X8.  [getCount] is the number of distinct strings of the array the
    set was made from; [isEmpty] holds exactly when that array is
    empty, that is when the count is zero; the set is empty after
    [clear]. *)
Theorem StringSet_count_spec (l : list jsstring) :
  getCount (new l) = length (remove_dups l)
  ∧ length (values (new l)) = getCount (new l)
  ∧ (isEmpty (new l) = true ↔ l = [])
  ∧ (isEmpty (new l) = true ↔ getCount (new l) = O)
  ∧ isEmpty (clear (new l)) = true
  ∧ getCount (clear (new l)) = O.
Proof.
  assert (E : isEmpty (new l) = true ↔ l = []).
  { unfold isEmpty. rewrite falseAtFirst_true. split.
    - intros H. destruct l as [| a l]; [done |].
      assert (true = false); [| done]. apply (H (encode_ a)).
      apply Object_keys_new, encode_elem_of, list_elem_of_here.
    - intros -> k (s & Hs & _)%Object_keys_new_encoded.
      by apply elem_of_nil in Hs. }
  assert (C : getCount (new l) = length (remove_dups l)).
  { unfold getCount. rewrite Object_keys_new_Permutation.
    rewrite <- (length_fmap encode_ (remove_dups l)).
    apply Permutation_length, NoDup_Permutation.
    - apply NoDup_remove_dups.
    - apply NoDup_fmap_2; [| apply NoDup_remove_dups].
      intros x y. apply encode_inj.
    - intros k. rewrite elem_of_remove_dups, !list_elem_of_fmap.
      split; intros (s & -> & Hs); exists s; (split; [done |]);
        by apply elem_of_remove_dups. }
  split; [exact C |]. split; [| split; [exact E |]; split; [| done]].
  - unfold values, getCount. apply length_fmap.
  - rewrite E, C. destruct l as [| a l]; [done |]. split; [done |].
    intros H. apply length_zero_iff_nil in H.
    assert (Ha : a ∈ remove_dups (a :: l)).
    { apply elem_of_remove_dups, list_elem_of_here. }
    rewrite H in Ha. by apply elem_of_nil in Ha.
Qed.

Lemma StringSet_count_spec_witness :
  isEmpty (new []) = true
  ∧ getCount (new [str "a"; str " a"; str "a"]) = 2%nat.
Proof.
  split.
  - exact (proj2 (proj1 (proj2 (proj2 (StringSet_count_spec [])))) eq_refl).
  - refine (eq_trans (proj1 (StringSet_count_spec
                               [str "a"; str " a"; str "a"])) _).
    vm_compute. reflexivity.
Defined.

End StringSetAlgebra.

(** ** The units that a pattern consumes *)

Section Alphabet.
Import RegExp Grammar.
Variable ic : bool.

Lemma take_add_drop {A} (n1 n2 : nat) (s : list A) :
  take (n1 + n2) s = take n1 s ++ take n2 (drop n1 s).
Proof.
  revert s. induction n1 as [| n1 IH]; intros s; [done |].
  destruct s as [| a s]; cbn; [by rewrite take_nil |]. by rewrite IH.
Qed.

(** A match consumes units that the pattern can consume. *)
Lemma Sem_consumes (r : Pattern) (i : nat) (s : jsstring) (n : nat) :
  Sem ic r i s n → Forall (fun u => consumes ic r u = true) (take n s).
Proof.
  induction 1 as [i s | d i u t Hc | i u t Hl | invert atoms i u t Hx
                  | r1 r2 i s n1 n2 H1 IH1 H2 IH2 | r1 r2 i s n H IH
                  | r1 r2 i s n H IH | k r i s n H IH | s | i
                  | min max r i s Hd
                  | min max r i s n1 n2 Hmax H1 IH1 Hz H2 IH2];
    cbn [consumes].
  - rewrite take_0. constructor.
  - cbn [take]. constructor; [by apply N.eqb_eq | rewrite take_0; constructor].
  - cbn [take]. constructor; [by rewrite Hl | rewrite take_0; constructor].
  - cbn [take]. constructor; [done | rewrite take_0; constructor].
  - rewrite take_add_drop. apply Forall_app. split.
    + eapply Forall_impl; [exact IH1 |]. cbn. intros u ->. done.
    + eapply Forall_impl; [exact IH2 |]. cbn. intros u ->.
      by rewrite orb_true_r.
  - eapply Forall_impl; [exact IH |]. cbn. intros u ->. done.
  - eapply Forall_impl; [exact IH |]. cbn. intros u ->.
    by rewrite orb_true_r.
  - exact IH.
  - rewrite take_0. constructor.
  - constructor.
  - rewrite take_0. constructor.
  - rewrite take_add_drop. apply Forall_app. split; [done |].
    exact IH2.
Qed.

(** A match of a pattern that ends with [$] consumes the input to its
    end. *)
Lemma Sem_endAnchored (r : Pattern) (i : nat) (s : jsstring) (n : nat) :
  Sem ic r i s n → endAnchored r = true → n = length s.
Proof.
  induction 1; cbn [endAnchored]; try done.
  pose proof (Sem_le ic _ _ _ _ H) as Hle.
  destruct r2; try (intros E; specialize (IHSem2 E);
                    rewrite length_drop in IHSem2; lia).
  intros E. inversion H0; subst. specialize (IHSem1 E). lia.
Qed.

Lemma Canonicalize_ascii (c : N) : Canonicalize ic c < 128 ↔ c < 128.
Proof.
  unfold Canonicalize, JsString.toUpper, JsString.isLower.
  destruct ic; [| done].
  destruct (N.leb_spec 97 c), (N.leb_spec c 122); cbn; lia.
Qed.

Lemma consumes_ascii (r : Pattern) (u : N) :
  asciiOnly r = true → consumes ic r u = true → u < 128.
Proof.
  induction r as [| d | | invert atoms | r1 IH1 r2 IH2 | r1 IH1 r2 IH2
                  | min max r1 IH1 | n r1 IH1 | |];
    cbn [asciiOnly consumes]; try done.
  - intros Hd%N.ltb_lt Hu%N.eqb_eq. apply Canonicalize_ascii.
    rewrite Hu. by apply Canonicalize_ascii.
  - intros [Hi Ha]%andb_true_iff. apply negb_true_iff in Hi as ->.
    cbn [xorb]. intros (a & d & Hin & Hm & Hc)%class_mem_spec.
    rewrite forallb_forall in Ha. specialize (Ha a).
    apply Canonicalize_ascii. rewrite <- Hc. apply Canonicalize_ascii.
    assert (Hasc : asciiAtom a = true).
    { apply Ha. by apply list_elem_of_In. }
    clear - Hm Hasc. destruct a as [e | lo hi |]; cbn in *.
    + apply N.eqb_eq in Hm as ->. by apply N.ltb_lt.
    + apply andb_true_iff in Hm as [_ Hhi%N.leb_le].
      apply N.ltb_lt in Hasc. lia.
    + unfold isWordChar, JsString.isLower, JsString.isUpper,
        JsString.isDigit in Hm.
      repeat (apply orb_true_iff in Hm as [Hm | Hm]);
        try (apply andb_true_iff in Hm as [_ Hm%N.leb_le]; lia).
      apply N.eqb_eq in Hm. lia.
  - intros [H1 H2]%andb_true_iff [H | H]%orb_true_iff; auto.
  - intros [H1 H2]%andb_true_iff [H | H]%orb_true_iff; auto.
Qed.

(** A property of the 128 ASCII units that is checked on each of
    them. *)
Lemma ascii_units (f : N → bool) :
  forallb f (map N.of_nat (seq 0 128)) = true →
  ∀ u, u < 128 → f u = true.
Proof.
  intros H u Hu. rewrite forallb_forall in H. apply H.
  apply in_map_iff. exists (N.to_nat u). split; [apply N2Nat.id |].
  apply in_seq. lia.
Qed.

End Alphabet.

Section AnchoredPatterns.
Import RegExp Grammar.

(** The strings that a pattern from [^] to [$] accepts are made of
    units that the pattern can consume. *)
Lemma test_consumes (R : RegExp) (r : Pattern) (s : jsstring) :
  source R = Seq AssertStart r → endAnchored r = true →
  test R s = true →
  Sem (ignoreCase R) r 0 s (length s)
  ∧ Forall (fun u => consumes (ignoreCase R) r u = true) s.
Proof.
  intros HR Hr (k & n & Hk & Hn)%test_Sem. rewrite HR in Hn.
  inversion Hn as [| | | | ? ? ? ? n1 n2 Hn1 Hn2 | | | | | | |]; subst.
  assert (k = O ∧ n1 = O) as [-> ->].
  { clear - Hn1. inversion Hn1; subst. lia. }
  rewrite drop_0 in *. cbn in Hn2. rewrite drop_0 in Hn2.
  pose proof (Sem_endAnchored _ _ _ _ _ Hn2 Hr) as ->.
  split; [done |].
  apply Sem_consumes in Hn2. by rewrite firstn_all in Hn2.
Qed.

End AnchoredPatterns.

(** ** goog.html.SafeUrl: what the validators let through *)

Section Schemes.
Import RegExp Grammar SafeUrl.

Lemma toLower_colon (c : N) : JsString.toLower c = 58 ↔ c = 58.
Proof.
  unfold JsString.toLower, JsString.isUpper.
  destruct (N.leb_spec 65 c), (N.leb_spec c 90); cbn; lia.
Qed.

Lemma toLowerCase_no_colon (a : jsstring) :
  58 ∈ JsString.toLowerCase a ↔ 58 ∈ a.
Proof.
  unfold JsString.toLowerCase. rewrite !list_elem_of_In, in_map_iff.
  split.
  - intros (c & Hc & Hin). apply (proj1 (toLower_colon c)) in Hc. by subst.
  - intros H. exists 58. by split.
Qed.

(** A string is cut at its first colon in one way only. *)
Lemma first_colon_unique (l1 l2 r1 r2 : jsstring) :
  l1 ++ 58 :: r1 = l2 ++ 58 :: r2 → 58 ∉ l1 → 58 ∉ l2 → l1 = l2.
Proof.
  revert l2. induction l1 as [| a l1 IH]; intros [| b l2]; cbn.
  - done.
  - intros [= <- _] _ H. exfalso. apply H, list_elem_of_here.
  - intros [= -> _] H _. exfalso. apply H, list_elem_of_here.
  - intros [= -> E] H1 H2. f_equal. apply IH; [done | |].
    + intros H. by apply H1, list_elem_of_further.
    + intros H. by apply H2, list_elem_of_further.
Qed.

(** A string that starts with the scheme [l], in any case, and a colon
    has the scheme [l]. *)
Lemma scheme_of_prefix (sch rest l : jsstring) :
  58 ∉ sch → 58 ∉ l →
  goog_string.caseInsensitiveStartsWith (sch ++ 58 :: rest) (l ++ [58]) = true →
  JsString.toLowerCase sch = JsString.toLowerCase l.
Proof.
  intros Hsch Hl. rewrite <- litPrefix_ignoreCase.
  intros (a & t & E & Ha)%litPrefix_ignoreCase_split.
  unfold JsString.toLowerCase in Ha. rewrite map_app in Ha.
  apply map_eq_app in Ha as (a1 & a2 & -> & H1 & H2).
  destruct a2 as [| c [| ? ?]]; try discriminate H2.
  cbn in H2. injection H2 as Hc. apply (proj1 (toLower_colon c)) in Hc.
  subst c.
  rewrite <- app_assoc in E. cbn in E.
  apply first_colon_unique in E; [| done |].
  - subst sch. exact H1.
  - intros H. apply (proj2 (toLowerCase_no_colon a1)) in H.
    unfold JsString.toLowerCase in H. rewrite H1 in H.
    by apply (proj1 (toLowerCase_no_colon l)) in H.
Qed.

Lemma no_delimiter_no_colon (sch : jsstring) :
  Forall (fun u => isDelimiter u = false) sch → 58 ∉ sch.
Proof.
  intros H Hin. rewrite Forall_forall in H. specialize (H 58 Hin).
  discriminate H.
Qed.

(** A string whose first delimiter is a colon is of the generic grammar
    by its scheme only. *)
Lemma safeUrlGrammar_scheme (sch rest : jsstring) :
  Forall (fun u => isDelimiter u = false) sch →
  safeUrlGrammar (sch ++ 58 :: rest) = true →
  JsString.toLowerCase sch ∈ map str ["http"; "https"; "mailto"; "ftp"]%string.
Proof.
  intros Hsch. pose proof (no_delimiter_no_colon sch Hsch) as Hc.
  unfold safeUrlGrammar. intros [H | H]%orb_true_iff.
  - unfold hasSafeScheme in H.
    assert (Hl : ∀ l : string, 58 ∉ str l →
              goog_string.caseInsensitiveStartsWith
                (sch ++ 58 :: rest) (str l ++ [58]) = true →
              JsString.toLowerCase sch = JsString.toLowerCase (str l)).
    { intros l Hl. by apply scheme_of_prefix. }
    assert (Hn : ∀ l : jsstring, bool_decide (58 ∉ l) = true → 58 ∉ l).
    { intros l. apply bool_decide_eq_true_1. }
    repeat (apply orb_true_iff in H as [H | H]).
    + rewrite (Hl "http"%string (Hn (str "http") eq_refl) H). apply list_elem_of_In.
      vm_compute. tauto.
    + rewrite (Hl "https"%string (Hn (str "https") eq_refl) H). apply list_elem_of_In.
      vm_compute. tauto.
    + rewrite (Hl "mailto"%string (Hn (str "mailto") eq_refl) H). apply list_elem_of_In.
      vm_compute. tauto.
    + rewrite (Hl "ftp"%string (Hn (str "ftp") eq_refl) H). apply list_elem_of_In.
      vm_compute. tauto.
  - exfalso. unfold noEarlyColon in H.
    rewrite (span_app _ sch (58 :: rest)) in H.
    + cbn [span] in H. change (negb (isDelimiter 58)) with false in H.
      cbn iota in H. rewrite Nat.add_0_r, drop_app_length in H.
      discriminate H.
    + eapply Forall_impl; [exact Hsch |]. cbn. by intros u ->.
Qed.

Lemma base64DataUrl_prefix (s : jsstring) :
  base64DataUrl s →
  goog_string.caseInsensitiveStartsWith s (str "data:") = true.
Proof.
  intros (scheme & mime & marker & body & pad & -> & Hs & _).
  rewrite <- litPrefix_ignoreCase. apply litPrefix_ignoreCase_split.
  exists scheme, (mime ++ marker ++ body ++ pad). split; [done |].
  rewrite Hs. reflexivity.
Qed.

End Schemes.

Section SafeUrlExtras.
Import RegExp Grammar SafeUrl.

Lemma unwrapsTo_constant (c : M object) (u : object) (s : jsstring) :
  (∀ st, c st = (Normal u, st)) →
  (∀ st, unwrap (VObject u) st = (Normal s, st)) →
  unwrapsTo c s.
Proof.
  intros Hc Hu st. exists st. split; [| done].
  unfold mbind, M_bind. by rewrite Hc, Hu.
Qed.

Lemma unwrapsTo_unique (c : M object) (p q : jsstring) :
  unwrapsTo c p → unwrapsTo c q → p = q.
Proof.
  intros Hp Hq. destruct (Hp (loaded false)) as (st1 & H1 & _).
  destruct (Hq (loaded false)) as (st2 & H2 & _). congruence.
Qed.

(** What [sanitize] wraps for a string: the string, the string without
    the escapes of CR and LF, or the innocuous string. *)
Lemma sanitize_payload (x : jsstring) :
  (test SAFE_URL_PATTERN_ x = true ∧ unwrapsTo (sanitize (VString x)) x)
  ∨ (test SAFE_URL_PATTERN_ x = false
     ∧ test DATA_URL_PATTERN_ (removeCrLfEscapes 0 x) = true
     ∧ unwrapsTo (sanitize (VString x)) (removeCrLfEscapes 0 x))
  ∨ (test SAFE_URL_PATTERN_ x = false
     ∧ test DATA_URL_PATTERN_ (removeCrLfEscapes 0 x) = false
     ∧ unwrapsTo (sanitize (VString x)) INNOCUOUS_STRING).
Proof.
  destruct (test SAFE_URL_PATTERN_ x) eqn:E1.
  { left. split; [done |]. apply unwrapsTo_create. intros st.
    by rewrite sanitize_string, E1. }
  right. destruct (test DATA_URL_PATTERN_ (removeCrLfEscapes 0 x)) eqn:E2.
  - left. do 2 (split; [done |]). apply unwrapsTo_create. intros st.
    by rewrite sanitize_string, E1, fromDataUrl_string, E2.
  - right. do 2 (split; [done |]).
    apply (unwrapsTo_constant _ INNOCUOUS_URL).
    + intros st. by rewrite sanitize_string, E1, fromDataUrl_string, E2.
    + intros st. apply unwrap_construct.
Qed.

(** X9.  For every string [x], [sanitize(x)] returns a SafeUrl that
    wraps [x], [x] without the escapes [%0A] and [%0D], or the
    innocuous string.  If the wrapped string has a colon before any
    [/], [?] or [#], then what precedes that colon is, in some case,
    one of [http], [https], [mailto], [ftp], [data] and [about]: no
    string with another scheme, such as [javascript:], is wrapped. *)
Theorem sanitize_wraps_known_schemes (x : jsstring) :
  (∃ p, unwrapsTo (sanitize (VString x)) p
        ∧ (p = x ∨ p = removeCrLfEscapes 0 x ∨ p = INNOCUOUS_STRING))
  ∧ ∀ p sch rest,
      unwrapsTo (sanitize (VString x)) p →
      p = sch ++ 58 :: rest →
      Forall (fun u => isDelimiter u = false) sch →
      JsString.toLowerCase sch ∈ wrappedSchemes.
Proof.
  split.
  { destruct (sanitize_payload x) as [[_ H] | [(_ & _ & H) | (_ & _ & H)]];
      eauto 6. }
  intros p sch rest Hp -> Hsch.
  pose proof (no_delimiter_no_colon sch Hsch) as Hc.
  destruct (sanitize_payload x) as [[E H] | [(_ & E & H) | (_ & _ & H)]];
    pose proof (unwrapsTo_unique _ _ _ Hp H) as Hx.
  - rewrite <- Hx, test_SAFE_URL_PATTERN_ in E.
    apply safeUrlGrammar_scheme in E; [| done].
    apply list_elem_of_In in E. apply list_elem_of_In.
    cbn in E |- *. tauto.
  - rewrite <- Hx in E. apply ok_DATA_URL_PATTERN_, base64DataUrl_prefix in E.
    apply (scheme_of_prefix sch rest (str "data")) in E; [| done |].
    + rewrite E. apply list_elem_of_In. vm_compute. tauto.
    + apply (bool_decide_eq_true_1 (58 ∉ str "data")). reflexivity.
  - change INNOCUOUS_STRING
      with (str "about" ++ 58 :: str "invalid#zClosurez") in Hx.
    apply first_colon_unique in Hx; [| done |].
    + rewrite Hx. apply list_elem_of_In. vm_compute. tauto.
    + apply (bool_decide_eq_true_1 (58 ∉ str "about")). reflexivity.
Qed.

Lemma sanitize_wraps_known_schemes_witness :
  JsString.toLowerCase (str "HTTPS") ∈ wrappedSchemes
  ∧ ∃ p, unwrapsTo (sanitize (VString (str "javascript:alert(1)"))) p
         ∧ (p = str "javascript:alert(1)"
            ∨ p = removeCrLfEscapes 0 (str "javascript:alert(1)")
            ∨ p = INNOCUOUS_STRING).
Proof.
  split.
  - refine (proj2 (sanitize_wraps_known_schemes (str "HTTPS://example.com/"))
              (str "HTTPS://example.com/") (str "HTTPS")
              (str "//example.com/") _ _ _).
    + apply unwrapsTo_create. intros st. rewrite sanitize_string.
      reflexivity.
    + reflexivity.
    + repeat constructor.
  - exact (proj1 (sanitize_wraps_known_schemes (str "javascript:alert(1)"))).
Defined.

(** X10.  The argument of the sanitizers when it is not a string.  On
    [null] the test [typeof url == 'object' &&
    url.implementsGoogStringTypedString] reads a property of [null]:
    [trySanitize], [sanitize] and [sanitizeAssertUnchanged] throw a
    TypeError, whereas [fromDataUrl], which converts its argument
    with [String], returns the innocuous SafeUrl.  [undefined] and
    the booleans are sanitized as the strings that [String] makes of
    them.  An object that is not a SafeUrl is sanitized as the value
    of its [getTypedStringValue()] when it bears the mark of the typed
    strings, and as [String(url)] otherwise. *)
Theorem sanitize_argument_coercion (st : realm) (allowDataUrl : bool) :
  trySanitize VNull st = (Throw TypeError, st)
  ∧ sanitize VNull st = (Throw TypeError, st)
  ∧ sanitizeAssertUnchanged VNull allowDataUrl st = (Throw TypeError, st)
  ∧ fromDataUrl VNull st = (Normal INNOCUOUS_URL, st)
  ∧ sanitize VUndefined st = sanitize (VString (str "undefined")) st
  ∧ (∀ c, sanitize (VBoolean c) st
          = sanitize (VString (Js.String_ (VBoolean c))) st)
  ∧ (∀ o, Js.instanceof (VObject o) KSafeUrl = false →
          sanitize (VObject o) st
          = if implementsGoogStringTypedString o
            then match getTypedStringValue o with
                 | Some s => sanitize (VString s) st
                 | None => (Throw TypeError, st)
                 end
            else sanitize (VString (toString_ o)) st).
Proof.
  split; [done |]. split; [done |]. split; [done |].
  split.
  { change (fromDataUrl VNull st) with (fromDataUrl (VString (str "null")) st).
    rewrite fromDataUrl_string. reflexivity. }
  split; [done |].
  split; [by intros [] |].
  intros o Ho. unfold sanitize, trySanitize. rewrite Ho.
  unfold stringOfUrl, mbind, M_bind, mret, M_ret, throw.
  destruct (implementsGoogStringTypedString o); [| done].
  by destruct (getTypedStringValue o).
Qed.

Lemma sanitize_argument_coercion_witness :
  sanitize (VObject lookAlike) (loaded true)
  = sanitize (VString (str "javascript:alert(1)")) (loaded true).
Proof.
  exact (proj2 (proj2 (proj2 (proj2 (proj2 (proj2
           (sanitize_argument_coercion (loaded true) false))))))
           lookAlike eq_refl).
Defined.

End SafeUrlExtras.

Section AcceptedStrings.
Import RegExp Grammar SafeUrl.
Local Arguments Lit : simpl never.
Local Arguments Nat.eqb : simpl never.

Lemma m_Seq (ic : bool) (r1 r2 : Pattern) (c : Continuation)
    (x : MatchState) :
  m ic (Seq r1 r2) c x = m ic r1 (fun y => m ic r2 c y) x.
Proof. reflexivity. Qed.

Lemma ok_Seq_Lit (ic : bool) (l : string) (r : Pattern) (c : Continuation)
    (x : MatchState) :
  ok (m ic (Seq (Lit l) r) c x) = true →
  litPrefix ic (str l) (rest x) = true
  ∧ ok (m ic r c (advanceBy (length (str l)) x)) = true.
Proof.
  rewrite m_Seq, m_Lit. by destruct (litPrefix ic (str l) (rest x)).
Qed.

Lemma ok_CharacterSetMatcher (p : N → bool) (c : Continuation)
    (x : MatchState) :
  ok (CharacterSetMatcher p c x) = true →
  ∃ u t, rest x = u :: t ∧ p u = true
         ∧ ok (c {| endIndex := S (endIndex x); rest := t;
                    captures := captures x |}) = true.
Proof.
  unfold CharacterSetMatcher. destruct (rest x) as [| u t]; [done |].
  destruct (p u) eqn:E; [| done]. intros H. by exists u, t.
Qed.

(** The units that a pattern of ASCII members consumes, from a check of
    the 128 ASCII units. *)
Lemma consumes_within (ic : bool) (r : Pattern) (f : N → bool) :
  asciiOnly r = true →
  forallb (fun u => implb (consumes ic r u) (f u)) (map N.of_nat (seq 0 128))
  = true →
  ∀ u, consumes ic r u = true → f u = true.
Proof.
  intros Hr Hf u Hu.
  pose proof (ascii_units _ Hf u (consumes_ascii ic r u Hr Hu)) as H.
  cbn beta in H. by rewrite Hu in H.
Qed.

(** X11.  A MIME type that [isSafeMimeType] accepts starts, in some
    case, with [audio/], [font/], [image/] or [video/], and is made of
    letters, digits and the marks of [isMimeUnit] only: it has no
    control character, no angle bracket and no unit outside ASCII. *)
Theorem isSafeMimeType_media_only (mimeType : jsstring) :
  isSafeMimeType mimeType = true →
  (goog_string.caseInsensitiveStartsWith mimeType (str "audio/") = true
   ∨ goog_string.caseInsensitiveStartsWith mimeType (str "font/") = true
   ∨ goog_string.caseInsensitiveStartsWith mimeType (str "image/") = true
   ∨ goog_string.caseInsensitiveStartsWith mimeType (str "video/") = true)
  ∧ Forall (fun u => isMimeUnit u = true) mimeType.
Proof.
  unfold isSafeMimeType. intros H. split.
  - rewrite (test_anchored SAFE_MIME_TYPE_PATTERN_
               (afterStart SAFE_MIME_TYPE_PATTERN_) mimeType eq_refl) in H.
    cbn [afterStart source SAFE_MIME_TYPE_PATTERN_ Seqs foldr ignoreCase] in H.
    rewrite m_Seq, !ok_Alt in H. rewrite <- !litPrefix_ignoreCase.
    repeat (apply orb_true_iff in H as [H | H]);
      apply ok_Seq_Lit in H as [H _]; cbn [initial rest] in H; auto.
  - destruct (test_consumes SAFE_MIME_TYPE_PATTERN_
                (afterStart SAFE_MIME_TYPE_PATTERN_) mimeType eq_refl eq_refl H)
      as [_ Hall].
    eapply Forall_impl; [exact Hall |]. cbn beta.
    apply consumes_within; vm_compute; reflexivity.
Qed.

Lemma isSafeMimeType_media_only_witness :
  isSafeMimeType (str "Video/MP4;codecs=avc1") = true
  ∧ (goog_string.caseInsensitiveStartsWith
       (str "Video/MP4;codecs=avc1") (str "audio/") = true
     ∨ goog_string.caseInsensitiveStartsWith
         (str "Video/MP4;codecs=avc1") (str "font/") = true
     ∨ goog_string.caseInsensitiveStartsWith
         (str "Video/MP4;codecs=avc1") (str "image/") = true
     ∨ goog_string.caseInsensitiveStartsWith
         (str "Video/MP4;codecs=avc1") (str "video/") = true)
  ∧ Forall (fun u => isMimeUnit u = true) (str "Video/MP4;codecs=avc1").
Proof.
  split; [vm_compute; reflexivity |].
  apply (isSafeMimeType_media_only (str "Video/MP4;codecs=avc1")).
  vm_compute. reflexivity.
Defined.

Lemma Decode_plain (fuel : nat) (s : jsstring) :
  37 ∉ s → (length s ≤ fuel)%nat → URI.Decode fuel s = Some s.
Proof.
  revert fuel. induction s as [| c t IH]; intros fuel Hs Hf;
    [by destruct fuel |].
  destruct fuel as [| fuel]; [cbn in Hf; lia |]. cbn [URI.Decode].
  destruct (N.eqb_spec c 37) as [-> | Hc].
  - exfalso. apply Hs, list_elem_of_here.
  - rewrite IH; [done | | cbn in Hf; lia].
    intros H. by apply Hs, list_elem_of_further.
Qed.

(** [decodeURIComponent] leaves a string without [%] as it is. *)
Lemma decodeURIComponent_plain (s : jsstring) :
  37 ∉ s → Js.decodeURIComponent s = Normal s.
Proof.
  intros H. unfold Js.decodeURIComponent. by rewrite Decode_plain.
Qed.

(** The start of a string that the SIP pattern accepts. *)
Lemma SIP_URL_PATTERN_prefix (d : jsstring) :
  test SIP_URL_PATTERN_ d = true →
  goog_string.caseInsensitiveStartsWith d (str "sip:") = true
  ∨ goog_string.caseInsensitiveStartsWith d (str "sips:") = true.
Proof.
  intros H.
  rewrite (test_anchored SIP_URL_PATTERN_ (afterStart SIP_URL_PATTERN_)
             d eq_refl) in H.
  cbn [afterStart source SIP_URL_PATTERN_ Seqs foldr ignoreCase] in H.
  apply ok_Seq_Lit in H as [H3 H]. cbn [initial rest] in H3.
  rewrite m_Seq, m_Opt in H. rewrite <- !litPrefix_ignoreCase.
  change (str "sip:") with (str "sip" ++ [58]).
  change (str "sips:") with (str "sip" ++ [115] ++ [58]).
  rewrite !litPrefix_app, H3. cbn [andb length app].
  set (x := advanceBy (length (str "sip")) (initial SIP_URL_PATTERN_ 0 d))
    in H.
  change (drop (length (str "sip")) d) with (rest x).
  assert (Hcolon : ∀ y, ok (m true (Seq (Char (ch ":")) (Seqs [])) Some y)
                        = true → False → False) by done.
  clear Hcolon.
  destruct (m true (Class false (chars "s")) _ _) as [z |] eqn:E.
  - right. clear H.
    assert (Hz : ok (m true (Class false (chars "s"))
                       (fun y => if (endIndex y =? endIndex x)%nat then None
                                 else m true _ Some y)
                       (clearCaptures (groups (Class false (chars "s"))) x))
                 = true) by (by rewrite E).
    clear E. cbn [m] in Hz.
    apply ok_CharacterSetMatcher in Hz as (u & t & Hr & Hu & Hz).
    cbn [clearCaptures rest endIndex] in Hr, Hz.
    replace (S (endIndex x) =? endIndex x)%nat with false in Hz
      by (symmetry; apply Nat.eqb_neq; lia).
    apply ok_CharacterSetMatcher in Hz as (v & t' & Hr' & Hv & _).
    cbn [rest] in Hr'. subst t. rewrite Hr. cbn [litPrefix drop].
    change (ch ":") with 58 in Hv.
    rewrite Hv, !andb_true_r. clear - Hu. cbn [xorb] in Hu.
    apply class_mem_spec in Hu as (a & d' & Ha & Hm & Hc).
    apply list_elem_of_singleton in Ha. subst a. cbn [atom_mem] in Hm.
    apply N.eqb_eq in Hm. subst d'. apply N.eqb_eq. symmetry. exact Hc.
  - left. cbn [m] in H.
    apply ok_CharacterSetMatcher in H as (v & t' & Hr' & Hv & _).
    change (ch ":") with 58 in Hv.
    rewrite Hr'. cbn [litPrefix]. by rewrite Hv.
Qed.

(** X12.  A string that the SIP pattern accepts starts, in some case,
    with [sip:] or [sips:], and is made of letters, digits and the
    marks of the pattern only; it has neither [?] nor [#].
    [fromSipUrl] tests the decoded argument and wraps the argument as
    it was given: the result wraps the argument only if the decoded
    argument is such a string. *)
Theorem fromSipUrl_accepts_addresses_only (sipUrl : jsstring) (st : realm) :
  (∀ d, test SIP_URL_PATTERN_ d = true →
        (goog_string.caseInsensitiveStartsWith d (str "sip:") = true
         ∨ goog_string.caseInsensitiveStartsWith d (str "sips:") = true)
        ∧ Forall (fun u => isSipUnit u = true) d
        ∧ (63 ∉ d) ∧ (35 ∉ d))
  ∧ (fromSipUrl sipUrl st = (Normal (wrapped sipUrl st), allocated st) →
     sipUrl ≠ INNOCUOUS_STRING →
     ∃ d, Js.decodeURIComponent sipUrl = Normal d
          ∧ test SIP_URL_PATTERN_ d = true)
  ∧ (yields (fromSipUrl sipUrl st) sipUrl st →
     sipUrl ≠ INNOCUOUS_STRING →
     ∃ d, Js.decodeURIComponent sipUrl = Normal d
          ∧ test SIP_URL_PATTERN_ d = true).
Proof.
  split; [| split].
  - intros d H. split; [by apply SIP_URL_PATTERN_prefix |].
    destruct (test_consumes SIP_URL_PATTERN_ (afterStart SIP_URL_PATTERN_)
                d eq_refl eq_refl H) as [_ Hall].
    assert (Hunits : Forall (fun u => isSipUnit u = true) d).
    { eapply Forall_impl; [exact Hall |]. cbn beta.
      apply consumes_within; vm_compute; reflexivity. }
    split; [exact Hunits |]. rewrite Forall_forall in Hunits.
    split; intros Hin; specialize (Hunits _ Hin); vm_compute in Hunits;
      discriminate Hunits.
  - intros H Hne. pose proof (fromSipUrl_outcomes sipUrl st) as Ho.
    destruct (Js.decodeURIComponent sipUrl) as [d | e]; [| congruence].
    exists d. split; [done |].
    destruct (test SIP_URL_PATTERN_ d); [done |].
    rewrite H in Ho. injection Ho as Ho. done.
  - intros H Hne. pose proof (fromSipUrl_outcomes sipUrl st) as Ho.
    destruct (Js.decodeURIComponent sipUrl) as [d | e].
    + exists d. split; [done |].
      destruct (test SIP_URL_PATTERN_ d); [done |].
      apply (yields_wrapped_iff _ _ _ _ Ho) in H. by destruct Hne.
    + rewrite Ho in H. by apply yields_throw in H.
Qed.

Lemma fromSipUrl_accepts_addresses_only_witness :
  ((goog_string.caseInsensitiveStartsWith
      (str "SIPS:alice@example.com") (str "sip:") = true
    ∨ goog_string.caseInsensitiveStartsWith
        (str "SIPS:alice@example.com") (str "sips:") = true)
   ∧ Forall (fun u => isSipUnit u = true) (str "SIPS:alice@example.com")
   ∧ (63 ∉ str "SIPS:alice@example.com")
   ∧ (35 ∉ str "SIPS:alice@example.com"))
  ∧ ∃ d, Js.decodeURIComponent (str "sip:al%69ce@example.com") = Normal d
         ∧ test SIP_URL_PATTERN_ d = true.
Proof.
  split.
  - apply (proj1 (fromSipUrl_accepts_addresses_only [] (loaded false))
             (str "SIPS:alice@example.com")).
    vm_compute. reflexivity.
  - apply (proj1 (proj2 (fromSipUrl_accepts_addresses_only
                           (str "sip:al%69ce@example.com") (loaded false)))).
    + vm_compute. reflexivity.
    + intros H. vm_compute in H. discriminate H.
Defined.

(** X13.  On a string without [%], [fromSipUrl] does not throw: it
    returns a new SafeUrl that wraps the string when the SIP pattern
    accepts it, and the innocuous string otherwise.  With a [%] it
    throws exactly when [decodeURIComponent] does. *)
Theorem fromSipUrl_without_escape (sipUrl : jsstring) (st : realm) :
  (37 ∉ sipUrl →
   fromSipUrl sipUrl st
   = (Normal (wrapped (if test SIP_URL_PATTERN_ sipUrl
                       then sipUrl else INNOCUOUS_STRING) st), allocated st))
  ∧ ((∃ e, fromSipUrl sipUrl st = (Throw e, st))
     ↔ Js.decodeURIComponent sipUrl = Throw URIError)
  ∧ (37 ∉ sipUrl →
     yields (fromSipUrl sipUrl st)
            (if test SIP_URL_PATTERN_ sipUrl
             then sipUrl else INNOCUOUS_STRING) st).
Proof.
  pose proof (fromSipUrl_outcomes sipUrl st) as Ho. split; [| split].
  - intros H. by rewrite (decodeURIComponent_plain sipUrl H) in Ho.
  - unfold Js.decodeURIComponent in *.
    destruct (URI.Decode (length sipUrl) sipUrl) as [d |].
    + rewrite Ho. split; [by intros [e He] | done].
    + split; [done | eauto].
  - intros H. apply yields_wrapped.
    by rewrite (decodeURIComponent_plain sipUrl H) in Ho.
Qed.

Lemma fromSipUrl_without_escape_witness :
  fromSipUrl (str "sip:alice@example.com") (loaded false)
  = (Normal (wrapped (str "sip:alice@example.com") (loaded false)),
     allocated (loaded false))
  ∧ fromSipUrl (str "sip:alice?x@example.com") (loaded false)
    = (Normal (wrapped INNOCUOUS_STRING (loaded false)),
       allocated (loaded false)).
Proof.
  split.
  - refine (eq_trans (proj1 (fromSipUrl_without_escape
                               (str "sip:alice@example.com") (loaded false)) _) _).
    + apply (bool_decide_eq_true_1 (37 ∉ str "sip:alice@example.com")).
      vm_compute. reflexivity.
    + vm_compute. reflexivity.
  - refine (eq_trans (proj1 (fromSipUrl_without_escape
                               (str "sip:alice?x@example.com") (loaded false)) _) _).
    + apply (bool_decide_eq_true_1 (37 ∉ str "sip:alice?x@example.com")).
      vm_compute. reflexivity.
    + vm_compute. reflexivity.
Defined.

End AcceptedStrings.

Section SmsUrls.
Import RegExp Grammar SafeUrl.

Lemma indexOf_None (s : jsstring) (c : N) :
  c ∉ s → JsString.indexOf s c = None.
Proof.
  induction s as [| d t IH]; [done |]. intros H. cbn [JsString.indexOf].
  destruct (N.eqb_spec d c) as [-> | Hne].
  - exfalso. apply H, list_elem_of_here.
  - rewrite IH; [done |]. intros Hin. by apply H, list_elem_of_further.
Qed.

Lemma indexOf_first (p f : jsstring) (c : N) :
  c ∉ p → JsString.indexOf (p ++ c :: f) c = Some (length p).
Proof.
  induction p as [| d t IH]; intros H; cbn [JsString.indexOf app length].
  - by rewrite N.eqb_refl.
  - destruct (N.eqb_spec d c) as [-> | Hne].
    + exfalso. apply H, list_elem_of_here.
    + rewrite IH; [done |]. intros Hin. by apply H, list_elem_of_further.
Qed.

Lemma beforeFragment_plain (p : jsstring) :
  35 ∉ p → beforeFragment p = p.
Proof. intros H. unfold beforeFragment. by rewrite indexOf_None. Qed.

Lemma beforeFragment_cut (p f : jsstring) :
  35 ∉ p → p ≠ [] → beforeFragment (p ++ 35 :: f) = p.
Proof.
  intros H Hp. unfold beforeFragment.
  change (ch "#") with 35. rewrite indexOf_first by done.
  destruct p as [| a p]; [done |]. cbn [length Nat.ltb Nat.leb].
  unfold JsString.substring. rewrite Nat.sub_0_r, drop_0.
  change (S (length p)) with (length (a :: p)). by rewrite take_app_length.
Qed.

Lemma beforeFragment_subseteq (s : jsstring) (u : N) :
  u ∈ beforeFragment s → u ∈ s.
Proof.
  unfold beforeFragment. destruct (JsString.indexOf s (ch "#")) as [h |];
    [| done].
  destruct (0 <? h)%nat; [| done]. unfold JsString.substring.
  rewrite drop_0. intros (i & Hi & _)%elem_of_take.
  by apply list_elem_of_lookup_2 in Hi.
Qed.

(** The body check reads the argument before its fragment only. *)
Lemma isSmsUrlBodyValid_beforeFragment (s1 s2 : jsstring) :
  beforeFragment s1 = beforeFragment s2 →
  isSmsUrlBodyValid_ s1 = isSmsUrlBodyValid_ s2.
Proof.
  unfold isSmsUrlBodyValid_, beforeFragment. cbv zeta. by intros ->.
Qed.

Lemma startsWith_length (s l : jsstring) :
  goog_string.caseInsensitiveStartsWith s l = true →
  (length l ≤ length s)%nat.
Proof.
  unfold goog_string.caseInsensitiveStartsWith, JsString.eqb.
  intros H%bool_decide_eq_true. apply (f_equal length) in H.
  unfold JsString.toLowerCase in H. rewrite !length_map, length_take in H.
  lia.
Qed.

Lemma startsWith_app (s t l : jsstring) :
  goog_string.caseInsensitiveStartsWith s l = true →
  goog_string.caseInsensitiveStartsWith (s ++ t) l = true.
Proof.
  intros H. pose proof (startsWith_length s l H) as Hl.
  unfold goog_string.caseInsensitiveStartsWith in *.
  by rewrite take_app_le.
Qed.

Lemma fromSmsUrl_by_validity (s : jsstring) (st : realm) :
  goog_string.caseInsensitiveStartsWith s (str "sms:") = true →
  fromSmsUrl s st =
  match isSmsUrlBodyValid_ s st with
  | (Normal valid, st') =>
      (Normal (wrapped (if valid then s else INNOCUOUS_STRING) st'),
       allocated st')
  | (Throw e, st') => (Throw e, st')
  end.
Proof.
  intros H. unfold fromSmsUrl, mbind, M_bind, fmap, M_fmap. rewrite H.
  cbn [negb]. destruct (isSmsUrlBodyValid_ s st) as [[[] | e] st']; done.
Qed.

Lemma sms_not_innocuous (s : jsstring) :
  goog_string.caseInsensitiveStartsWith s (str "sms:") = true →
  s ≠ INNOCUOUS_STRING.
Proof. intros H ->. vm_compute in H. discriminate H. Qed.

(** X14.  [fromSmsUrl] ignores the fragment of its argument: for a
    string [p] that starts with [sms:] and has no [#], the outcome on
    [p] followed by [#] and any fragment [f] is the outcome on [p]:
    the argument is wrapped in both cases or in neither, and a
    TypeError is thrown in both cases or in neither.  A [body]
    parameter after the [#] is not checked. *)
Theorem fromSmsUrl_ignores_fragment (p f : jsstring) (st : realm) :
  goog_string.caseInsensitiveStartsWith p (str "sms:") = true →
  35 ∉ p →
  isSmsUrlBodyValid_ (p ++ 35 :: f) st = isSmsUrlBodyValid_ p st
  ∧ (fromSmsUrl (p ++ 35 :: f) st
       = (Normal (wrapped (p ++ 35 :: f) st), allocated st)
     ↔ fromSmsUrl p st = (Normal (wrapped p st), allocated st))
  ∧ (fromSmsUrl (p ++ 35 :: f) st = (Throw TypeError, st)
     ↔ fromSmsUrl p st = (Throw TypeError, st))
  ∧ (yields (fromSmsUrl (p ++ 35 :: f) st) (p ++ 35 :: f) st
     ↔ yields (fromSmsUrl p st) p st).
Proof.
  intros Hp Hf.
  assert (Hne : p ≠ []) by (intros ->; discriminate Hp).
  assert (E : isSmsUrlBodyValid_ (p ++ 35 :: f) = isSmsUrlBodyValid_ p).
  { apply isSmsUrlBodyValid_beforeFragment.
    by rewrite beforeFragment_cut, beforeFragment_plain. }
  split; [by rewrite E |].
  pose proof (startsWith_app p (35 :: f) _ Hp) as Hpf.
  rewrite (fromSmsUrl_by_validity _ st Hpf), (fromSmsUrl_by_validity _ st Hp).
  rewrite E.
  pose proof (sms_not_innocuous _ Hp) as N1.
  pose proof (sms_not_innocuous _ Hpf) as N2.
  destruct (isSmsUrlBodyValid_outcomes p st) as [[[] ->] | ->].
  - split; [done |]. split; [split; intros [=] |].
    split; intros _; by apply yields_wrapped.
  - split; [split; intros [= H]; congruence |].
    split; [split; intros [= H]; congruence |].
    rewrite !(yields_wrapped_iff _ _ _ _ eq_refl).
    split; intros H; by symmetry in H.
  - split; [split; intros [=] |]. split; [done |].
    split; intros H; by apply yields_throw in H.
Qed.

Lemma fromSmsUrl_ignores_fragment_witness :
  fromSmsUrl (str "sms:123?body=hi#&body=%zz") (loaded false)
  = (Normal (wrapped (str "sms:123?body=hi#&body=%zz") (loaded false)),
     allocated (loaded false)).
Proof.
  refine (proj2 (proj1 (proj2 (fromSmsUrl_ignores_fragment
                                 (str "sms:123?body=hi") (str "&body=%zz")
                                 (loaded false) _ _))) _).
  - vm_compute. reflexivity.
  - apply (bool_decide_eq_true_1 (35 ∉ str "sms:123?body=hi")).
    vm_compute. reflexivity.
  - vm_compute. reflexivity.
Defined.

Lemma Sem_Class_inv (ic invert : bool) (atoms : list ClassAtom) (i : nat)
    (s : jsstring) (n : nat) :
  Sem ic (Class invert atoms) i s n →
  ∃ u t, s = u :: t ∧ xorb invert (class_mem ic atoms u) = true ∧ n = 1%nat.
Proof. inversion 1; subst. by eexists _, _. Qed.

Lemma toUpper_mark (u c : N) :
  c < 65 → JsString.toUpper u = c → u = c.
Proof.
  unfold JsString.toUpper, JsString.isLower.
  destruct (N.leb_spec 97 u), (N.leb_spec u 122); cbn; lia.
Qed.

(** X15.  [fromSmsUrl] wraps every string that starts with [sms:], in
    some case, and has neither [?] nor [&]: without a separator there
    is no [body] parameter to check. *)
Theorem fromSmsUrl_without_query (smsUrl : jsstring) (st : realm) :
  goog_string.caseInsensitiveStartsWith smsUrl (str "sms:") = true →
  63 ∉ smsUrl → 38 ∉ smsUrl →
  isSmsUrlBodyValid_ smsUrl st = (Normal true, st)
  ∧ fromSmsUrl smsUrl st = (Normal (wrapped smsUrl st), allocated st)
  ∧ yields (fromSmsUrl smsUrl st) smsUrl st.
Proof.
  intros Hs Hq Ha.
  assert (E : isSmsUrlBodyValid_ smsUrl st = (Normal true, st)).
  { unfold isSmsUrlBodyValid_. cbv zeta. fold (beforeFragment smsUrl).
    set (s' := beforeFragment smsUrl).
    assert (Hn : search BODY_PARAMS_PATTERN 0 s' = None).
    { destruct (search BODY_PARAMS_PATTERN 0 s') as [e |] eqn:Ee; [| done].
      exfalso.
      destruct (proj1 (search_Sem BODY_PARAMS_PATTERN s' 0))
        as (k & n & Hk & Hn); [by rewrite Ee |].
      cbn [source BODY_PARAMS_PATTERN ignoreCase] in Hn.
      inversion Hn as [| | | | ? ? ? ? n1 n2 Hn1 Hn2 | | | | | | |]; subst.
      apply Sem_Class_inv in Hn1 as (u & t & Hd & Hu & _).
      assert (Hin : u ∈ smsUrl).
      { apply beforeFragment_subseteq. fold s'.
        apply (list_elem_of_lookup_2 _ k). rewrite <- (Nat.add_0_r k).
        rewrite <- lookup_drop, Hd. done. }
      cbn [xorb] in Hu.
      apply class_mem_spec in Hu as (a & d' & Hin' & Hm & Hc).
      cbn [Canonicalize] in Hc.
      apply list_elem_of_In in Hin'. cbn in Hin'.
      destruct Hin' as [<- | [<- | []]]; cbn [atom_mem] in Hm;
        apply N.eqb_eq in Hm; subst d'; symmetry in Hc;
        apply toUpper_mark in Hc; [| done | | done]; by subst u. }
    unfold match_. cbn [global BODY_PARAMS_PATTERN matches].
    by rewrite Hn. }
  assert (Hw : fromSmsUrl smsUrl st
               = (Normal (wrapped smsUrl st), allocated st))
    by (by rewrite (fromSmsUrl_by_validity _ st Hs), E).
  split; [exact E |]. split; [exact Hw |]. by apply yields_wrapped.
Qed.

Lemma fromSmsUrl_without_query_witness :
  fromSmsUrl (str "SMS:+15550100;body=x") (loaded true)
  = (Normal (wrapped (str "SMS:+15550100;body=x") (loaded true)),
     allocated (loaded true)).
Proof.
  refine (proj1 (proj2 (fromSmsUrl_without_query (str "SMS:+15550100;body=x")
                          (loaded true) _ _ _))).
  - vm_compute. reflexivity.
  - apply (bool_decide_eq_true_1 (63 ∉ str "SMS:+15550100;body=x")).
    vm_compute. reflexivity.
  - apply (bool_decide_eq_true_1 (38 ∉ str "SMS:+15550100;body=x")).
    vm_compute. reflexivity.
Defined.

End SmsUrls.

Section Wrapping.
Import RegExp Grammar SafeUrl.

(** X16.  A SafeUrl made by the factory is exactly of the SafeUrl
    type, and [unwrap], [getTypedStringValue()], [toString()] and
    [String] all give the string it was made from.  [fromConstant]
    wraps the string of its constant without any check, and [sanitize]
    returns a SafeUrl as it is: [sanitize(fromConstant(c))] unwraps to
    the string of [c], even when [sanitize] would replace that
    string. *)
Theorem SafeUrl_round_trip (s : jsstring) (c : goog_string.Const)
    (st : realm) :
  unwrapsTo (createSafeUrlSecurityPrivateDoNotAccessOrElse s) s
  ∧ exactlySafeUrl (VObject (wrapped s st))
  ∧ prototype_getTypedStringValue (wrapped s st) = s
  ∧ prototype_toString (wrapped s st) = s
  ∧ Js.String_ (VObject (wrapped s st)) = s
  ∧ unwrapsTo (fromConstant c) (goog_string.Const_unwrap c)
  ∧ unwrapsTo (fromConstant c ≫= fun u => sanitize (VObject u))
              (goog_string.Const_unwrap c)
  ∧ unwrapsTo (fromConstant c ≫= fun u =>
               sanitizeAssertUnchanged (VObject u) false)
              (goog_string.Const_unwrap c).
Proof.
  split; [by apply unwrapsTo_create; intros; apply create_wrapped |].
  split.
  { apply exactlySafeUrl_wrapped. }
  split; [reflexivity |]. split; [reflexivity |]. split; [reflexivity |].
  split; [by apply unwrapsTo_create; intros; apply create_wrapped |].
  split; intros st0; exists (allocated st0); (split; [| done]);
    unfold fromConstant, mbind, M_bind; rewrite create_wrapped;
    cbn -[unwrap wrapped]; apply unwrap_construct.
Qed.

(** X17.  On a string, [sanitizeAssertUnchanged] never returns a
    changed URL: the new SafeUrl wraps the argument itself, or the
    innocuous string after the report of an assertion failure.
    [sanitize] does change some: a data URL with an escape of LF
    is wrapped without the escape by [sanitize] and is replaced by
    the innocuous string by [sanitizeAssertUnchanged], also when data
    URLs are allowed. *)
Theorem sanitizeAssertUnchanged_never_changes (s : jsstring)
    (allowDataUrl : bool) (st : realm) :
  (∃ p reports,
     returns (sanitizeAssertUnchanged (VString s) allowDataUrl st) p reports
     ∧ (p = s ∨ (p = INNOCUOUS_STRING ∧ reports ≠ diagnostics st)))
  ∧ unwrapsTo (sanitize (VString (str "data:image/png;base64,AA%0AAA")))
              (str "data:image/png;base64,AAAA")
  ∧ ∃ message,
      returns (sanitizeAssertUnchanged
                 (VString (str "data:image/png;base64,AA%0AAA")) true st)
              INNOCUOUS_STRING (message :: diagnostics st).
Proof.
  split; [| split].
  - pose proof (sanitizeAssertUnchanged_eq (VString s) s allowDataUrl st
                  eq_refl eq_refl) as H. cbv zeta in H.
    set (valid := allowDataUrl
                  && goog_string.caseInsensitiveStartsWith s (str "data:")
                  && test DATA_URL_PATTERN_ (removeCrLfEscapes 0 s)) in H.
    destruct (valid && JsString.eqb (removeCrLfEscapes 0 s) s).
    { exists s, (diagnostics st). split; [| by left].
      rewrite H. by_construction. }
    destruct (test SAFE_URL_PATTERN_ s).
    { exists s, (diagnostics st). split; [| by left].
      rewrite H. destruct valid; by_construction. }
    exists INNOCUOUS_STRING. eexists. split.
    + rewrite H. by_construction.
    + right. split; [done |]. destruct valid; cbn [diagnostics reported allocated];
        intros E; apply (f_equal length) in E; cbn [length] in E; lia.
  - apply unwrapsTo_create. intros st0.
    rewrite sanitize_string, fromDataUrl_string.
    assert (E1 : test SAFE_URL_PATTERN_ (str "data:image/png;base64,AA%0AAA")
                 = false) by (vm_compute; reflexivity).
    assert (E2 : removeCrLfEscapes 0 (str "data:image/png;base64,AA%0AAA")
                 = str "data:image/png;base64,AAAA")
      by (vm_compute; reflexivity).
    assert (E3 : test DATA_URL_PATTERN_ (str "data:image/png;base64,AAAA")
                 = true) by (vm_compute; reflexivity).
    by rewrite E1, E2, E3.
  - pose proof (sanitizeAssertUnchanged_eq
                  (VString (str "data:image/png;base64,AA%0AAA"))
                  (str "data:image/png;base64,AA%0AAA") true st
                  eq_refl eq_refl) as H. cbv zeta in H.
    assert (E1 : test SAFE_URL_PATTERN_ (str "data:image/png;base64,AA%0AAA")
                 = false) by (vm_compute; reflexivity).
    assert (E2 : removeCrLfEscapes 0 (str "data:image/png;base64,AA%0AAA")
                 = str "data:image/png;base64,AAAA")
      by (vm_compute; reflexivity).
    assert (E3 : test DATA_URL_PATTERN_ (str "data:image/png;base64,AAAA")
                 = true) by (vm_compute; reflexivity).
    assert (E4 : goog_string.caseInsensitiveStartsWith
                   (str "data:image/png;base64,AA%0AAA") (str "data:") = true)
      by (vm_compute; reflexivity).
    assert (E5 : JsString.eqb (str "data:image/png;base64,AAAA")
                   (str "data:image/png;base64,AA%0AAA") = false)
      by (vm_compute; reflexivity).
    rewrite E1, E2, E3, E4, E5 in H. cbn [andb] in H.
    rewrite H. eexists. by_construction.
Qed.

End Wrapping.

Section SmsBody.
Import RegExp Grammar SafeUrl.
Local Arguments Lit : simpl never.
Local Arguments Star : simpl never.
Local Arguments Nat.eqb : simpl never.

Lemma separator_class (ic : bool) (u : N) :
  xorb false (class_mem ic (chars "?&") u) = isSeparator u.
Proof.
  unfold isSeparator. apply eq_true_iff_eq. cbn [xorb].
  rewrite class_mem_spec, orb_true_iff, !N.eqb_eq. split.
  - intros (a & d & Ha & Hm & Hc). apply list_elem_of_In in Ha. cbn in Ha.
    destruct Ha as [<- | [<- | []]]; cbn [atom_mem] in Hm;
      apply N.eqb_eq in Hm; subst d; symmetry in Hc;
      (destruct ic; cbn [Canonicalize] in Hc;
       [apply toUpper_mark in Hc; [| done] |]); auto.
  - intros [-> | ->].
    + exists (CChar 63), 63. split; [apply list_elem_of_here | done].
    + exists (CChar 38), 38.
      split; [apply list_elem_of_further, list_elem_of_here | done].
Qed.

Lemma m_separator (ic : bool) (X : Pattern) (c : Continuation)
    (x : MatchState) :
  m ic (Seq (Class false (chars "?&")) X) c x =
  match rest x with
  | [] => None
  | u :: t =>
      if isSeparator u
      then m ic X c {| endIndex := S (endIndex x); rest := t;
                       captures := captures x |}
      else None
  end.
Proof.
  rewrite m_Seq. cbn [m]. unfold CharacterSetMatcher.
  destruct (rest x) as [| u t]; [done |]. by rewrite separator_class.
Qed.

(** A search for a parameter passes over the units that are not
    separators. *)
Lemma search_skip (R : RegExp) (X : Pattern) (pre s : jsstring) (i : nat) :
  source R = Seq (Class false (chars "?&")) X →
  Forall (fun u => isSeparator u = false) pre →
  search R i (pre ++ s) = search R (i + length pre) s.
Proof.
  intros HR Hpre. revert i.
  induction Hpre as [| u pre Hu Hpre IH]; intros i; cbn [app length].
  - by rewrite Nat.add_0_r.
  - cbn [search]. rewrite HR, m_separator. cbn [initial rest]. rewrite Hu.
    rewrite IH. f_equal. lia.
Qed.

Lemma search_no_separator (R : RegExp) (X : Pattern) (s : jsstring)
    (i : nat) :
  source R = Seq (Class false (chars "?&")) X →
  Forall (fun u => isSeparator u = false) s →
  search R i s = None.
Proof.
  intros HR Hs. rewrite <- (app_nil_r s), (search_skip R X s [] i HR Hs).
  cbn [search]. by rewrite HR, m_separator.
Qed.

Lemma litPrefix_here (ic : bool) (l t : jsstring) :
  litPrefix ic l (l ++ t) = true.
Proof.
  induction l as [| d l IH]; [by destruct t |]. cbn [app litPrefix].
  by rewrite N.eqb_refl, IH.
Qed.

(** A greedy run stops at the longest run when the continuation
    succeeds there. *)
Lemma greedy_longest (p : N → bool) (c : Continuation) (s : jsstring) :
  ∀ i caps,
  is_Some (c {| endIndex := i + span p s; rest := drop (span p s) s;
                captures := caps |}) →
  greedy p c i caps s
  = c {| endIndex := i + span p s; rest := drop (span p s) s;
         captures := caps |}.
Proof.
  induction s as [| u t IH]; intros i caps; cbn [greedy span drop].
  - by rewrite Nat.add_0_r.
  - destruct (p u).
    + replace (i + S (span p t))%nat with (S i + span p t)%nat by lia.
      cbn [drop]. intros H. rewrite (IH _ _ H). by destruct H as [z ->].
    + by rewrite Nat.add_0_r.
Qed.

Lemma span_length (p : N → bool) (s : jsstring) :
  Forall (fun u => p u = true) s → span p s = length s.
Proof. induction 1 as [| u s Hu _ IH]; cbn; [done |]. by rewrite Hu, IH. Qed.

Lemma search_BODY_PARAMS_here (i : nat) (v : jsstring) :
  search BODY_PARAMS_PATTERN i (63 :: str "body=" ++ v)
  = Some {| index := i; lastIndex := i + 6; after := v;
            array := [Some (str "?body=")] |}.
Proof.
  cbn [search source BODY_PARAMS_PATTERN ignoreCase].
  rewrite m_separator. unfold initial.
  cbn [nCaptures replicate rest endIndex captures].
  change (isSeparator 63) with true. cbn iota.
  rewrite m_Lit. cbn [rest]. rewrite litPrefix_here.
  unfold advanceBy. cbn [endIndex rest captures]. rewrite drop_app_length.
  change (length (str "body=")) with 5%nat.
  replace (S i + 5 - i)%nat with 6%nat by lia.
  do 2 f_equal. lia.
Qed.

Lemma search_BODY_VALUE_here (i : nat) (v : jsstring) :
  Forall (fun u => isSeparator u = false) v →
  search BODY_VALUE_PATTERN i (63 :: str "body=" ++ v)
  = Some {| index := i; lastIndex := i + 6 + length v; after := [];
            array := [Some (str "?body=" ++ v); Some v] |}.
Proof.
  intros Hv.
  cbn [search source BODY_VALUE_PATTERN Seqs foldr ignoreCase].
  rewrite m_separator. unfold initial.
  cbn [nCaptures replicate rest endIndex captures].
  change (isSeparator 63) with true. cbn iota.
  rewrite m_Seq, m_Lit. cbn [rest]. rewrite litPrefix_here.
  unfold advanceBy at 1. cbn [endIndex rest captures].
  rewrite drop_app_length. rewrite m_Seq. cbn [m].
  rewrite (m_Star_unit false (Class true (chars "&"))
             (fun u => xorb true (class_mem false (chars "&") u)) _ _ eq_refl).
  cbn [endIndex rest captures].
  assert (Hspan : span (fun u => xorb true (class_mem false (chars "&") u)) v
                  = length v).
  { apply span_length. eapply Forall_impl; [exact Hv |].
    intros u Hu. cbn beta. unfold isSeparator in Hu.
    apply orb_false_iff in Hu as [_ Hu].
    unfold class_mem. cbn [Canonicalize chars map list_ascii_of_string
                           existsb atom_mem andb orb].
    change (ch "&") with 38. by rewrite Hu. }
  rewrite greedy_longest; rewrite Hspan, drop_all; [| by eexists].
  unfold setCapture. cbn [endIndex rest captures].
  change (length (str "body=")) with 5%nat.
  replace (S i + 5 + length v - (S i + 5))%nat with (length v) by lia.
  replace (S i + 5 + length v - i)%nat with (6 + length v)%nat by lia.
  rewrite firstn_all. cbn [list_insert insert].
  change (take (6 + length v) (63 :: str "body=" ++ v))
    with (str "?body=" ++ take (length v) v).
  rewrite firstn_all. do 2 f_equal. lia.
Qed.

(** The two matches of [isSmsUrlBodyValid_] on a string with one
    [body] parameter, after [?]. *)
Lemma match_body (head v : jsstring) :
  Forall (fun u => isSeparator u = false) head →
  Forall (fun u => isSeparator u = false) v →
  match_ (head ++ str "?body=" ++ v) BODY_PARAMS_PATTERN
  = Some [Some (str "?body=")]
  ∧ match_ (head ++ str "?body=" ++ v) BODY_VALUE_PATTERN
    = Some [Some (str "?body=" ++ v); Some v].
Proof.
  intros Hh Hv. split.
  - unfold match_.
    change (global BODY_PARAMS_PATTERN) with true. cbn iota.
    cbn [matches].
    rewrite (search_skip BODY_PARAMS_PATTERN _ head _ 0 eq_refl Hh).
    change (str "?body=" ++ v) with (63 :: str "body=" ++ v).
    rewrite search_BODY_PARAMS_here.
    unfold advance, matched.
    cbn [array lookup_total list_lookup_total default after lastIndex].
    change (str "?body=") with (63 :: str "body="). unfold id. cbn iota.
    destruct (length (head ++ 63 :: str "body=" ++ v)) as [| fuel] eqn:El.
    { rewrite length_app in El. cbn in El. lia. }
    cbn [matches].
    by rewrite (search_no_separator BODY_PARAMS_PATTERN _ v _ eq_refl Hv).
  - unfold match_.
    change (global BODY_VALUE_PATTERN) with false. cbn iota.
    unfold exec.
    rewrite (search_skip BODY_VALUE_PATTERN _ head _ 0 eq_refl Hh).
    change (str "?body=" ++ v) with (63 :: str "body=" ++ v) at 1.
    by rewrite (search_BODY_VALUE_here _ v Hv).
Qed.

Lemma plain_no_separator (s : jsstring) :
  Forall (fun u => isPlainUnit u = true) s →
  Forall (fun u => isSeparator u = false) s.
Proof.
  intros Hs. eapply Forall_impl; [exact Hs |]. cbn beta.
  intros u H. unfold isPlainUnit in H.
  apply negb_true_iff, orb_false_iff in H. tauto.
Qed.

Lemma plain_no_hash (s : jsstring) :
  Forall (fun u => isPlainUnit u = true) s → 35 ∉ s.
Proof.
  intros H Hin. rewrite Forall_forall in H. specialize (H _ Hin).
  discriminate H.
Qed.

(** X18.  The outcome of [fromSmsUrl] on a URL with one [body]
    parameter: a string that starts with [sms:] in some case and has
    no [?], [&] or [#], then [?body=], a value [v] without [?], [&] or
    [#], and then nothing or a fragment.  The URL is wrapped when [v] is
    empty, or when [decodeURIComponent(v)] succeeds and the last
    pattern of [isSmsUrlBodyValid_] accepts [v]; otherwise the
    innocuous string is wrapped; nothing is thrown.  An accepted value
    that is not empty is made of letters, digits and the marks
    [- _ . ~ %] only. *)
Theorem fromSmsUrl_body_spec (head v tail : jsstring) (st : realm) :
  goog_string.caseInsensitiveStartsWith head (str "sms:") = true →
  Forall (fun u => isPlainUnit u = true) head →
  Forall (fun u => isPlainUnit u = true) v →
  (tail = [] ∨ ∃ f, tail = 35 :: f) →
  let smsUrl := head ++ str "?body=" ++ v ++ tail in
  let valid :=
    match v with
    | [] => true
    | _ => match Js.decodeURIComponent v with
           | Normal _ => test BODY_CHARSET_PATTERN v
           | Throw _ => false
           end
    end in
  isSmsUrlBodyValid_ smsUrl st = (Normal valid, st)
  ∧ fromSmsUrl smsUrl st
    = (Normal (wrapped (if valid then smsUrl else INNOCUOUS_STRING) st),
       allocated st)
  ∧ (v ≠ [] → valid = true → Forall (fun u => isBodyUnit u = true) v)
  ∧ yields (fromSmsUrl smsUrl st)
           (if valid then smsUrl else INNOCUOUS_STRING) st.
Proof.
  intros Hs Hh Hv Ht smsUrl valid.
  set (s0 := head ++ str "?body=" ++ v).
  assert (Hs0 : 35 ∉ s0).
  { unfold s0. rewrite !elem_of_app. intros [H | [H | H]].
    - by apply (plain_no_hash head).
    - vm_compute in H. apply list_elem_of_In in H. cbn in H.
      repeat (destruct H as [H | H]; [discriminate H |]). exact H.
    - by apply (plain_no_hash v). }
  assert (Hcut : beforeFragment smsUrl = beforeFragment s0).
  { rewrite (beforeFragment_plain s0 Hs0). unfold smsUrl.
    replace (head ++ str "?body=" ++ v ++ tail) with (s0 ++ tail)
      by (unfold s0; by rewrite <- !app_assoc).
    destruct Ht as [-> | [f ->]].
    - rewrite app_nil_r. by apply beforeFragment_plain.
    - apply beforeFragment_cut; [done |]. unfold s0.
      intros H. apply (f_equal length) in H. rewrite !length_app in H.
      cbn in H. lia. }
  assert (E : isSmsUrlBodyValid_ smsUrl st = (Normal valid, st)).
  { rewrite (isSmsUrlBodyValid_beforeFragment smsUrl s0 Hcut).
    unfold isSmsUrlBodyValid_. cbv zeta. fold (beforeFragment s0).
    rewrite (beforeFragment_plain s0 Hs0). unfold s0.
    destruct (match_body head v (plain_no_separator _ Hh)
                (plain_no_separator _ Hv)) as [-> ->].
    cbn [length Nat.ltb Nat.leb lookup list_lookup default].
    unfold valid. destruct v as [| u t]; [done |].
    unfold try_catch, lift, mbind, M_bind, mret, M_ret, id. cbn iota beta.
    by destruct (Js.decodeURIComponent (u :: t)). }
  assert (Hw : fromSmsUrl smsUrl st
               = (Normal (wrapped (if valid then smsUrl
                                   else INNOCUOUS_STRING) st),
                  allocated st)).
  { unfold smsUrl in *.
    rewrite (fromSmsUrl_by_validity _ st (startsWith_app head _ _ Hs)).
    by rewrite E. }
  split; [exact E |]. split; [exact Hw |].
  split; [| by apply yields_wrapped].
  - intros Hne Hvalid. unfold valid in Hvalid.
    destruct v as [| u t]; [done |].
    destruct (Js.decodeURIComponent (u :: t)); [| done].
    destruct (test_consumes BODY_CHARSET_PATTERN
                (afterStart BODY_CHARSET_PATTERN) (u :: t) eq_refl eq_refl
                Hvalid) as [_ Hall].
    eapply Forall_impl; [exact Hall |]. cbn beta.
    apply consumes_within; vm_compute; reflexivity.
Qed.

Lemma fromSmsUrl_body_spec_witness :
  fromSmsUrl (str "SMS:+15550100?body=hello%20world#frag") (loaded false)
  = (Normal (wrapped (str "SMS:+15550100?body=hello%20world#frag")
                     (loaded false)),
     allocated (loaded false))
  ∧ fromSmsUrl (str "sms:123?body=hello world") (loaded false)
    = (Normal (wrapped INNOCUOUS_STRING (loaded false)),
       allocated (loaded false))
  ∧ Forall (fun u => isBodyUnit u = true) (str "hello%20world").
Proof.
  split; [| split].
  - refine (eq_trans (proj1 (proj2 (fromSmsUrl_body_spec
              (str "SMS:+15550100") (str "hello%20world") (str "#frag")
              (loaded false) _ _ _ _))) _).
    + vm_compute. reflexivity.
    + repeat constructor.
    + repeat constructor.
    + right. by eexists.
    + vm_compute. reflexivity.
  - refine (eq_trans (proj1 (proj2 (fromSmsUrl_body_spec
              (str "sms:123") (str "hello world") []
              (loaded false) _ _ _ _))) _).
    + vm_compute. reflexivity.
    + repeat constructor.
    + repeat constructor.
    + by left.
    + vm_compute. reflexivity.
  - refine (proj1 (proj2 (proj2 (fromSmsUrl_body_spec
              (str "sms:123") (str "hello%20world") []
              (loaded false) _ _ _ _))) _ _).
    + vm_compute. reflexivity.
    + repeat constructor.
    + repeat constructor.
    + by left.
    + intros H. vm_compute in H. discriminate H.
    + vm_compute. reflexivity.
Defined.

End SmsBody.

Section ExtensionUrls.
Import RegExp Grammar SafeUrl.

(** X19.  Edge cases of the extension sanitizers.  With an empty array
    of identifiers every URL is replaced by the innocuous string.  A
    URL with an empty identifier ([chrome-extension:///...]) is
    replaced whatever the identifiers are, also when the empty string is
    one of them.  The scheme is compared with regard to case and to the
    kind of extension: a URL that does not start with
    [chrome-extension://] exactly, such as one in upper case or a
    [moz-extension://] URL, is replaced by the Chrome sanitizer. *)
Theorem sanitizeExtensionUrl_edges (url tail : jsstring)
    (extensionId : ExtensionId) (st : realm) :
  sanitizeChromeExtensionUrl url (ConstArray []) st
  = (Normal (wrapped INNOCUOUS_STRING st), allocated st)
  ∧ sanitizeChromeExtensionUrl (str "chrome-extension:///" ++ tail)
      extensionId st
    = (Normal (wrapped INNOCUOUS_STRING st), allocated st)
  ∧ (litPrefix false (str "chrome-extension://") url = false →
     sanitizeChromeExtensionUrl url extensionId st
     = (Normal (wrapped INNOCUOUS_STRING st), allocated st))
  ∧ sanitizeChromeExtensionUrl (str "CHROME-EXTENSION://" ++ tail)
      extensionId st
    = (Normal (wrapped INNOCUOUS_STRING st), allocated st)
  ∧ sanitizeChromeExtensionUrl (str "moz-extension://" ++ tail)
      extensionId st
    = (Normal (wrapped INNOCUOUS_STRING st), allocated st)
  ∧ yields (sanitizeChromeExtensionUrl url (ConstArray []) st)
           INNOCUOUS_STRING st
  ∧ yields (sanitizeChromeExtensionUrl (str "chrome-extension:///" ++ tail)
              extensionId st)
           INNOCUOUS_STRING st
  ∧ (litPrefix false (str "chrome-extension://") url = false →
     yields (sanitizeChromeExtensionUrl url extensionId st)
            INNOCUOUS_STRING st).
Proof.
  assert (Hprefix : ∀ u ids,
            litPrefix false (str "chrome-extension://") u = false →
            sanitizeChromeExtensionUrl u ids st
            = (Normal (wrapped INNOCUOUS_STRING st), allocated st)).
  { intros u ids Hu.
    apply (sanitizeExtensionUrl_accepted "chrome-extension" u ids st).
    intros (id & tl & -> & _). rewrite app_assoc in Hu.
    change (str "chrome-extension" ++ str "://")
      with (str "chrome-extension://") in Hu.
    by rewrite litPrefix_here in Hu. }
  assert (Hempty : sanitizeChromeExtensionUrl url (ConstArray []) st
                   = (Normal (wrapped INNOCUOUS_STRING st), allocated st)).
  { apply (sanitizeExtensionUrl_accepted "chrome-extension" url _ st).
    intros (id & tl & _ & _ & _ & Hin). cbn in Hin.
    by apply elem_of_nil in Hin. }
  assert (Hnoid : sanitizeChromeExtensionUrl
                    (str "chrome-extension:///" ++ tail) extensionId st
                  = (Normal (wrapped INNOCUOUS_STRING st), allocated st)).
  { apply (sanitizeExtensionUrl_accepted "chrome-extension" _ extensionId st).
    intros (id & tl & E & Hne & Hid & _).
    change (str "chrome-extension:///" ++ tail)
      with (str "chrome-extension" ++ str "://" ++ 47 :: tail) in E.
    do 2 apply app_inv_head in E.
    destruct id as [| a id]; [done |]. injection E as <- _.
    apply Hid, list_elem_of_here. }
  split; [exact Hempty |]. split; [exact Hnoid |].
  split; [by apply Hprefix |].
  split; [apply Hprefix; reflexivity |].
  split; [apply Hprefix; reflexivity |].
  split; [by apply yields_wrapped |]. split; [by apply yields_wrapped |].
  intros H. by apply yields_wrapped, Hprefix.
Qed.

Lemma sanitizeExtensionUrl_edges_witness :
  sanitizeChromeExtensionUrl (str "Chrome-Extension://abc/x")
    (OneConst {| goog_string.stringConstValueWithSecurityContract_ :=
                   str "abc" |}) (loaded false)
  = (Normal (wrapped INNOCUOUS_STRING (loaded false)),
     allocated (loaded false)).
Proof.
  refine (proj1 (proj2 (proj2 (sanitizeExtensionUrl_edges
            (str "Chrome-Extension://abc/x") []
            (OneConst {| goog_string.stringConstValueWithSecurityContract_ :=
                           str "abc" |}) (loaded false)))) _).
  vm_compute. reflexivity.
Defined.

End ExtensionUrls.
